(** * swift-psl: the Public Suffix List compiler and the generated resolver

    A shallow embedding of [regenerate.py]: the rule-list parser
    [get_public_suffixes], the trie builder [rules_to_tree], the top-level
    pruning pass [filter_top_rules], the Swift function [get_domain] that
    the script writes into the generated file, the freshness check
    [need_to_redownload_psl] with [redownload_psl] and the flow of [main],
    and the emitter [make_swift_dict] with [get_name] and
    [to_swift_string].

    Conventions.
    - Text is a [string] of [ascii] characters; the model covers ASCII
      rule lists and hostnames (the only case in which Python's
      [str.lower] and [str.split] are character-wise on single bytes).
    - A Python [OrderedDict] and a Swift [[String: Rule]] are both a
      [gmap string Rule]: the resolver only ever looks keys up, so the
      insertion order of the Python dictionaries is not observable in it.
      The order is observable in Python ([OrderedDict] compares it, and
      [make_swift_dict] prints the keys in it): [Ordered] is the builder
      with the order kept, and [erase_suffixes] shows that the trees used
      for the resolver are those of [Ordered] with the order forgotten.
    - A Rocq value of type [Rule] stands both for the Python tree (a
      dictionary, or [True] stored under the key ["!"]) and for the Swift
      enum value that [make_swift_dict] prints for it ([Rule.subrule] of a
      dictionary literal, [Rule.accept_this] for [True]).
    - The emitter is modelled over the tree that keeps the order of the
      keys ([PyValue]); what it hands to [f.write] is a list of strings.
      The text is not read back as Swift.
    - A file opened in binary mode is the [string] of its bytes, the
      response of the server the list of the chunks read from it, and the
      clock an integer. *)

From stdpp Require Import gmap strings list fin_maps pretty.
From Stdlib Require Import Ascii.

Set Warnings "-register-all".
Open Scope string_scope.
Open Scope list_scope.

(** ** Strings *)

Module Str.

(** [s.split(sep)] in Python, [s.components(separatedBy: sep)] in Swift,
    for a one-character separator. *)
Fixpoint split_on (sep : ascii) (s : string) : list string :=
  match s with
  | EmptyString => [EmptyString]
  | String c s' =>
      if Ascii.eqb c sep then EmptyString :: split_on sep s'
      else match split_on sep s' with
           | w :: ws => String c w :: ws
           | [] => [String c EmptyString]
           end
  end.

(** [ls.joined(separator: sep)]. *)
Fixpoint joined (sep : string) (ls : list string) : string :=
  match ls with
  | [] => EmptyString
  | [x] => x
  | x :: xs => x +:+ sep +:+ joined sep xs
  end.

Fixpoint all_chars (P : ascii → bool) (s : string) : bool :=
  match s with
  | EmptyString => true
  | String c s' => P c && all_chars P s'
  end.

Definition is_upper (c : ascii) : bool :=
  let n := nat_of_ascii c in (65 <=? n)%nat && (n <=? 90)%nat.

Definition lower_char (c : ascii) : ascii :=
  if is_upper c then ascii_of_nat (nat_of_ascii c + 32) else c.

(** [s.lower()]. *)
Fixpoint lower (s : string) : string :=
  match s with
  | EmptyString => EmptyString
  | String c s' => String (lower_char c) (lower s')
  end.

(** The characters on which [str.split()] without arguments splits:
    tab, line feed, vertical tab, form feed, carriage return, the four
    separators 0x1c-0x1f, and the space. *)
Definition is_space (c : ascii) : bool :=
  let n := nat_of_ascii c in
  ((9 <=? n)%nat && (n <=? 13)%nat) || ((28 <=? n)%nat && (n <=? 32)%nat).

Fixpoint lstrip (c : ascii) (s : string) : string :=
  match s with
  | EmptyString => EmptyString
  | String a s' => if Ascii.eqb a c then lstrip c s' else s
  end.

Fixpoint rstrip (c : ascii) (s : string) : string :=
  match s with
  | EmptyString => EmptyString
  | String a s' =>
      match rstrip c s' with
      | EmptyString => if Ascii.eqb a c then EmptyString else String a EmptyString
      | r => String a r
      end
  end.

(** [s.strip(c)] for a one-character argument. *)
Definition strip (c : ascii) (s : string) : string := rstrip c (lstrip c s).

(** The rest of a token: everything up to the next whitespace. *)
Fixpoint take_token (s : string) : string :=
  match s with
  | EmptyString => EmptyString
  | String c s' => if is_space c then EmptyString else String c (take_token s')
  end.

(** [s.split(maxsplit=1)], of which the parser keeps element [0]:
    [None] when the list is empty (no token on the line). *)
Fixpoint first_token (s : string) : option string :=
  match s with
  | EmptyString => None
  | String c s' =>
      if is_space c then first_token s' else Some (String c (take_token s'))
  end.

Definition LF : ascii := ascii_of_nat 10.
Definition CR : ascii := ascii_of_nat 13.

(** Iterating a file opened in text mode: universal newlines, every
    line keeps its terminator, translated to a line feed. *)
Fixpoint readlines (s : string) : list string :=
  match s with
  | EmptyString => []
  | String c s' =>
      if Ascii.eqb c LF then String LF EmptyString :: readlines s'
      else if Ascii.eqb c CR then
        String LF EmptyString ::
          match s' with
          | String c' s'' => if Ascii.eqb c' LF then readlines s'' else readlines s'
          | EmptyString => []
          end
      else match readlines s' with
           | w :: ws => String c w :: ws
           | [] => [String c EmptyString]
           end
  end.

End Str.

(** ** The rule-list parser: [get_public_suffixes] *)

(** A rule is the list of its labels, as it reads: [co.uk] is ["co"; "uk"]. *)
Abbreviation rule := (list string).

(** The body of the loop over the lines of the file; the state is the pair
    of lists [positive_public_suffixes], [negative_public_suffixes]. *)
Definition parse_line (st : list rule * list rule) (line : string)
  : list rule * list rule :=
  match Str.first_token line with
  | None => st                                       (* if not line: continue *)
  | Some tok =>
      if String.prefix "//" tok then st              (* comment *)
      else
        let labels s := Str.split_on "." (Str.lower (Str.strip "." s)) in
        if String.prefix "!" tok
        then (st.1, st.2 ++ [labels (String.substring 1 (String.length tok - 1) tok)])
        else (st.1 ++ [labels tok], st.2)
  end.

Definition get_public_suffixes (text : string) : list rule * list rule :=
  foldl parse_line ([], []) (Str.readlines text).

(** ** The trie: [rules_to_tree], [filter_top_rules] *)

Inductive Rule : Type :=
  | accept_this : Rule
  | subrule (d : gmap string Rule) : Rule.

Definition accept_this_key : string := "!".
Definition wildcard : string := "*".

(** The inner loop of [rules_to_tree] on the labels still to consume (the
    rule reversed), followed by [rule_tree['!'] = True].  [setdefault]
    returns the value already stored when there is one; when that value is
    [True] the next [setdefault] (or the final item assignment) raises, and
    the script stops: [None]. *)
Fixpoint insert_rule (labels : list string) (tree : gmap string Rule)
  : option (gmap string Rule) :=
  match labels with
  | [] => Some (<[accept_this_key := accept_this]> tree)
  | l :: ls =>
      match tree !! l with
      | None => sub ← insert_rule ls ∅; Some (<[l := subrule sub]> tree)
      | Some (subrule d) => sub ← insert_rule ls d; Some (<[l := subrule sub]> tree)
      | Some accept_this => None
      end
  end.

Fixpoint insert_rules (rules : list rule) (tree : gmap string Rule)
  : option (gmap string Rule) :=
  match rules with
  | [] => Some tree
  | r :: rs => tree' ← insert_rule (reverse r) tree; insert_rules rs tree'
  end.

(** [rules_to_tree] as far as lookups can see it: the keys and what is
    stored under them, without the order in which the [OrderedDict] keeps
    the keys (for the dictionary with its order see [Ordered.rules_to_tree]
    and [erase_rules_to_tree]). *)
Definition rules_to_tree (rules : list rule) : option (gmap string Rule) :=
  insert_rules rules ∅.

(** [v == {'!': True}]: a dictionary with the single key ["!"], bound to
    [True]. *)
Definition is_accept_dict (v : Rule) : bool :=
  match v with
  | accept_this => false
  | subrule d =>
      bool_decide (size d = 1) &&
      match d !! accept_this_key with Some accept_this => true | _ => false end
  end.

Definition filter_top_rules (d : gmap string Rule) : gmap string Rule :=
  filter (λ kv, is_accept_dict kv.2 = false) d.

(** What [main] passes to [make_swift_dict] for [p_suffixes] and for
    [n_suffixes]: the same pipeline for both rule lists. *)
Definition suffixes (rules : list rule) : option (gmap string Rule) :=
  filter_top_rules <$> rules_to_tree rules.

Definition main_tries (text : string)
  : option (gmap string Rule * gmap string Rule) :=
  let '(positive_public_suffixes, negative_public_suffixes) :=
    get_public_suffixes text in
  p ← suffixes positive_public_suffixes;
  n ← suffixes negative_public_suffixes;
  Some (p, n).

(** ** The generated resolver: [get_domain] *)

(** A run of a piece of the Swift function: the assertion in [Rule.subrule]
    failed, the function returned, or control falls through to the next
    statement with a new state. *)
Inductive Exec (A : Type) : Type :=
  | Trap : Exec A
  | Return (r : option string) : Exec A
  | Next (a : A) : Exec A.
Arguments Trap {A}.
Arguments Return {A} r.
Arguments Next {A} a.

#[global] Instance Exec_bind : MBind Exec := λ A B k e,
  match e with
  | Trap => Trap
  | Return r => Return r
  | Next a => k a
  end.

(** [for x in xs { body }] over a loop state. *)
Fixpoint for_each {A S : Type} (body : S → A → Exec S) (xs : list A) (s : S)
  : Exec S :=
  match xs with
  | [] => Next s
  | x :: xs' => s' ← body s x; for_each body xs' s'
  end.

(** The computed property [Rule.subrule]. *)
Definition Rule_subrule (r : Rule) : Exec (gmap string Rule) :=
  match r with
  | subrule value => Next value
  | accept_this => Trap
  end.

(** The body of [for rule in accepted_rules], the same text in both phases;
    the loop state is [(longest, new_accepted_rules)]. *)
Definition scan_rule (label : string) (this_longest : list string)
    (st : list string * list Rule) (r : Rule) : Exec (list string * list Rule) :=
  d ← Rule_subrule r;
  let longest := if d !! accept_this_key is Some _ then this_longest else st.1 in
  let acc := st.2 ++ option_list (d !! wildcard) in
  let acc := acc ++ option_list (d !! label) in
  Next (longest, acc).

(** The loop state of a phase: [(longest, this_longest, accepted_rules)]. *)
Definition phase_state : Type := list string * list string * list Rule.

(** Body of the first [for label in labels] (negative rules). *)
Definition negative_step (st : phase_state) (label : string) : Exec phase_state :=
  let '(longest, this_longest, accepted_rules) := st in
  if bool_decide (String.length label = 0) then Return None
  else
    '(longest, new_accepted_rules) ←
      for_each (scan_rule label this_longest) accepted_rules (longest, []);
    Next (longest, this_longest ++ [label], new_accepted_rules).

(** Body of the second [for label in labels] (positive rules). *)
Definition positive_step (st : phase_state) (label : string) : Exec phase_state :=
  let '(longest, this_longest, accepted_rules) := st in
  let this_longest := this_longest ++ [label] in
  '(longest, new_accepted_rules) ←
    for_each (scan_rule label this_longest) accepted_rules (longest, []);
  Next (longest, this_longest, new_accepted_rules).

(** Body of the last loop, [for rule in accepted_rules]. *)
Definition tld_check (_ : unit) (r : Rule) : Exec unit :=
  d ← Rule_subrule r;
  if d !! accept_this_key is Some _ then Return None else Next tt.

Definition check_negative (n_suffixes : gmap string Rule) (labels : list string)
  : Exec phase_state :=
  for_each negative_step labels ([], [], [subrule n_suffixes]).

Definition check_positive (p_suffixes : gmap string Rule) (labels : list string)
  : Exec phase_state :=
  for_each positive_step labels ([], [], [subrule p_suffixes]).

Definition reversed_joined (longest : list string) : string :=
  Str.joined "." (reverse longest).

Definition get_domain (p_suffixes n_suffixes : gmap string Rule)
    (hostname : string) : Exec Empty_set :=
  let labels := reverse (Str.split_on "." hostname) in
  '(longest, _, _) ← check_negative n_suffixes labels;
  if negb (bool_decide (length longest = 0)) then
    Return (Some (reversed_joined longest))
  else
    '(longest, _, accepted_rules) ← check_positive p_suffixes labels;
    _ ← for_each tld_check accepted_rules tt;
    if negb (bool_decide (length longest = 0)) then
      Return (Some (reversed_joined longest))
    else
      match labels with
      | l0 :: l1 :: _ => Return (Some (l1 +:+ "." +:+ l0))
      | _ => Return None                             (* labels.count < 2 *)
      end.

(** The resolver of the file generated from a rule list. *)
Definition resolve (text hostname : string) : option (Exec Empty_set) :=
  '(p, n) ← main_tries text;
  Some (get_domain p n hostname).

(** ** Notions used to state the properties *)

(** A node with a terminal-sentinel child: [rule.subrule[accept_this] != nil]. *)
Definition terminal (r : Rule) : bool :=
  match r with
  | subrule d => bool_decide (is_Some (d !! accept_this_key))
  | accept_this => false
  end.

Definition is_subrule (r : Rule) : Prop :=
  match r with subrule _ => True | accept_this => False end.

#[global] Instance is_subrule_dec r : Decision (is_subrule r).
Proof. destruct r; [right; intros []|left; exact I]. Defined.

(** What one node contributes to [new_accepted_rules] for a label. *)
Definition children (label : string) (r : Rule) : list Rule :=
  match r with
  | subrule d => option_list (d !! wildcard) ++ option_list (d !! label)
  | accept_this => []
  end.

(** The matched-so-far set after one more label, and after a list of labels. *)
Definition advance (label : string) (accepted : list Rule) : list Rule :=
  accepted ≫= children label.

Definition walk (labels : list string) (accepted : list Rule) : list Rule :=
  foldl (λ acc l, advance l acc) accepted labels.

(** The matched-so-far set of a trie after the first [i] labels. *)
Definition matched (d : gmap string Rule) (labels : list string) (i : nat)
  : list Rule :=
  walk (take i labels) [subrule d].

(** The statements of [get_domain] after the first loop and its test: the
    second loop, the last loop, and the two final returns. *)
Definition finish (labels : list string) (st : phase_state) : Exec Empty_set :=
  let '(longest, _, accepted_rules) := st in
  _ ← for_each tld_check accepted_rules tt;
  if negb (bool_decide (length longest = 0)) then
    Return (Some (reversed_joined longest))
  else
    match labels with
    | l0 :: l1 :: _ => Return (Some (l1 +:+ "." +:+ l0))
    | _ => Return None
    end.

Definition positive_part (p_suffixes : gmap string Rule) (labels : list string)
  : Exec Empty_set :=
  st ← check_positive p_suffixes labels; finish labels st.

(** The dictionary [{'!': True}], printed as [_accept_this_dict]. *)
Definition accept_dict : Rule := subrule {[accept_this_key := accept_this]}.

(** The root entries that the pruning pass keeps. *)
Definition kept (v : Rule) : Prop := is_accept_dict v = false.

(** The node reached from the root by following a list of keys. *)
Fixpoint node_at (keys : list string) (d : gmap string Rule) : option Rule :=
  match keys with
  | [] => Some (subrule d)
  | k :: ks =>
      match d !! k with
      | Some (subrule d') => node_at ks d'
      | Some accept_this => if ks is [] then Some accept_this else None
      | None => None
      end
  end.

(** A complete rule ends at the node reached by [keys]. *)
Definition terminal_at (keys : list string) (d : gmap string Rule) : Prop :=
  ∃ d', node_at keys d = Some (subrule d') ∧ is_Some (d' !! accept_this_key).

(** [Rule.accept_this] is stored under the key ["!"] only, at every depth. *)
Inductive sentinel_ok : gmap string Rule → Prop :=
  | sentinel_ok_intro d :
      (∀ k, d !! k = Some accept_this → k = accept_this_key) →
      (∀ k d', d !! k = Some (subrule d') → sentinel_ok d') →
      sentinel_ok d.

Definition good (r : Rule) : Prop := ∃ d, r = subrule d ∧ sentinel_ok d.

(** A key matches a label when it is the wildcard or the label itself. *)
Definition key_matches (k label : string) : Prop := k = wildcard ∨ k = label.

#[global] Instance key_matches_dec k label : Decision (key_matches k label).
Proof. unfold key_matches. apply _. Defined.

(** A rule matches a list of labels given TLD first: label by label, from
    the last label of the rule on, a wildcard matching any label. *)
Definition rule_matches (r : rule) (labels : list string) : Prop :=
  Forall2 key_matches (reverse r) labels.

#[global] Instance rule_matches_dec r labels : Decision (rule_matches r labels).
Proof. unfold rule_matches. apply _. Defined.

(** No exception rule matches a proper suffix of the hostname. *)
Definition no_exception_rule (negative : list rule) (labels : list string)
  : Prop :=
  ∀ e i, e ∈ negative → i < length labels → ¬ rule_matches e (take i labels).

(** No positive rule matches the whole hostname. *)
Definition no_suffix_rule (positive : list rule) (labels : list string) : Prop :=
  ∀ q, q ∈ positive → ¬ rule_matches q labels.

(** A rule in the data model of the specification: at least one label,
    none of them the reserved terminal sentinel. *)
Definition plain_rule (r : rule) : Prop := r ≠ [] ∧ accept_this_key ∉ r.

#[global] Instance plain_rule_dec r : Decision (plain_rule r).
Proof. unfold plain_rule. apply _. Defined.

(** The exception phase hands over to the positive phase: whenever the
    first loop runs to its end, [longest] is still empty. *)
Definition no_exception (n_suffixes : gmap string Rule) (labels : list string)
  : Prop :=
  ∀ st, check_negative n_suffixes labels = Next st → st.1.1 = [].

(** The lookup at the root after pruning, from the lookup before. *)
Definition pruned (o : option Rule) : option Rule :=
  match o with
  | Some v => if is_accept_dict v then None else Some v
  | None => None
  end.

(** The exception phase as the specification words it: the scan stops at
    the first label before which the matched-so-far set holds a terminal
    node, and the labels consumed until then are the match. *)
Fixpoint first_exception_match (labels this_longest : list string)
    (accepted : list Rule) : list string :=
  match labels with
  | [] => []
  | l :: ls =>
      if existsb terminal accepted then this_longest
      else first_exception_match ls (this_longest ++ [l]) (advance l accepted)
  end.



Definition dotless (s : string) : Prop :=
  Str.all_chars (λ c, negb (Ascii.eqb c ".")) s = true.

Definition nl : string := String Str.LF EmptyString.

(** The rule list of the scenarios of the specification. *)
Definition spec_text : string :=
  "com" +:+ nl +:+ "co.uk" +:+ nl +:+ "*.ck" +:+ nl +:+ "!www.ck" +:+ nl.

Definition spec_positive : list rule := [["com"]; ["co"; "uk"]; ["*"; "ck"]].
Definition spec_negative : list rule := [["www"; "ck"]].

Definition spec_p : gmap string Rule :=
  filter_top_rules (default ∅ (rules_to_tree spec_positive)).
Definition spec_n : gmap string Rule :=
  filter_top_rules (default ∅ (rules_to_tree spec_negative)).

(** ** The freshness of the rule list: [need_to_redownload_psl],
    [redownload_psl], and the flow of [main]

    A file opened in binary mode is the [string] of its bytes; a file that
    cannot be opened is [None].  Timestamps are Python integers. *)

Module Bytes.

(** [f.read(n)] at the start of the data, and what is left after it. *)
Fixpoint take (n : nat) (s : string) : string :=
  match n, s with
  | S n', String c s' => String c (take n' s')
  | _, _ => EmptyString
  end.

Fixpoint drop (n : nat) (s : string) : string :=
  match n, s with
  | S n', String _ s' => drop n' s'
  | _, _ => s
  end.

(** [s.find(c)] for one byte: [None] stands for [-1]. *)
Fixpoint find (c : ascii) (s : string) : option nat :=
  match s with
  | EmptyString => None
  | String a s' => if Ascii.eqb a c then Some 0 else S <$> find c s'
  end.

Definition is_digit (c : ascii) : bool :=
  let n := nat_of_ascii c in (48 <=? n)%nat && (n <=? 57)%nat.

(** [s.isdigit()]: every byte is an ASCII digit and there is at least one. *)
Definition isdigit (s : string) : bool :=
  negb (String.eqb s EmptyString) && Str.all_chars is_digit s.

Definition digit_value (c : ascii) : N := N.of_nat (nat_of_ascii c - 48).

Fixpoint int_go (acc : N) (s : string) : N :=
  match s with
  | EmptyString => acc
  | String c s' => int_go (acc * 10 + digit_value c) s'
  end.

(** [int(s)] on a string of digits. *)
Definition int (s : string) : N := int_go 0 s.

End Bytes.

Definition REDOWNLOAD_INTERVAL : Z := 12 * 60 * 60.

Definition need_to_redownload_psl (psl_file : option string)
    (current_timestamp : Z) : bool :=
  match psl_file with
  | None => true                                        (* except OSError *)
  | Some f =>
      if negb (String.eqb (Bytes.take 3 f) "// ") then true
      else
        let timestamp := Bytes.take 20 (Bytes.drop 3 f) in
        match Bytes.find Str.LF timestamp with
        | None => true
        | Some timestamp_end =>
            let timestamp := Bytes.take timestamp_end timestamp in
            if negb (Bytes.isdigit timestamp) then true
            else
              let timestamp := Z.of_N (Bytes.int timestamp) in
              (current_timestamp + 60 * 60 <? timestamp)%Z
              || (REDOWNLOAD_INTERVAL <? current_timestamp - timestamp)%Z
        end
  end.

(** The first line that [redownload_psl] writes. *)
Definition psl_header (current_timestamp : Z) : string :=
  "// " +:+ pretty current_timestamp +:+ nl.

(** The loop of [redownload_psl] over the results of the successive calls
    [r.read(10 * 1024)]: it stops at the first empty chunk (the end of the
    list stands for the end of the response too). *)
Fixpoint copy_chunks (reads : list string) : string :=
  match reads with
  | [] => EmptyString
  | chunk :: rest =>
      if String.eqb chunk EmptyString then EmptyString
      else chunk +:+ copy_chunks rest
  end.

(** The content of the file after [redownload_psl]. *)
Definition redownload_psl (reads : list string) (current_timestamp : Z) : string :=
  psl_header current_timestamp +:+ copy_chunks reads.

(** What a run of [main] leaves: it exits with status 1 before reading
    anything, or it reads the list (the content of the file is recorded)
    and regenerates the Swift file from the two tries; [None] for the tries
    when the builder raises. *)
Inductive main_result : Type :=
  | Exit1
  | Regenerated (psl : string)
      (tries : option (gmap string Rule * gmap string Rule)).

(** [main] from the content of the list file, the existence of the Swift
    file, the response of the server and the clock. *)
Definition main (psl_file : option string) (swift_file_exists : bool)
    (reads : list string) (current_timestamp : Z) : main_result :=
  if need_to_redownload_psl psl_file current_timestamp then
    let psl := redownload_psl reads current_timestamp in
    Regenerated psl (main_tries psl)
  else if swift_file_exists then Exit1
  else
    let psl := default EmptyString psl_file in
    Regenerated psl (main_tries psl).

(** ** The names of the generated constants: [get_name] *)

Definition get_name (prefix s : string) (cache : gmap string string)
  : string * gmap string string :=
  match cache !! s with
  | Some name => (name, cache)
  | None =>
      let name := "__AUTOGEN_" +:+ prefix +:+ "_" +:+ pretty (size cache) in
      (name, <[s := name]> cache)
  end.

(** The caches that [make_swift_dict] can hold: the empty one, and what
    [get_name] makes of one of them. *)
Inductive cache_of (prefix : string) : gmap string string → Prop :=
  | cache_of_empty : cache_of prefix ∅
  | cache_of_get_name s cache :
      cache_of prefix cache → cache_of prefix (get_name prefix s cache).2.

(** ** The emitter: [to_swift_string], [make_swift_dict] *)

(** The values of the tree that [rules_to_tree] builds, with the order of
    the keys that an [OrderedDict] keeps: [True], or a dictionary given by
    its items in insertion order. *)
Inductive PyValue : Type :=
  | PyTrue
  | PyDict (items : list (string * PyValue)).

(** The double quote. *)
Definition DQ : ascii := ascii_of_nat 34.

Definition CONSTANT_NAMES (s : string) : option string :=
  if String.eqb s "!" then Some "accept_this"
  else if String.eqb s "*" then Some "wildcard"
  else None.

(** The constant of [_CONSTANT_NAMES] when there is one, and otherwise the
    key between double quotes, as it is: nothing is escaped. *)
Definition to_swift_string (s : string) : string :=
  match CONSTANT_NAMES s with
  | Some c => c
  | None => String DQ (s +:+ String DQ EmptyString)
  end.

(** [v == {'!': True}]. *)
Definition is_accept_this_dict (v : PyValue) : bool :=
  match v with
  | PyDict [(k, PyTrue)] => String.eqb k "!"
  | _ => false
  end.

(** [isinstance(v, dict)]. *)
Definition is_dict (v : PyValue) : bool :=
  match v with PyDict _ => true | PyTrue => false end.

(** The state that [make_swift_dict] threads: the strings handed to
    [callback] so far, in order, and [_cache]. *)
Definition emit_state : Type := list string * gmap string string.

(** [callback] is [f.write]. *)
Definition callback (st : emit_state) (s : string) : emit_state :=
  (st.1 ++ [s], st.2).

(** The body of the first loop: a child that is a dictionary other than
    [{'!': True}] is named and written out first. *)
Definition first_loop_step (rec : string → PyValue → emit_state → emit_state)
    (name prefix : string) (st : emit_state) (kv : string * PyValue) : emit_state :=
  if is_dict kv.2 && negb (is_accept_this_dict kv.2) then
    let r := get_name prefix (name +:+ kv.1) st.2 in
    rec r.1 kv.2 (st.1, r.2)
  else st.

(** The name printed for a child in the second loop.  The last branch of
    the source raises [RuntimeError] on a value that is neither a dictionary
    nor [True]; [PyValue] has no such value. *)
Definition sub_name_of (name prefix k : string) (v : PyValue)
    (cache : gmap string string) : string * gmap string string :=
  match v with
  | PyDict _ =>
      if is_accept_this_dict v then ("_accept_this_dict", cache)
      else get_name prefix (name +:+ k) cache
  | PyTrue => ("Rule.accept_this", cache)
  end.

(** The body of the second loop; the flag is [first]. *)
Definition second_loop_step (name prefix : string)
    (acc : emit_state * bool) (kv : string * PyValue) : emit_state * bool :=
  let r := sub_name_of name prefix kv.1 kv.2 acc.1.2 in
  let st := callback (acc.1.1, r.2)
              (if acc.2 then nl +:+ "    " else "," +:+ nl +:+ "    ") in
  (callback st (to_swift_string kv.1 +:+ ": " +:+ r.1), false).

(** [make_swift_dict(name, d, callback, _cache=_cache, __prefix=__prefix)].
    The function is only ever called on a dictionary. *)
Fixpoint make_swift_dict (name : string) (v : PyValue) (prefix : string)
    (st : emit_state) {struct v} : emit_state :=
  match v with
  | PyTrue => st
  | PyDict d =>
      let st :=
        foldl (first_loop_step (λ sub v' st', make_swift_dict sub v' prefix st')
                 name prefix) st d in
      let st := callback st ("fileprivate let " +:+ name +:+ " = Rule.subrule([") in
      let st := (foldl (second_loop_step name prefix) (st, true) d).1 in
      callback st (nl +:+ "])" +:+ nl)
  end.

(** The call [make_swift_dict(name, d, f.write)] of [main]: a new cache,
    and the name as the prefix.  [written] is what the file holds before. *)
Definition make_swift_dict_top (name : string) (d : list (string * PyValue))
    (written : list string) : list string :=
  (make_swift_dict name (PyDict d) name (written, ∅)).1.

(** The four statements of [main] that print the two tries. *)
Definition write_tries (p_tree n_tree : list (string * PyValue)) : list string :=
  let written := make_swift_dict_top "p_suffixes" p_tree [] in
  let written := written ++ [nl +:+ nl] in
  let written := make_swift_dict_top "n_suffixes" n_tree written in
  written ++ [nl +:+ nl].

(** ** The tree with the order of its keys

    [rules_to_tree] returns an [OrderedDict] of [OrderedDict]s, and
    [make_swift_dict] prints the keys in their insertion order.  The
    builder and the pruning pass once more, on the items of the
    dictionaries in that order; [erase_rules_to_tree] and [erase_suffixes]
    below show that [rules_to_tree] and [suffixes] above are these with the
    order forgotten. *)
Module Ordered.

(** [d.get(k)] on the items of a dictionary. *)
Fixpoint dict_get (k : string) (items : list (string * PyValue)) : option PyValue :=
  match items with
  | [] => None
  | kv :: rest => if String.eqb kv.1 k then Some kv.2 else dict_get k rest
  end.

(** [d[k] = v]: in place when the key is there, at the end when it is new. *)
Fixpoint dict_set (k : string) (v : PyValue) (items : list (string * PyValue))
  : list (string * PyValue) :=
  match items with
  | [] => [(k, v)]
  | kv :: rest =>
      if String.eqb kv.1 k then (kv.1, v) :: rest else kv :: dict_set k v rest
  end.

(** The inner loop of [rules_to_tree] and [rule_tree['!'] = True]:
    [setdefault] leaves a key that is there in its place and puts a new key
    at the end. *)
Fixpoint insert_rule (labels : list string) (tree : list (string * PyValue))
  : option (list (string * PyValue)) :=
  match labels with
  | [] => Some (dict_set accept_this_key PyTrue tree)
  | l :: ls =>
      match dict_get l tree with
      | None => sub ← insert_rule ls []; Some (dict_set l (PyDict sub) tree)
      | Some (PyDict d) => sub ← insert_rule ls d; Some (dict_set l (PyDict sub) tree)
      | Some PyTrue => None
      end
  end.

Fixpoint insert_rules (rules : list rule) (tree : list (string * PyValue))
  : option (list (string * PyValue)) :=
  match rules with
  | [] => Some tree
  | r :: rs => tree' ← insert_rule (reverse r) tree; insert_rules rs tree'
  end.

Definition rules_to_tree (rules : list rule) : option (list (string * PyValue)) :=
  insert_rules rules [].

(** The dictionary comprehension keeps the order of the items it keeps. *)
Definition filter_top_rules (d : list (string * PyValue)) : list (string * PyValue) :=
  filter (λ kv, is_accept_this_dict kv.2 = false) d.

Definition suffixes (rules : list rule) : option (list (string * PyValue)) :=
  filter_top_rules <$> rules_to_tree rules.

End Ordered.

(** ** More notions for the properties *)

(** The text with every line feed written as carriage return, line feed. *)
Fixpoint to_crlf (s : string) : string :=
  match s with
  | EmptyString => EmptyString
  | String c s' =>
      if Ascii.eqb c Str.LF then String Str.CR (String Str.LF (to_crlf s'))
      else String c (to_crlf s')
  end.

(** The dictionary that [setdefault] hands to the next step of the builder
    for a label: the one stored, a new empty one, or none when [True] is
    stored there. *)
Definition child (tree : gmap string Rule) (l : string)
  : option (gmap string Rule) :=
  match tree !! l with
  | None => Some ∅
  | Some (subrule d) => Some d
  | Some accept_this => None
  end.

(** A string that does not start, or does not end, with a character. *)
Definition no_start (c : ascii) (s : string) : Prop :=
  match s with
  | String a _ => Ascii.eqb a c = false
  | EmptyString => True
  end.

Fixpoint no_end (c : ascii) (s : string) : Prop :=
  match s with
  | EmptyString => True
  | String a EmptyString => Ascii.eqb a c = false
  | String _ s' => no_end c s'
  end.

(** Forgetting the order of the keys: the [Rule] that a value stands for. *)
Fixpoint erase_value (v : PyValue) : Rule :=
  match v with
  | PyTrue => accept_this
  | PyDict items =>
      subrule (foldr (λ kv m, <[kv.1 := erase_value kv.2]> m) ∅ items)
  end.

Definition erase (items : list (string * PyValue)) : gmap string Rule :=
  foldr (λ kv m, <[kv.1 := erase_value kv.2]> m) ∅ items.

(** The items of a dictionary have distinct keys, at every depth. *)
Inductive keys_distinct : PyValue → Prop :=
  | keys_distinct_true : keys_distinct PyTrue
  | keys_distinct_dict items :
      NoDup items.*1 → Forall (λ kv, keys_distinct kv.2) items →
      keys_distinct (PyDict items).

(** The bytes that do not end a line. *)
Definition line_char (c : ascii) : bool :=
  negb (Ascii.eqb c Str.LF) && negb (Ascii.eqb c Str.CR).

(** In a tree built from rules without a sentinel label, the key ["!"] is
    never bound to a dictionary. *)
Inductive bang_ok : gmap string Rule → Prop :=
  | bang_ok_intro d :
      (∀ d', d !! accept_this_key ≠ Some (subrule d')) →
      (∀ k d', d !! k = Some (subrule d') → bang_ok d') →
      bang_ok d.

(** The last [k] labels of a hostname, dotted. *)
Definition last_labels (k : nat) (hostname : string) : string :=
  let cs := Str.split_on "." hostname in
  Str.joined "." (drop (length cs - k) cs).

(** ** Notions for the emitter *)

(** The [i]-th name that [get_name] makes up. *)
Definition autogen (prefix : string) (i : nat) : string :=
  "__AUTOGEN_" +:+ prefix +:+ "_" +:+ pretty i.

(** The string that opens the declaration of a constant. *)
Definition decl_header (name : string) : string :=
  "fileprivate let " +:+ name +:+ " = Rule.subrule([".

Definition is_decl (w : string) : Prop :=
  String.prefix "fileprivate let " w = true.

(** The declarations among the strings written. *)
Definition declarations (written : list string) : list string :=
  filter is_decl written.

(** A key that does not start with a digit. *)
Definition good_key (k : string) : bool :=
  match k with
  | String c _ => negb (Bytes.is_digit c)
  | EmptyString => true
  end.

(** A name that does not start with an underscore (and is not empty). *)
Definition name_ok (name : string) : bool :=
  match name with
  | String c _ => negb (Ascii.eqb c "_")
  | EmptyString => false
  end.

(** The children that get a constant of their own. *)
Definition nonleaf (v : PyValue) : bool := is_dict v && negb (is_accept_this_dict v).

(** A tree below the root: the keys of a dictionary are distinct, and the
    key of a child that gets a constant of its own does not start with a
    digit. *)
Inductive tree_ok : PyValue → Prop :=
  | tree_ok_true : tree_ok PyTrue
  | tree_ok_dict items :
      NoDup items.*1 →
      Forall (λ kv, (nonleaf kv.2 = true → good_key kv.1 = true) ∧ tree_ok kv.2)
        items →
      tree_ok (PyDict items).

(** A root dictionary: distinct keys, of any form, over such trees. *)
Definition inner_keys_ok (d : list (string * PyValue)) : Prop :=
  NoDup d.*1 ∧ Forall (λ kv, tree_ok kv.2) d.

(** The invariants of [make_swift_dict].  [top] is the name of the outermost
    call.  A cache key is a name followed by a key of the dictionary of that
    name; names are [top] or made up, and the made-up names in use are those
    with an index below the size of the cache. *)
Definition below (top prefix : string) (m : nat) (n : string) : Prop :=
  n = top ∨ ∃ i, (i < m)%nat ∧ n = autogen prefix i.

Definition fresh_between (prefix : string) (m m' : nat) (n : string) : Prop :=
  ∃ i, (m ≤ i < m')%nat ∧ n = autogen prefix i.

Definition entry_ok (top prefix n k : string) : Prop :=
  n = top ∨ (∃ i, n = autogen prefix i) ∧ good_key k = true.

Record pre (top prefix name : string) (st : emit_state) : Prop := {
  pre_keys : ∀ key, is_Some (st.2 !! key) →
    ∃ n k, key = n +:+ k ∧ entry_ok top prefix n k ∧
           below top prefix (size st.2) n ∧ n ≠ name;
  pre_name : below top prefix (size st.2) name;
  pre_decl : ∀ n, decl_header n ∈ st.1 →
    n ≠ top ∧ n ≠ name ∧ ∀ i, n = autogen prefix i → (i < size st.2)%nat;
  pre_nodup : NoDup (declarations st.1)
}.

Record post (top prefix name : string) (st st' : emit_state) : Prop := {
  post_size : (size st.2 ≤ size st'.2)%nat;
  post_cache : st.2 ⊆ st'.2;
  post_keys : ∀ key, is_Some (st'.2 !! key) →
    is_Some (st.2 !! key) ∨
    ∃ n k, key = n +:+ k ∧ entry_ok top prefix n k ∧
           (n = name ∨ fresh_between prefix (size st.2) (size st'.2) n);
  post_decl : ∀ n, decl_header n ∈ st'.1 →
    decl_header n ∈ st.1 ∨ n = name ∨
    fresh_between prefix (size st.2) (size st'.2) n;
  post_nodup : NoDup (declarations st'.1);
  post_declared : decl_header name ∈ st'.1;
  post_written : ∀ w, w ∈ st.1 → w ∈ st'.1
}.

Record loop_inv (top prefix name : string) (st0 : emit_state)
    (processed : list (string * PyValue)) (st : emit_state) : Prop := {
  loop_size : (size st0.2 ≤ size st.2)%nat;
  loop_cache : st0.2 ⊆ st.2;
  loop_keys : ∀ key, is_Some (st.2 !! key) →
    is_Some (st0.2 !! key) ∨
    ∃ n k, key = n +:+ k ∧ entry_ok top prefix n k ∧
           ((n = name ∧ k ∈ processed.*1)
            ∨ fresh_between prefix (size st0.2) (size st.2) n);
  loop_decl : ∀ n, decl_header n ∈ st.1 →
    decl_header n ∈ st0.1 ∨ fresh_between prefix (size st0.2) (size st.2) n;
  loop_nodup : NoDup (declarations st.1);
  loop_hits : ∀ k v, (k, v) ∈ processed → nonleaf v = true →
    is_Some (st.2 !! (name +:+ k));
  loop_written : ∀ w, w ∈ st0.1 → w ∈ st.1
}.

Definition dict_spec (top prefix : string) (v : PyValue) : Prop :=
  ∀ name st d, v = PyDict d → NoDup d.*1 →
    (name = top ∨ Forall (λ kv, nonleaf kv.2 = true → good_key kv.1 = true) d) →
    Forall (λ kv, tree_ok kv.2) d →
    pre top prefix name st →
    post top prefix name st (make_swift_dict name v prefix st).

(** What [make_swift_dict] keeps whatever the tree: the cache and the
    output only grow, and a name enters the cache only to be declared. *)
Record declared_post (name : string) (st st' : emit_state) : Prop := {
  dp_cache : st.2 ⊆ st'.2;
  dp_written : ∀ w, w ∈ st.1 → w ∈ st'.1;
  dp_declared : decl_header name ∈ st'.1;
  dp_names : ∀ key nm, st'.2 !! key = Some nm →
    st.2 !! key = Some nm ∨ decl_header nm ∈ st'.1
}.

Record declared_loop (name : string) (st0 : emit_state)
    (processed : list (string * PyValue)) (st : emit_state) : Prop := {
  dl_cache : st0.2 ⊆ st.2;
  dl_written : ∀ w, w ∈ st0.1 → w ∈ st.1;
  dl_names : ∀ key nm, st.2 !! key = Some nm →
    st0.2 !! key = Some nm ∨ decl_header nm ∈ st.1;
  dl_hits : ∀ k v, (k, v) ∈ processed → nonleaf v = true →
    is_Some (st.2 !! (name +:+ k))
}.

(** Trees for the examples. *)
Definition leaf : PyValue := PyDict [("!", PyTrue)].

Definition spec_p_tree : list (string * PyValue) :=
  [("uk", PyDict [("co", leaf)]); ("ck", PyDict [("*", leaf)])].

Definition spec_n_tree : list (string * PyValue) :=
  [("ck", PyDict [("www", leaf)])].

Definition one (k : string) : PyValue := PyDict [(k, leaf)].

Definition colliding_tree : list (string * PyValue) :=
  [("t0", one "a");
   ("t1", PyDict [("0x", one "a")]);
   ("t3", one "a"); ("t4", one "a"); ("t5", one "a"); ("t6", one "a");
   ("t7", one "a"); ("t8", one "a"); ("t9", one "a");
   ("t10", PyDict [("x", one "b")])].

(** * Properties *)

(** Closed, decidable side conditions of the examples. *)
Ltac by_decide := apply (bool_decide_unpack _); vm_compute; exact I.

(** ** Loops *)

Lemma bind_Next {A B} (e : Exec A) (k : A → Exec B) b :
  e ≫= k = Next b → ∃ a, e = Next a ∧ k a = Next b.
Proof. destruct e; simpl; try discriminate. eauto. Qed.

Lemma terminal_subrule d :
  terminal (subrule d) = if d !! accept_this_key is Some _ then true else false.
Proof.
  simpl. destruct (d !! accept_this_key).
  - by apply bool_decide_eq_true_2.
  - apply bool_decide_eq_false_2, is_Some_None.
Qed.

Lemma scan_rules_Next label tl accepted lg acc :
  Forall is_subrule accepted →
  for_each (scan_rule label tl) accepted (lg, acc)
  = Next (if existsb terminal accepted then tl else lg, acc ++ advance label accepted).
Proof.
  intros H. revert lg acc. induction H as [|r rs Hr _ IH]; intros lg acc.
  - simpl. by rewrite app_nil_r.
  - destruct r as [|d]; [done|].
    cbn [for_each scan_rule Rule_subrule mbind Exec_bind fst snd].
    rewrite IH. cbn [existsb]. rewrite terminal_subrule.
    unfold advance. cbn [mbind list_bind children]. rewrite <- !app_assoc.
    destruct (d !! accept_this_key); cbn [orb]; [|done].
    by destruct (existsb terminal rs).
Qed.

Lemma scan_rules_Trap label tl accepted st :
  ¬ Forall is_subrule accepted →
  for_each (scan_rule label tl) accepted st = Trap.
Proof.
  revert st. induction accepted as [|r rs IH]; intros st H.
  - destruct H. constructor.
  - destruct r as [|d]; [done|].
    cbn [for_each scan_rule Rule_subrule mbind Exec_bind].
    apply IH. intros Hrs. apply H. by constructor.
Qed.

Lemma scan_rules_inv label tl accepted st st' :
  for_each (scan_rule label tl) accepted st = Next st' →
  Forall is_subrule accepted.
Proof.
  revert st. induction accepted as [|r rs IH]; intros st H; [constructor|].
  destruct r as [|d]; [done|].
  constructor; [done|]. cbn [for_each scan_rule Rule_subrule mbind Exec_bind] in H. eauto.
Qed.

Lemma walk_cons l ls acc : walk (l :: ls) acc = walk ls (advance l acc).
Proof. done. Qed.

Lemma walk_app ls1 ls2 acc : walk (ls1 ++ ls2) acc = walk ls2 (walk ls1 acc).
Proof. apply foldl_app. Qed.

Lemma tld_check_subrules accepted :
  Forall is_subrule accepted →
  for_each tld_check accepted tt
  = if existsb terminal accepted then Return None else Next tt.
Proof.
  induction 1 as [|r rs Hr _ IH]; [done|].
  destruct r as [|d]; [done|].
  cbn [for_each tld_check Rule_subrule mbind Exec_bind existsb].
  rewrite terminal_subrule. by destruct (d !! accept_this_key).
Qed.

Lemma negative_step_eq lg tl acc l :
  negative_step (lg, tl, acc) l =
  if bool_decide (String.length l = 0) then Return None
  else '(longest, new_accepted_rules) ←
         for_each (scan_rule l tl) acc (lg, []);
       Next (longest, tl ++ [l], new_accepted_rules).
Proof. done. Qed.

Lemma positive_step_eq lg tl acc l :
  positive_step (lg, tl, acc) l =
  '(longest, new_accepted_rules) ←
    for_each (scan_rule l (tl ++ [l])) acc (lg, []);
  Next (longest, tl ++ [l], new_accepted_rules).
Proof. done. Qed.

Lemma length_0_empty l : String.length l = 0 ↔ l = "".
Proof. by destruct l. Qed.

(** The first loop, whenever it runs to its end: every label was scanned,
    and [longest] is the accumulator at the last label before which the
    matched-so-far set held a terminal node. *)
Lemma negative_loop_Next labels lg tl acc lg' tl' acc' :
  for_each negative_step labels (lg, tl, acc) = Next (lg', tl', acc') →
  tl' = tl ++ labels ∧ acc' = walk labels acc ∧ ("" ∉ labels) ∧
  ((lg' = lg ∧
    ∀ i, i < length labels → existsb terminal (walk (take i labels) acc) = false)
   ∨ ∃ j, j < length labels ∧ lg' = tl ++ take j labels ∧
       existsb terminal (walk (take j labels) acc) = true ∧
       ∀ i, j < i < length labels →
            existsb terminal (walk (take i labels) acc) = false).
Proof.
  revert lg tl acc. induction labels as [|l ls IH]; intros lg tl acc H.
  - simplify_eq/=. rewrite app_nil_r. repeat split; [apply not_elem_of_nil|].
    left. split; [done|]. intros i Hi. lia.
  - cbn [for_each] in H. rewrite negative_step_eq in H.
    case_bool_decide as Hl; [done|]. rewrite length_0_empty in Hl.
    destruct (for_each (scan_rule l tl) acc (lg, [])) as [| |[lg1 acc1]] eqn:Hscan;
      try done.
    rewrite (scan_rules_Next l tl acc lg []) in Hscan
      by (eapply scan_rules_inv; exact Hscan).
    simplify_eq/=.
    apply IH in H as (-> & -> & Hne & Hlg).
    rewrite <- app_assoc. repeat split; [|].
    { intros [<-|?]%elem_of_cons; [by apply Hl|done]. }
    destruct Hlg as [[-> Hno]|(j & Hj & -> & Hterm & Hno)].
    + destruct (existsb terminal acc) eqn:Hacc.
      * right. exists 0. simpl. rewrite app_nil_r. repeat split; [lia|done|].
        intros [|i] [? ?]; [lia|]. simpl. apply Hno. lia.
      * left. split; [done|]. intros [|i] Hi; [done|]. simpl. apply Hno. lia.
    + right. exists (S j). simpl. rewrite <- app_assoc.
      repeat split; [lia|done|].
      intros [|i] [? ?]; [lia|]. simpl. apply Hno. lia.
Qed.

(** The second loop: [longest] is the accumulator just after the last label
    before which the matched-so-far set held a terminal node. *)
Lemma positive_loop_Next labels lg tl acc lg' tl' acc' :
  for_each positive_step labels (lg, tl, acc) = Next (lg', tl', acc') →
  tl' = tl ++ labels ∧ acc' = walk labels acc ∧
  ((lg' = lg ∧
    ∀ i, i < length labels → existsb terminal (walk (take i labels) acc) = false)
   ∨ ∃ j, j < length labels ∧ lg' = tl ++ take (S j) labels ∧
       existsb terminal (walk (take j labels) acc) = true ∧
       ∀ i, j < i < length labels →
            existsb terminal (walk (take i labels) acc) = false).
Proof.
  revert lg tl acc. induction labels as [|l ls IH]; intros lg tl acc H.
  - simplify_eq/=. rewrite app_nil_r. repeat split.
    left. split; [done|]. intros i Hi. lia.
  - cbn [for_each] in H. rewrite positive_step_eq in H.
    destruct (for_each (scan_rule l (tl ++ [l])) acc (lg, [])) as [| |[lg1 acc1]] eqn:Hscan;
      try done.
    rewrite (scan_rules_Next l (tl ++ [l]) acc lg []) in Hscan
      by (eapply scan_rules_inv; exact Hscan).
    simplify_eq/=.
    apply IH in H as (-> & -> & Hlg).
    rewrite <- app_assoc. repeat split; [].
    destruct Hlg as [[-> Hno]|(j & Hj & -> & Hterm & Hno)].
    + destruct (existsb terminal acc) eqn:Hacc.
      * right. exists 0. simpl. repeat split; [lia|done|].
        intros [|i] [? ?]; [lia|]. simpl. apply Hno. lia.
      * left. split; [done|]. intros [|i] Hi; [done|]. simpl. apply Hno. lia.
    + right. exists (S j). simpl. rewrite <- app_assoc.
      repeat split; [lia|done|].
      intros [|i] [? ?]; [lia|]. simpl. apply Hno. lia.
Qed.

(** The loops return from the function with [nil] only. *)
Lemma scan_rules_not_Return label tl accepted st r :
  for_each (scan_rule label tl) accepted st ≠ Return r.
Proof.
  destruct st as [lg acc].
  destruct (decide (Forall is_subrule accepted)) as [H|H].
  - by rewrite scan_rules_Next.
  - by rewrite scan_rules_Trap.
Qed.

Lemma negative_loop_Return labels st r :
  for_each negative_step labels st = Return r → r = None.
Proof.
  revert st. induction labels as [|l ls IH]; intros [[lg tl] acc] H; [done|].
  cbn [for_each] in H. rewrite negative_step_eq in H.
  case_bool_decide; [by injection H|].
  destruct (for_each (scan_rule l tl) acc (lg, [])) as [| |[lg1 acc1]] eqn:Hscan;
    [done|by apply scan_rules_not_Return in Hscan|].
  cbn [mbind Exec_bind] in H. eauto.
Qed.

Lemma positive_loop_Return labels st r :
  for_each positive_step labels st ≠ Return r.
Proof.
  revert st. induction labels as [|l ls IH]; intros [[lg tl] acc] H; [done|].
  cbn [for_each] in H. rewrite positive_step_eq in H.
  destruct (for_each (scan_rule l (tl ++ [l])) acc (lg, [])) as [| |[lg1 acc1]] eqn:Hscan;
    [done|by apply scan_rules_not_Return in Hscan|].
  cbn [mbind Exec_bind] in H. by eapply IH.
Qed.

Lemma tld_check_Return accepted r :
  for_each tld_check accepted tt = Return r → r = None.
Proof.
  induction accepted as [|v vs IH]; [done|]. destruct v as [|d]; [done|].
  cbn [for_each tld_check Rule_subrule mbind Exec_bind].
  destruct (d !! accept_this_key); [by intros [= <-]|]. done.
Qed.

(** ** Tries in which [accept_this] sits under the sentinel key only *)

Lemma good_is_subrule r : good r → is_subrule r.
Proof. by intros (d & -> & _). Qed.

Lemma Forall_good_subrule acc : Forall good acc → Forall is_subrule acc.
Proof. intros H. eapply Forall_impl; [exact H|]. apply good_is_subrule. Qed.

Lemma sentinel_ok_lookup d k v :
  sentinel_ok d → d !! k = Some v → k ≠ accept_this_key → good v.
Proof.
  intros [d0 Ha Hs] Hk Hne. destruct v as [|d'].
  - by apply Ha in Hk.
  - exists d'. eauto.
Qed.

Lemma children_good l r :
  good r → l ≠ accept_this_key → Forall good (children l r).
Proof.
  intros (d & -> & Hd) Hl. simpl. apply Forall_app. split.
  - destruct (d !! wildcard) as [v|] eqn:E; simpl; [|constructor].
    constructor; [|constructor]. by eapply sentinel_ok_lookup.
  - destruct (d !! l) as [v|] eqn:E; simpl; [|constructor].
    constructor; [|constructor]. by eapply sentinel_ok_lookup.
Qed.

Lemma advance_good l acc :
  Forall good acc → l ≠ accept_this_key → Forall good (advance l acc).
Proof.
  intros H Hl. induction H as [|r rs Hr _ IH]; [constructor|].
  unfold advance. cbn [mbind list_bind]. apply Forall_app. split; [|done].
  by apply children_good.
Qed.

Lemma walk_good ls acc :
  Forall good acc → accept_this_key ∉ ls → Forall good (walk ls acc).
Proof.
  revert acc. induction ls as [|l ls IH]; intros acc H Hls; [done|].
  rewrite walk_cons. apply not_elem_of_cons in Hls as [? ?].
  apply IH; [|done]. by apply advance_good.
Qed.

Lemma negative_loop_total labels lg tl acc :
  Forall good acc → accept_this_key ∉ labels →
  (("" ∈ labels) ∧ for_each negative_step labels (lg, tl, acc) = Return None)
  ∨ (("" ∉ labels) ∧ ∃ st', for_each negative_step labels (lg, tl, acc) = Next st').
Proof.
  revert lg tl acc. induction labels as [|l ls IH]; intros lg tl acc Hacc Hls.
  - right. split; [apply not_elem_of_nil|]. by eexists.
  - apply not_elem_of_cons in Hls as [Hl Hls].
    cbn [for_each]. rewrite negative_step_eq.
    case_bool_decide as Hlen; rewrite length_0_empty in Hlen.
    { left. split; [|done]. subst l. left. }
    rewrite scan_rules_Next by by apply Forall_good_subrule.
    cbn [mbind Exec_bind].
    edestruct (IH (if existsb terminal acc then tl else lg) (tl ++ [l])
                 ([] ++ advance l acc)) as [[? ->]|[? [st' ->]]];
      [by apply advance_good|done| |].
    + left. split; [by right|done].
    + right. split; [|by eexists].
      intros [<-|?]%elem_of_cons; [by apply Hlen|done].
Qed.

Lemma positive_loop_total labels lg tl acc :
  Forall good acc → accept_this_key ∉ labels →
  ∃ st', for_each positive_step labels (lg, tl, acc) = Next st'.
Proof.
  revert lg tl acc. induction labels as [|l ls IH]; intros lg tl acc Hacc Hls.
  - by eexists.
  - apply not_elem_of_cons in Hls as [Hl Hls].
    cbn [for_each]. rewrite positive_step_eq.
    rewrite scan_rules_Next by by apply Forall_good_subrule.
    cbn [mbind Exec_bind]. apply IH; [|done]. by apply advance_good.
Qed.

(** ** The builder and the pruning pass *)

Lemma is_accept_dict_spec v :
  is_accept_dict v = true ↔ v = subrule {[accept_this_key := accept_this]}.
Proof.
  split.
  - destruct v as [|d]; [done|]. simpl.
    intros [Hsz Hl]%andb_prop. apply bool_decide_eq_true in Hsz.
    destruct (d !! accept_this_key) as [[|?]|] eqn:E; try done.
    f_equal. rewrite <- (insert_id d _ _ E), <- insert_delete_eq.
    rewrite <- (insert_id d _ _ E), <- insert_delete_eq in Hsz.
    rewrite map_size_insert_None in Hsz by apply lookup_delete_eq.
    assert (delete accept_this_key d = ∅) as ->
      by (apply map_size_empty_iff; lia).
    apply insert_empty.
  - intros ->. simpl. rewrite map_size_singleton, lookup_singleton_eq.
    by rewrite bool_decide_eq_true_2.
Qed.

Lemma filter_top_rules_lookup d k : filter_top_rules d !! k = pruned (d !! k).
Proof.
  unfold filter_top_rules. rewrite map_lookup_filter.
  destruct (d !! k) as [v|]; [|done]. simpl.
  destruct (is_accept_dict v); case_guard; simpl; congruence.
Qed.

Lemma sentinel_ok_empty : sentinel_ok ∅.
Proof. constructor; intros k; by rewrite lookup_empty. Qed.

Lemma sentinel_ok_insert l sub t :
  sentinel_ok t → sentinel_ok sub → sentinel_ok (<[l := subrule sub]> t).
Proof.
  intros [t0 Ha Hs] Hsub. constructor; intros k.
  - rewrite lookup_insert. case_decide; [done|]. apply Ha.
  - intros d'. rewrite lookup_insert. case_decide; [|apply Hs].
    by intros [= <-].
Qed.

Lemma insert_rule_sentinel_ok ks t t' :
  sentinel_ok t → insert_rule ks t = Some t' → sentinel_ok t'.
Proof.
  revert t t'. induction ks as [|l ls IH]; intros t t' Ht H.
  - simplify_eq/=. destruct Ht as [t Ha Hs]. constructor; intros k.
    + rewrite lookup_insert. case_decide; [done|]. apply Ha.
    + intros d'. rewrite lookup_insert. case_decide; [done|]. apply Hs.
  - simpl in H. destruct (t !! l) as [[|d]|] eqn:E; [done| |].
    + destruct (insert_rule ls d) as [sub|] eqn:E2; simplify_eq/=.
      apply sentinel_ok_insert; [done|]. eapply IH; [|done].
      destruct Ht as [t Ha Hs]. eauto.
    + destruct (insert_rule ls ∅) as [sub|] eqn:E2; simplify_eq/=.
      apply sentinel_ok_insert; [done|]. eapply IH; [|done].
      apply sentinel_ok_empty.
Qed.

Lemma insert_rules_sentinel_ok rules t t' :
  sentinel_ok t → insert_rules rules t = Some t' → sentinel_ok t'.
Proof.
  revert t. induction rules as [|r rs IH]; intros t Ht H; simplify_eq/=; [done|].
  destruct (insert_rule (reverse r) t) as [t1|] eqn:E; simplify_eq/=.
  eapply IH; [|done]. by eapply insert_rule_sentinel_ok.
Qed.

Lemma rules_to_tree_sentinel_ok rules t :
  rules_to_tree rules = Some t → sentinel_ok t.
Proof. apply insert_rules_sentinel_ok, sentinel_ok_empty. Qed.

Lemma filter_top_rules_sentinel_ok t :
  sentinel_ok t → sentinel_ok (filter_top_rules t).
Proof.
  intros [t0 Ha Hs]. constructor; intros k.
  - rewrite filter_top_rules_lookup. destruct (t0 !! k) as [v|] eqn:E; [|done].
    simpl. destruct (is_accept_dict v); [done|]. intros [= ->]. by apply Ha.
  - intros d'. rewrite filter_top_rules_lookup.
    destruct (t0 !! k) as [v|] eqn:E; [|done].
    simpl. destruct (is_accept_dict v); [done|]. intros [= ->]. by eapply Hs.
Qed.

Lemma suffixes_sentinel_ok rules t : suffixes rules = Some t → sentinel_ok t.
Proof.
  unfold suffixes. destruct (rules_to_tree rules) as [t0|] eqn:E; [|done].
  intros [= <-]. by eapply filter_top_rules_sentinel_ok, rules_to_tree_sentinel_ok.
Qed.

(** On rules without the sentinel label the builder never raises. *)
Lemma insert_rule_is_Some ks t :
  sentinel_ok t → accept_this_key ∉ ks → is_Some (insert_rule ks t).
Proof.
  revert t. induction ks as [|l ls IH]; intros t Ht Hks; [by eexists|].
  apply not_elem_of_cons in Hks as [Hl Hls]. simpl.
  destruct (t !! l) as [[|d]|] eqn:E.
  - destruct Ht as [t Ha Hs]. by apply Ha in E.
  - destruct (IH d) as [sub ->]; [|done|by eexists].
    destruct Ht as [t Ha Hs]. eauto.
  - destruct (IH ∅) as [sub ->]; [apply sentinel_ok_empty|done|by eexists].
Qed.

Lemma insert_rules_is_Some rules t :
  sentinel_ok t → Forall (λ r, accept_this_key ∉ r) rules →
  is_Some (insert_rules rules t).
Proof.
  intros Ht H. revert t Ht. induction H as [|r rs Hr _ IH]; intros t Ht; [by eexists|].
  simpl. destruct (insert_rule_is_Some (reverse r) t) as [t1 E]; [done| |].
  { by rewrite elem_of_reverse. }
  rewrite E. simpl. apply IH. by eapply insert_rule_sentinel_ok.
Qed.

Lemma insert_rule_lookup_ne l ls t t' k :
  insert_rule (l :: ls) t = Some t' → k ≠ l → t' !! k = t !! k.
Proof.
  simpl. intros H Hk.
  destruct (t !! l) as [[|d]|]; [done| |].
  - destruct (insert_rule ls d); simplify_eq/=. by rewrite lookup_insert_ne.
  - destruct (insert_rule ls ∅); simplify_eq/=. by rewrite lookup_insert_ne.
Qed.

Lemma plain_rule_reverse r :
  plain_rule r → ∃ l ls, reverse r = l :: ls ∧ accept_this_key ∉ l :: ls.
Proof.
  intros [Hne Hr]. destruct (reverse r) as [|l ls] eqn:E.
  - apply (f_equal reverse) in E. rewrite reverse_involutive in E. done.
  - exists l, ls. split; [done|]. by rewrite <- E, elem_of_reverse.
Qed.

(** With plain rules the root of the trie never carries the sentinel key. *)
Lemma insert_rules_root rules t t' :
  Forall plain_rule rules → insert_rules rules t = Some t' →
  t' !! accept_this_key = t !! accept_this_key.
Proof.
  intros H. revert t. induction H as [|r rs Hr _ IH]; intros t Hi; simplify_eq/=; [done|].
  destruct (insert_rule (reverse r) t) as [t1|] eqn:E; simplify_eq/=.
  rewrite (IH _ Hi). apply plain_rule_reverse in Hr as (l & ls & Hrev & Hnot).
  rewrite Hrev in E. eapply insert_rule_lookup_ne; [done|].
  apply not_elem_of_cons in Hnot as [? ?]. done.
Qed.

Lemma rules_to_tree_root rules t :
  Forall plain_rule rules → rules_to_tree rules = Some t →
  t !! accept_this_key = None.
Proof. intros H Ht. by rewrite (insert_rules_root _ _ _ H Ht), lookup_empty. Qed.

Lemma rules_to_tree_is_Some rules :
  Forall plain_rule rules → is_Some (rules_to_tree rules).
Proof.
  intros H. apply insert_rules_is_Some; [apply sentinel_ok_empty|].
  eapply Forall_impl; [done|]. by intros r [_ ?].
Qed.

(** ** Rules and the paths of the trie *)

Lemma insert_rule_terminal_at ks t t' :
  insert_rule ks t = Some t' → terminal_at ks t'.
Proof.
  revert t t'. induction ks as [|l ls IH]; intros t t' H.
  - simplify_eq/=. eexists. split; [done|]. rewrite lookup_insert_eq. by eexists.
  - simpl in H. destruct (t !! l) as [[|d]|] eqn:E; [done| |].
    + destruct (insert_rule ls d) as [sub|] eqn:E2; simplify_eq/=.
      destruct (IH _ _ E2) as (d' & Hd' & Hterm).
      exists d'. split; [|done]. simpl. by rewrite lookup_insert_eq.
    + destruct (insert_rule ls ∅) as [sub|] eqn:E2; simplify_eq/=.
      destruct (IH _ _ E2) as (d' & Hd' & Hterm).
      exists d'. split; [|done]. simpl. by rewrite lookup_insert_eq.
Qed.

Lemma node_at_cons_subrule k ks t d' :
  node_at (k :: ks) t = Some (subrule d') →
  ∃ d, t !! k = Some (subrule d) ∧ node_at ks d = Some (subrule d').
Proof.
  simpl. destruct (t !! k) as [[|d]|]; [by destruct ks| |done]. eauto.
Qed.

(** A later insertion keeps the rules already in the trie, as long as their
    labels are not the sentinel. *)
Lemma insert_rule_terminal_at_mono ks qs t t' :
  insert_rule ks t = Some t' → accept_this_key ∉ qs →
  terminal_at qs t → terminal_at qs t'.
Proof.
  revert qs t t'. induction ks as [|l ls IH]; intros qs t t' H Hqs (d' & Hd' & Hterm).
  - simplify_eq/=. destruct qs as [|q qs].
    + simplify_eq/=. eexists. split; [done|]. rewrite lookup_insert_eq. by eexists.
    + apply not_elem_of_cons in Hqs as [Hq Hqs].
      exists d'. split; [|done]. simpl. rewrite lookup_insert_ne by done. done.
  - destruct qs as [|q qs].
    + simpl in Hd'. injection Hd' as <-. eexists. split; [done|].
      destruct (decide (accept_this_key = l)) as [<-|Hne].
      * simpl in H. destruct (t !! accept_this_key) as [[|d]|]; [done| |].
        -- destruct (insert_rule ls d); simplify_eq/=.
           rewrite lookup_insert_eq. by eexists.
        -- destruct (insert_rule ls ∅); simplify_eq/=.
           rewrite lookup_insert_eq. by eexists.
      * by rewrite (insert_rule_lookup_ne _ _ _ _ _ H Hne).
    + apply not_elem_of_cons in Hqs as [Hq Hqs].
      apply node_at_cons_subrule in Hd' as (d & Hd & Hd').
      destruct (decide (q = l)) as [->|Hne].
      * simpl in H. rewrite Hd in H.
        destruct (insert_rule ls d) as [sub|] eqn:E2; simplify_eq/=.
        destruct (IH qs d sub E2 Hqs) as (d2 & Hd2 & Hterm2); [by exists d'|].
        exists d2. split; [|done]. simpl. by rewrite lookup_insert_eq.
      * exists d'. split; [|done]. simpl.
        by rewrite (insert_rule_lookup_ne _ _ _ _ _ H Hne), Hd.
Qed.

Lemma insert_rules_terminal_at rules t t' r :
  insert_rules rules t = Some t' → accept_this_key ∉ r →
  r ∈ rules ∨ terminal_at (reverse r) t → terminal_at (reverse r) t'.
Proof.
  revert t. induction rules as [|r0 rs IH]; intros t H Hr Hin; simplify_eq/=.
  { destruct Hin as [Hin|?]; [|done]. by apply elem_of_nil in Hin. }
  destruct (insert_rule (reverse r0) t) as [t1|] eqn:E; simplify_eq/=.
  apply (IH _ H Hr).
  destruct Hin as [[->|Hin]%elem_of_cons|Hin]; [right|by left|right].
  - by eapply insert_rule_terminal_at.
  - eapply insert_rule_terminal_at_mono; [done| |done]. by rewrite elem_of_reverse.
Qed.

Lemma rules_to_tree_terminal_at rules t r :
  rules_to_tree rules = Some t → r ∈ rules → accept_this_key ∉ r →
  terminal_at (reverse r) t.
Proof. intros H Hin Hr. eapply insert_rules_terminal_at; eauto. Qed.

(** Pruning keeps every rule of two labels or more. *)
Lemma filter_top_rules_node_at k1 k2 ks t :
  k2 ≠ accept_this_key →
  is_Some (node_at (k1 :: k2 :: ks) t) →
  node_at (k1 :: k2 :: ks) (filter_top_rules t) = node_at (k1 :: k2 :: ks) t.
Proof.
  intros Hk2 [r Hr]. cbn [node_at] in *. rewrite filter_top_rules_lookup.
  destruct (t !! k1) as [[|d]|] eqn:E; [done| |done].
  unfold pruned. destruct (is_accept_dict (subrule d)) eqn:Hacc; [|done].
  apply is_accept_dict_spec in Hacc as [= ->].
  by rewrite lookup_singleton_ne in Hr.
Qed.

Lemma elem_of_advance l acc r v :
  r ∈ acc → v ∈ children l r → v ∈ advance l acc.
Proof. intros. apply list_elem_of_bind. eauto. Qed.

Lemma children_key d k l v :
  key_matches k l → d !! k = Some v → v ∈ children l (subrule d).
Proof.
  intros [->| ->] Hv; simpl; rewrite Hv; apply elem_of_app; [left|right]; left.
Qed.

(** The walk reaches every node whose keys match the labels consumed. *)
Lemma walk_complete ks labels d r acc :
  Forall2 key_matches ks labels → subrule d ∈ acc →
  node_at ks d = Some r → r ∈ walk labels acc.
Proof.
  intros H. revert d acc. induction H as [|k l ks ls Hk Hks IH]; intros d acc Hd Hr.
  - by simplify_eq/=.
  - rewrite walk_cons. simpl in Hr.
    destruct (d !! k) as [[|d']|] eqn:E; [| |done].
    + destruct ks; [|done]. simplify_eq/=. apply Forall2_nil_inv_l in Hks as ->.
      simpl. eapply elem_of_advance; [done|]. by eapply children_key.
    + eapply IH; [|done]. eapply elem_of_advance; [done|]. by eapply children_key.
Qed.

Lemma existsb_terminal acc :
  existsb terminal acc = true ↔ ∃ r, r ∈ acc ∧ terminal r = true.
Proof.
  rewrite existsb_exists. by setoid_rewrite list_elem_of_In.
Qed.

Lemma terminal_at_walk ks labels d :
  Forall2 key_matches ks labels → terminal_at ks d →
  existsb terminal (walk labels [subrule d]) = true.
Proof.
  intros H (d' & Hd' & Hterm). apply existsb_terminal.
  exists (subrule d'). split.
  - eapply walk_complete; [done| |done]. left.
  - simpl. by apply bool_decide_eq_true_2.
Qed.

Lemma key_matches_refl ls : Forall2 key_matches ls ls.
Proof. induction ls; constructor; [by right|done]. Qed.

(** *** Every terminal node of the trie comes from a rule *)

Lemma suffixes_inv rules p :
  suffixes rules = Some p →
  ∃ t, rules_to_tree rules = Some t ∧ p = filter_top_rules t.
Proof.
  unfold suffixes. destruct (rules_to_tree rules) as [t|]; [|done].
  intros [= <-]. eauto.
Qed.


Lemma node_at_snoc ks k d d' v :
  node_at ks d = Some (subrule d') → d' !! k = Some v →
  node_at (ks ++ [k]) d = Some v.
Proof.
  revert d. induction ks as [|k0 ks IH]; intros d Hd Hv.
  - simpl in Hd. injection Hd as ->. simpl. rewrite Hv. by destruct v.
  - apply node_at_cons_subrule in Hd as (d0 & Hd0 & Hd).
    simpl. rewrite Hd0. by apply IH.
Qed.

Lemma elem_of_children l r v :
  v ∈ children l r →
  ∃ d k, r = subrule d ∧ key_matches k l ∧ d !! k = Some v.
Proof.
  destruct r as [|d]; simpl; [by intros ?%elem_of_nil|].
  intros [H|H]%elem_of_app.
  - destruct (d !! wildcard) eqn:E; simpl in H; [|by apply elem_of_nil in H].
    apply list_elem_of_singleton in H as ->. exists d, wildcard. by split_and!; [|left|].
  - destruct (d !! l) eqn:E; simpl in H; [|by apply elem_of_nil in H].
    apply list_elem_of_singleton in H as ->. exists d, l. by split_and!; [|right|].
Qed.

Lemma walk_sound_from d consumed labels acc r :
  (∀ r0, r0 ∈ acc →
     ∃ ks, Forall2 key_matches ks consumed ∧ node_at ks d = Some r0) →
  r ∈ walk labels acc →
  ∃ ks, Forall2 key_matches ks (consumed ++ labels) ∧ node_at ks d = Some r.
Proof.
  revert consumed acc. induction labels as [|l ls IH]; intros consumed acc Hacc Hr.
  - rewrite app_nil_r. by apply Hacc.
  - rewrite walk_cons in Hr.
    replace (consumed ++ l :: ls) with ((consumed ++ [l]) ++ ls)
      by by rewrite <- app_assoc.
    apply (IH _ (advance l acc)); [|done].
    intros v (r0 & Hv & Hr0)%list_elem_of_bind.
    apply elem_of_children in Hv as (d0 & k & -> & Hk & Hv).
    destruct (Hacc _ Hr0) as (ks & Hks & Hnode).
    exists (ks ++ [k]). split.
    + apply Forall2_app; [done|]. by constructor.
    + by eapply node_at_snoc.
Qed.

Lemma walk_sound d labels r :
  r ∈ walk labels [subrule d] →
  ∃ ks, Forall2 key_matches ks labels ∧ node_at ks d = Some r.
Proof.
  intros Hr. apply (walk_sound_from d [] labels [subrule d]); [|done].
  intros r0 ->%list_elem_of_singleton. exists []. by split; [constructor|].
Qed.

Lemma terminal_walk_sound d labels :
  existsb terminal (walk labels [subrule d]) = true →
  ∃ ks, Forall2 key_matches ks labels ∧ terminal_at ks d.
Proof.
  intros (r & Hr & Hterm)%existsb_terminal.
  apply walk_sound in Hr as (ks & Hks & Hnode).
  exists ks. split; [done|]. destruct r as [|d']; [done|].
  exists d'. split; [done|]. by apply bool_decide_eq_true in Hterm.
Qed.

Lemma terminal_at_empty ks : ¬ terminal_at ks ∅.
Proof.
  intros (d & Hd & Hterm). destruct ks as [|k ks]; simpl in Hd.
  - injection Hd as <-. rewrite lookup_empty in Hterm. by apply is_Some_None in Hterm.
  - by rewrite lookup_empty in Hd.
Qed.

(** An insertion adds one terminal node, at the end of its own path. *)
Lemma insert_rule_terminal_at_inv q t t' ks :
  accept_this_key ∉ q → insert_rule q t = Some t' →
  terminal_at ks t' → ks = q ∨ terminal_at ks t.
Proof.
  revert t t' ks. induction q as [|l ls IH]; intros t t' ks Hq Hins (d' & Hd' & Hterm).
  - simplify_eq/=. destruct ks as [|k ks]; [by left|]. right.
    apply node_at_cons_subrule in Hd' as (d & Hd & Hd').
    rewrite lookup_insert in Hd. case_decide; [done|].
    exists d'. split; [|done]. simpl. by rewrite Hd.
  - apply not_elem_of_cons in Hq as [Hl Hls].
    destruct ks as [|k ks].
    + right. simpl in Hd'. injection Hd' as <-.
      rewrite (insert_rule_lookup_ne _ _ _ _ _ Hins Hl) in Hterm. by exists t.
    + apply node_at_cons_subrule in Hd' as (d & Hd & Hd').
      destruct (decide (k = l)) as [->|Hne].
      * simpl in Hins. destruct (t !! l) as [[|d0]|] eqn:E; [done| |].
        -- destruct (insert_rule ls d0) as [sub|] eqn:E2; [|done].
           simpl in Hins. injection Hins as <-.
           rewrite lookup_insert_eq in Hd. injection Hd as <-.
           destruct (IH d0 sub ks Hls E2) as [->|(d1 & Hd1 & Hterm1)];
             [by exists d'|by left|].
           right. exists d1. split; [|done]. simpl. by rewrite E.
        -- destruct (insert_rule ls ∅) as [sub|] eqn:E2; [|done].
           simpl in Hins. injection Hins as <-.
           rewrite lookup_insert_eq in Hd. injection Hd as <-.
           destruct (IH ∅ sub ks Hls E2) as [->|Hempty]; [by exists d'|by left|].
           by apply terminal_at_empty in Hempty.
      * right. rewrite (insert_rule_lookup_ne _ _ _ _ _ Hins Hne) in Hd.
        exists d'. split; [|done]. simpl. by rewrite Hd.
Qed.

Lemma insert_rules_terminal_at_inv rules t t' ks :
  Forall (λ r, accept_this_key ∉ r) rules → insert_rules rules t = Some t' →
  terminal_at ks t' → reverse ks ∈ rules ∨ terminal_at ks t.
Proof.
  intros H. revert t. induction H as [|r rs Hr _ IH]; intros t Hins Hterm.
  - simplify_eq/=. by right.
  - simpl in Hins. destruct (insert_rule (reverse r) t) as [t1|] eqn:E; simplify_eq/=.
    destruct (IH _ Hins Hterm) as [Hin|Hterm1]; [left; by right|].
    eapply insert_rule_terminal_at_inv in Hterm1 as [->|?]; [| |by rewrite elem_of_reverse|done].
    + left. rewrite reverse_involutive. left.
    + by right.
Qed.

Lemma terminal_at_filter ks t :
  terminal_at ks (filter_top_rules t) → terminal_at ks t.
Proof.
  intros (d & Hd & Hterm). destruct ks as [|k ks].
  - simpl in Hd. injection Hd as <-. exists t. split; [done|].
    rewrite filter_top_rules_lookup in Hterm.
    destruct (t !! accept_this_key); [by eexists|]. by apply is_Some_None in Hterm.
  - exists d. split; [|done]. simpl in *. rewrite filter_top_rules_lookup in Hd.
    destruct (t !! k) as [v|]; [|done]. simpl in Hd.
    by destruct (is_accept_dict v).
Qed.

(** A terminal node in the matched-so-far set of an emitted trie: some
    rule of the list matches the labels consumed. *)
Lemma suffixes_sound rules p labels :
  Forall plain_rule rules → suffixes rules = Some p →
  existsb terminal (walk labels [subrule p]) = true →
  ∃ r, r ∈ rules ∧ rule_matches r labels.
Proof.
  intros Hplain (t & Ht & ->)%suffixes_inv (ks & Hks & Hterm)%terminal_walk_sound.
  apply terminal_at_filter in Hterm.
  assert (Forall (λ r : rule, accept_this_key ∉ r) rules) as Hbang.
  { eapply Forall_impl; [done|]. by intros r [_ ?]. }
  destruct (insert_rules_terminal_at_inv rules ∅ t ks Hbang Ht Hterm)
    as [Hin|Hempty].
  - exists (reverse ks). split; [done|]. unfold rule_matches.
    by rewrite reverse_involutive.
  - by apply terminal_at_empty in Hempty.
Qed.

Lemma no_exception_rule_walk negative n labels :
  Forall plain_rule negative → suffixes negative = Some n →
  no_exception_rule negative labels → no_exception n labels.
Proof.
  intros Hplain Hn Hrules [[lg tl] acc] Hneg. simpl.
  apply negative_loop_Next in Hneg
    as (_ & _ & _ & [[-> _]|(j & Hj & _ & Hterm & _)]); [done|].
  destruct (suffixes_sound _ _ _ Hplain Hn Hterm) as (e & He & Hmatch).
  by destruct (Hrules e j He Hj).
Qed.

Lemma no_suffix_rule_walk positive p labels :
  Forall plain_rule positive → suffixes positive = Some p →
  no_suffix_rule positive labels →
  existsb terminal (walk labels [subrule p]) = false.
Proof.
  intros Hplain Hp Hrules.
  destruct (existsb terminal _) eqn:Hterm; [|done].
  destruct (suffixes_sound _ _ _ Hplain Hp Hterm) as (q & Hq & Hmatch).
  by destruct (Hrules q Hq).
Qed.

(** ** Strings and the parser *)

Lemma split_on_nonempty sep s : Str.split_on sep s ≠ [].
Proof.
  destruct s as [|c s]; [done|]. simpl.
  destruct (Ascii.eqb c sep); [done|]. by destruct (Str.split_on sep s).
Qed.


Lemma split_on_no_sep sep s l :
  l ∈ Str.split_on sep s → Str.all_chars (λ c, negb (Ascii.eqb c sep)) l = true.
Proof.
  revert l. induction s as [|c s IH]; intros l Hl.
  - apply list_elem_of_singleton in Hl as ->. done.
  - simpl in Hl. destruct (Ascii.eqb c sep) eqn:Hc.
    + apply elem_of_cons in Hl as [->|Hl]; [done|]. by apply IH.
    + destruct (Str.split_on sep s) as [|w ws] eqn:E.
      * apply list_elem_of_singleton in Hl as ->. simpl. by rewrite Hc.
      * apply elem_of_cons in Hl as [->|Hl].
        -- simpl. rewrite Hc. apply IH. left.
        -- apply IH. by right.
Qed.



Lemma split_on_dotless s rest :
  dotless s →
  Str.split_on "." (s +:+ String "." rest) = s :: Str.split_on "." rest.
Proof.
  unfold dotless. induction s as [|c s IH]; intros H; [done|].
  simpl in H. apply andb_prop in H as [Hc Hs]. apply negb_true_iff in Hc.
  simpl. rewrite Hc. by rewrite IH.
Qed.

Lemma split_on_dotless_whole s : dotless s → Str.split_on "." s = [s].
Proof.
  unfold dotless. induction s as [|c s IH]; intros H; [done|].
  simpl in H. apply andb_prop in H as [Hc Hs]. apply negb_true_iff in Hc.
  simpl. rewrite Hc. by rewrite IH.
Qed.

(** Splitting the dotted form of a list of labels gives the labels back. *)
Lemma split_on_joined ls :
  ls ≠ [] → Forall dotless ls → Str.split_on "." (Str.joined "." ls) = ls.
Proof.
  intros Hne H. induction H as [|l ls Hl Hls IH]; [done|].
  destruct ls as [|l' ls'].
  - by apply split_on_dotless_whole.
  - change (Str.joined "." (l :: l' :: ls'))
      with (l +:+ String "." (Str.joined "." (l' :: ls'))).
    rewrite split_on_dotless by done. by rewrite IH.
Qed.

Lemma parse_line_rules P st line :
  (∀ s, P (Str.split_on "." (Str.lower (Str.strip "." s)))) →
  Forall P st.1 ∧ Forall P st.2 →
  Forall P (parse_line st line).1 ∧ Forall P (parse_line st line).2.
Proof.
  intros HP [H1 H2]. unfold parse_line.
  destruct (Str.first_token line) as [tok|]; [|done].
  destruct (String.prefix "//" tok); [done|].
  destruct (String.prefix "!" tok); simpl; (split; [|]); try done;
    apply Forall_app; split; try done; by repeat constructor.
Qed.

Lemma get_public_suffixes_rules P text :
  (∀ s, P (Str.split_on "." (Str.lower (Str.strip "." s)))) →
  Forall P (get_public_suffixes text).1 ∧ Forall P (get_public_suffixes text).2.
Proof.
  intros HP. unfold get_public_suffixes.
  assert (Forall P (([], []) : list rule * list rule).1 ∧
          Forall P (([], []) : list rule * list rule).2) as H
    by (split; apply Forall_nil_2).
  revert H. generalize (([], []) : list rule * list rule).
  induction (Str.readlines text) as [|line lines IH]; intros st H; [done|].
  simpl. apply IH. by apply parse_line_rules.
Qed.





(** ** The scenarios of the specification *)

Example spec_rules :
  get_public_suffixes spec_text = (spec_positive, spec_negative) ∧
  main_tries spec_text = Some (spec_p, spec_n).
Proof. split; by vm_compute. Qed.

Example spec_scenarios :
  get_domain spec_p spec_n "example.com" = Return (Some "example.com") ∧
  get_domain spec_p spec_n "www.example.co.uk" = Return (Some "example.co.uk") ∧
  get_domain spec_p spec_n "co.uk" = Return None ∧
  get_domain spec_p spec_n "foo.www.ck" = Return (Some "www.ck") ∧
  get_domain spec_p spec_n "a..b" = Return None ∧
  get_domain spec_p spec_n "localhost" = Return None ∧
  get_domain spec_p spec_n "sub.example" = Return (Some "sub.example").
Proof. split_and!; by vm_compute. Qed.

(** With a label ["!"] the assertion of [Rule.subrule] is reached. *)
Example sentinel_label_traps : get_domain spec_p spec_n "x.!.co.uk" = Trap.
Proof. by vm_compute. Qed.

(** * The claims *)

(** ** C6: what the parser produces *)



(** ** C10: the assertion of [Rule.subrule] *)

Lemma good_root d : sentinel_ok d → Forall good [subrule d].
Proof. intros. repeat constructor. by exists d. Qed.

Lemma get_domain_returns p n hostname :
  sentinel_ok p → sentinel_ok n →
  accept_this_key ∉ Str.split_on "." hostname →
  ∃ r, get_domain p n hostname = Return r.
Proof.
  intros Hp Hn Hlabels. unfold get_domain.
  rewrite <- elem_of_reverse in Hlabels.
  set (labels := reverse (Str.split_on "." hostname)) in *.
  unfold check_negative, check_positive.
  destruct (negative_loop_total labels [] [] [subrule n] (good_root n Hn) Hlabels)
    as [[_ ->]|[_ [[[lg tl] acc] ->]]]; [by eexists|].
  cbn [mbind Exec_bind]. destruct (negb (bool_decide (length lg = 0))); [by eexists|].
  destruct (positive_loop_total labels [] [] [subrule p] (good_root p Hp) Hlabels)
    as [[[lg2 tl2] acc2] Hpos].
  rewrite Hpos. cbn [mbind Exec_bind].
  apply positive_loop_Next in Hpos as (_ & -> & _).
  rewrite tld_check_subrules
    by by apply Forall_good_subrule, walk_good; [apply good_root|].
  destruct (existsb terminal _); [by eexists|]. cbn [mbind Exec_bind].
  destruct (negb (bool_decide (length lg2 = 0))); [by eexists|].
  destruct labels as [|l0 [|l1 ?]]; by eexists.
Qed.

(** C10.  For the tries that [main] builds from any rule lists, and every
    hostname none of whose labels is the sentinel string ["!"], the resolver
    never applies the [subrule] accessor to [Rule.accept_this]: the run
    ends in a [return], never in the failed assertion.  The reason is the
    invariant [sentinel_ok]: [accept_this] is stored under the key ["!"]
    only, so it can enter [accepted_rules] only through a label ["!"]. *)
Theorem subrule_assertion_unreachable
    (positive negative : list rule) (p n : gmap string Rule) (hostname : string) :
  suffixes positive = Some p →
  suffixes negative = Some n →
  accept_this_key ∉ Str.split_on "." hostname →
  get_domain p n hostname ≠ Trap ∧ ∃ r, get_domain p n hostname = Return r.
Proof.
  intros Hp Hn Hlabels.
  destruct (get_domain_returns p n hostname) as [r Hr];
    [by eapply suffixes_sentinel_ok..|done|].
  rewrite Hr. split; [done|by eexists].
Qed.

Lemma subrule_assertion_unreachable_witness :
  get_domain spec_p spec_n "www.example.co.uk" ≠ Trap ∧
  ∃ r, get_domain spec_p spec_n "www.example.co.uk" = Return r.
Proof.
  apply (subrule_assertion_unreachable spec_positive spec_negative).
  - vm_compute. reflexivity.
  - vm_compute. reflexivity.
  - by_decide.
Defined.

(** ** C5: pruning and the default fallback *)

Lemma get_domain_eq p n hostname :
  get_domain p n hostname =
  let labels := reverse (Str.split_on "." hostname) in
  st ← check_negative n labels;
  if negb (bool_decide (length st.1.1 = 0)) then
    Return (Some (reversed_joined st.1.1))
  else positive_part p labels.
Proof.
  unfold get_domain, positive_part, finish. simpl.
  by destruct (check_negative n _) as [| |[[lg tl] acc]].
Qed.

(** Two runs of the second loop that differ in [longest] only end alike:
    either a later match overwrote both, or both kept what they had. *)
Lemma positive_loop_longest labels lg1 lg2 tl acc :
  match for_each positive_step labels (lg1, tl, acc),
        for_each positive_step labels (lg2, tl, acc) with
  | Next (a1, t1, c1), Next (a2, t2, c2) =>
      t1 = t2 ∧ c1 = c2 ∧ (a1 = a2 ∨ (a1 = lg1 ∧ a2 = lg2))
  | Trap, Trap => True
  | Return r1, Return r2 => r1 = r2
  | _, _ => False
  end.
Proof.
  revert lg1 lg2 tl acc. induction labels as [|l ls IH]; intros lg1 lg2 tl acc.
  - simpl. auto.
  - cbn [for_each]. rewrite !positive_step_eq.
    destruct (decide (Forall is_subrule acc)) as [Hacc|Hacc].
    + rewrite !scan_rules_Next by done. cbn [mbind Exec_bind].
      destruct (existsb terminal acc).
      * destruct (for_each positive_step ls _) as [| |[[a1 t1] c1]]; [done..|].
        split_and!; auto.
      * apply IH.
    + by rewrite !scan_rules_Trap by done.
Qed.

Lemma children_accept_dict l v :
  is_accept_dict v = true → l ≠ accept_this_key → children l v = [].
Proof.
  intros ->%is_accept_dict_spec Hl. simpl.
  by rewrite !lookup_singleton_ne.
Qed.

Lemma advance_kept l acc :
  l ≠ accept_this_key → advance l (filter kept acc) = advance l acc.
Proof.
  intros Hl. induction acc as [|v vs IH]; [done|].
  unfold advance in *. rewrite filter_cons. cbn [mbind list_bind].
  case_decide as Hv.
  - cbn [mbind list_bind]. by rewrite IH.
  - rewrite IH, children_accept_dict; [done| |done].
    unfold kept in Hv. by destruct (is_accept_dict v).
Qed.

Lemma children_pruned l t :
  children l (subrule (filter_top_rules t)) = filter kept (children l (subrule t)).
Proof.
  simpl. rewrite !filter_top_rules_lookup, filter_app. f_equal.
  - destruct (t !! wildcard) as [v|]; [|done]. simpl. rewrite filter_cons.
    unfold kept. by destruct (is_accept_dict v).
  - destruct (t !! l) as [v|]; [|done]. simpl. rewrite filter_cons.
    unfold kept. by destruct (is_accept_dict v).
Qed.

Lemma Forall_good_filter acc : Forall good acc → Forall good (filter kept acc).
Proof.
  rewrite !Forall_forall. intros H v [_ Hv]%list_elem_of_filter. by apply H.
Qed.

Lemma existsb_terminal_kept acc :
  existsb terminal (filter kept acc) = true → existsb terminal acc = true.
Proof.
  rewrite !existsb_terminal. intros (r & [_ Hr]%list_elem_of_filter & Ht). eauto.
Qed.

Lemma finish_single l0 lg tl acc :
  Forall is_subrule acc → lg = [] →
  finish [l0] (lg, tl, acc) = Return None.
Proof.
  intros Hacc ->. unfold finish. rewrite tld_check_subrules by done.
  by destruct (existsb terminal acc).
Qed.

(** The second loop from its second label on, with and without the pruned
    entries in the matched-so-far set. *)
Lemma pruned_tail l0 rest acc :
  Forall good acc → accept_this_key ∉ rest →
  (st ← for_each positive_step rest ([], [l0], filter kept acc);
   finish (l0 :: rest) st)
  = (st ← for_each positive_step rest ([], [l0], acc); finish (l0 :: rest) st).
Proof.
  intros Hacc Hrest. destruct rest as [|l1 rest].
  - cbn [for_each mbind Exec_bind].
    rewrite !finish_single; [done|..]; try done;
      by apply Forall_good_subrule; try apply Forall_good_filter.
  - apply not_elem_of_cons in Hrest as [Hl1 Hrest].
    cbn [for_each]. rewrite !positive_step_eq.
    rewrite !scan_rules_Next
      by (by apply Forall_good_subrule; try apply Forall_good_filter).
    cbn [mbind Exec_bind]. rewrite advance_kept by done.
    pose proof (positive_loop_longest rest
      (if existsb terminal (filter kept acc) then [l0] ++ [l1] else [])
      (if existsb terminal acc then [l0] ++ [l1] else [])
      ([l0] ++ [l1]) ([] ++ advance l1 acc)) as H.
    destruct (for_each positive_step rest
      (if existsb terminal (filter kept acc) then _ else _, _, _))
      as [| |[[a1 t1] c1]];
    destruct (for_each positive_step rest
      (if existsb terminal acc then _ else _, _, _))
      as [| |[[a2 t2] c2]]; try done.
    { by subst. }
    destruct H as (-> & -> & [->|[-> ->]]); [done|].
    unfold finish. cbn [mbind Exec_bind].
    destruct (for_each tld_check c2 tt); [done..|]. cbn [mbind Exec_bind].
    destruct (existsb terminal (filter kept acc)), (existsb terminal acc); done.
Qed.

Lemma pruning_get_domain t n hostname :
  sentinel_ok t → t !! accept_this_key = None →
  accept_this_key ∉ Str.split_on "." hostname →
  get_domain (filter_top_rules t) n hostname = get_domain t n hostname.
Proof.
  intros Ht Hroot Hlabels. rewrite !get_domain_eq. cbv zeta.
  rewrite <- elem_of_reverse in Hlabels.
  set (labels := reverse (Str.split_on "." hostname)) in *.
  destruct (check_negative n labels) as [| |st]; [done..|].
  cbn [mbind Exec_bind]. destruct (negb _); [done|].
  unfold positive_part, check_positive.
  destruct labels as [|l0 rest].
  - cbn. by rewrite filter_top_rules_lookup, Hroot.
  - apply not_elem_of_cons in Hlabels as [Hl0 Hrest].
    cbn [for_each]. rewrite !positive_step_eq.
    rewrite !scan_rules_Next by (by repeat constructor).
    cbn [mbind Exec_bind existsb]. rewrite !terminal_subrule.
    rewrite filter_top_rules_lookup, Hroot. cbn [pruned orb app].
    unfold advance. cbn [mbind list_bind]. rewrite !app_nil_r.
    rewrite children_pruned. apply pruned_tail; [|done].
    apply children_good; [by exists t|done].
Qed.

(** C5.  For every set of positive rules (each with at least one label and
    none with the reserved sentinel ["!"] as a label), every negative trie
    and every hostname without a label ["!"], the builder succeeds, and
    resolving against the pruned positive trie gives exactly the result of
    resolving against the unpruned one: the default fallback reproduces
    the effect of the pruned rules. *)
Theorem pruning_preserves_resolution
    (positive : list rule) (n : gmap string Rule) (hostname : string) :
  Forall plain_rule positive →
  accept_this_key ∉ Str.split_on "." hostname →
  ∃ t, rules_to_tree positive = Some t ∧
       get_domain (filter_top_rules t) n hostname = get_domain t n hostname.
Proof.
  intros Hrules Hlabels.
  destruct (rules_to_tree_is_Some positive Hrules) as [t Ht].
  exists t. split; [done|]. apply pruning_get_domain; [| |done].
  - by eapply rules_to_tree_sentinel_ok.
  - by eapply rules_to_tree_root.
Qed.

Lemma pruning_preserves_resolution_witness :
  ∃ t, rules_to_tree [["com"]; ["co"; "uk"]] = Some t ∧
       get_domain (filter_top_rules t) ∅ "www.example.com"
       = get_domain t ∅ "www.example.com".
Proof.
  apply (pruning_preserves_resolution [["com"]; ["co"; "uk"]] ∅ "www.example.com").
  - by_decide.
  - by_decide.
Defined.

(** Outside the data model the equivalence is lost: when a rule uses the
    sentinel ["!"] as a literal label ([a.!]), the root of the trie looks
    terminal, and pruning [com] changes the answer for [x.com]. *)
Example pruning_with_literal_sentinel_label :
  ∃ t, rules_to_tree [["a"; "!"]; ["com"]] = Some t ∧
       get_domain t ∅ "x.com" = Return (Some "x.com") ∧
       get_domain (filter_top_rules t) ∅ "x.com" = Return (Some "com").
Proof. eexists. split; [reflexivity|]. split; vm_compute; reflexivity. Qed.

(** ** C8: a hostname that is itself a public suffix *)

Lemma reversed_joined_reverse ls : reversed_joined (reverse ls) = Str.joined "." ls.
Proof. unfold reversed_joined. by rewrite reverse_involutive. Qed.

(** The positive phase on tries that respect the sentinel. *)
Lemma positive_part_good p labels :
  sentinel_ok p → accept_this_key ∉ labels →
  ∃ lg tl, check_positive p labels = Next (lg, tl, walk labels [subrule p]) ∧
    positive_part p labels =
    if existsb terminal (walk labels [subrule p]) then Return None
    else finish labels (lg, tl, []).
Proof.
  intros Hp Hlabels. unfold positive_part.
  destruct (positive_loop_total labels [] [] [subrule p] (good_root p Hp) Hlabels)
    as [[[lg tl] acc] Hpos].
  pose proof Hpos as (_ & -> & _)%positive_loop_Next.
  exists lg, tl. split; [done|]. unfold check_positive. rewrite Hpos.
  cbn [mbind Exec_bind finish].
  rewrite tld_check_subrules
    by by apply Forall_good_subrule, walk_good; [apply good_root|].
  by destruct (existsb terminal _).
Qed.

Lemma public_suffix_nil p n hostname :
  sentinel_ok p → sentinel_ok n →
  let labels := reverse (Str.split_on "." hostname) in
  accept_this_key ∉ labels → no_exception n labels →
  existsb terminal (walk labels [subrule p]) = true →
  get_domain p n hostname = Return None.
Proof.
  intros Hp Hn labels Hlabels Hex Hterm. rewrite get_domain_eq. fold labels. cbv zeta.
  destruct (negative_loop_total labels [] [] [subrule n] (good_root n Hn) Hlabels)
    as [[_ Hneg]|[_ [st Hneg]]]; unfold check_negative; rewrite Hneg; [done|].
  cbn [mbind Exec_bind]. rewrite (Hex st Hneg). cbn [negb bool_decide length].
  rewrite bool_decide_eq_true_2 by done. cbn [negb].
  destruct (positive_part_good p labels Hp Hlabels) as (lg & tl & _ & ->).
  by rewrite Hterm.
Qed.

(** A hostname of one label never gets a domain when the root of the
    positive trie holds no sentinel key. *)
Lemma single_label_nil p n hostname l0 :
  sentinel_ok p → sentinel_ok n → p !! accept_this_key = None →
  Str.split_on "." hostname = [l0] → l0 ≠ accept_this_key →
  get_domain p n hostname = Return None.
Proof.
  intros Hp Hn Hroot Hsplit Hl0. rewrite get_domain_eq, Hsplit.
  change (reverse [l0]) with [l0]. cbv zeta.
  unfold check_negative. cbn [for_each]. rewrite negative_step_eq.
  case_bool_decide; [done|].
  rewrite scan_rules_Next by by apply Forall_good_subrule, good_root.
  cbn [mbind Exec_bind fst length negb bool_decide].
  destruct (existsb terminal [subrule n]); cbn [negb bool_decide length];
    rewrite bool_decide_eq_true_2 by done; cbn [negb].
  all: unfold positive_part, check_positive; cbn [for_each];
    rewrite positive_step_eq;
    rewrite scan_rules_Next by (by apply Forall_good_subrule, good_root);
    cbn [mbind Exec_bind existsb]; rewrite terminal_subrule, Hroot; cbn [orb];
    apply finish_single; [|done];
    apply Forall_good_subrule, advance_good; [by apply good_root|done].
Qed.

Lemma terminal_at_pruned r t :
  plain_rule r → (2 ≤ length r)%nat → terminal_at (reverse r) t →
  terminal_at (reverse r) (filter_top_rules t).
Proof.
  intros Hr Hlen (d & Hd & Hterm).
  apply plain_rule_reverse in Hr as (k1 & ks & Hrev & Hnot).
  assert (length (reverse r) = length r) as Hl by apply length_reverse.
  rewrite Hrev in *. destruct ks as [|k2 ks]; [simpl in Hl; lia|].
  exists d. split; [|done].
  rewrite filter_top_rules_node_at; [done| |by eexists].
  apply not_elem_of_cons in Hnot as [_ Hnot].
  apply not_elem_of_cons in Hnot as [Hk2 _]. done.
Qed.

(** C8.  For the tries built from the rule lists and a hostname without a
    label ["!"], once the exception phase has handed over: if the final
    matched-so-far set of the positive walk holds a node with a
    terminal-sentinel child, the resolver returns [nil], no registrable
    domain.  In particular, a hostname that is exactly a positive rule
    (rules in the data model: at least one label, no sentinel label, labels
    without dots) resolves to [nil] when no exception rule matches a proper
    suffix of it. *)
Theorem public_suffix_has_no_domain
    (positive negative : list rule) (p n : gmap string Rule) :
  suffixes positive = Some p →
  suffixes negative = Some n →
  (∀ hostname,
     let labels := reverse (Str.split_on "." hostname) in
     accept_this_key ∉ labels → no_exception n labels →
     existsb terminal (matched p labels (length labels)) = true →
     get_domain p n hostname = Return None)
  ∧ (Forall plain_rule positive → Forall plain_rule negative →
     ∀ r, r ∈ positive → Forall dotless r →
          no_exception_rule negative (reverse r) →
          get_domain p n (Str.joined "." r) = Return None).
Proof.
  intros Hp Hn.
  pose proof (suffixes_sentinel_ok _ _ Hp) as Hokp.
  pose proof (suffixes_sentinel_ok _ _ Hn) as Hokn.
  split.
  - intros hostname labels Hlabels Hex Hterm.
    unfold matched in Hterm. rewrite firstn_all in Hterm.
    by apply public_suffix_nil.
  - intros Hplain Hplain_n r Hr Hdot Hex.
    apply (no_exception_rule_walk _ _ _ Hplain_n Hn) in Hex.
    pose proof Hplain as Hplain_r. rewrite Forall_forall in Hplain_r.
    specialize (Hplain_r r Hr). destruct (Hplain_r) as [Hne Hbang].
    unfold suffixes in Hp. destruct (rules_to_tree positive) as [t|] eqn:Ht; [|done].
    simpl in Hp. injection Hp as <-.
    assert (Str.split_on "." (Str.joined "." r) = r) as Hsplit
      by by apply split_on_joined.
    destruct (decide (2 ≤ length r)%nat) as [Hlen|Hlen].
    + apply public_suffix_nil; try done; rewrite Hsplit; try done.
      * by rewrite elem_of_reverse.
      * eapply terminal_at_walk; [apply key_matches_refl|].
        apply terminal_at_pruned; [done..|].
        by eapply rules_to_tree_terminal_at.
    + destruct r as [|l0 [|l1 r]]; [done| |simpl in Hlen; lia].
      eapply single_label_nil; try done.
      * rewrite filter_top_rules_lookup.
        by rewrite (rules_to_tree_root _ _ Hplain Ht).
      * intros ->. apply Hbang. left.
Qed.

Lemma public_suffix_has_no_domain_witness :
  get_domain spec_p spec_n "co.uk" = Return None ∧
  get_domain spec_p spec_n (Str.joined "." ["co"; "uk"]) = Return None.
Proof.
  destruct (public_suffix_has_no_domain spec_positive spec_negative spec_p spec_n)
    as [Hwalk Hrule].
  - vm_compute. reflexivity.
  - vm_compute. reflexivity.
  - split.
    + apply Hwalk.
      * by_decide.
      * intros st. vm_compute. intros [= <-]. reflexivity.
      * vm_compute. reflexivity.
    + apply Hrule.
      * by_decide.
      * by_decide.
      * by_decide.
      * repeat constructor.
      * intros e i He Hi. apply list_elem_of_singleton in He as ->.
        destruct i as [|[|i]]; [by_decide..|simpl in Hi; lia].
Defined.

(** ** C7: one label in front of a rule *)

Lemma suffixes_root rules p :
  Forall plain_rule rules → suffixes rules = Some p →
  p !! accept_this_key = None.
Proof.
  intros Hplain (t & Ht & ->)%suffixes_inv.
  by rewrite filter_top_rules_lookup, (rules_to_tree_root _ _ Hplain Ht).
Qed.

(** A rule of two labels or more is matched by its own labels in the
    pruned trie. *)
Lemma rule_matched rules p r :
  suffixes rules = Some p → r ∈ rules → plain_rule r → (2 ≤ length r)%nat →
  existsb terminal (walk (reverse r) [subrule p]) = true.
Proof.
  intros (t & Ht & ->)%suffixes_inv Hr Hplain Hlen.
  eapply terminal_at_walk; [apply key_matches_refl|].
  apply terminal_at_pruned; [done..|].
  eapply rules_to_tree_terminal_at; [done..|]. by destruct Hplain.
Qed.

(** C7, counterexample.  With the positive rules [uk] and [co.uk], the rule
    [uk] has no wildcard label and [co] is a non-empty label, yet the
    hostname [co.uk] does not resolve to [co.uk]: it is itself a public
    suffix, and the resolver returns [nil]. *)
Lemma label_before_rule_is_suffix :
  ["uk"] ∈ (get_public_suffixes ("uk" +:+ nl +:+ "co.uk")).1 ∧
  resolve ("uk" +:+ nl +:+ "co.uk") (Str.joined "." ("co" :: ["uk"]))
  = Some (Return None) ∧
  resolve ("uk" +:+ nl +:+ "co.uk") (Str.joined "." ("co" :: ["uk"]))
  ≠ Some (Return (Some (Str.joined "." ("co" :: ["uk"])))).
Proof. split; [left|]. split; [by vm_compute|]. by vm_compute. Qed.

(** C7, amended.  For rule lists in the data model (every rule has a label,
    no label is the sentinel), every positive rule without wildcard label
    whose labels are non-empty and dot-free, and every non-empty, dot-free
    label other than ["!"]: resolving [label.rule] returns exactly
    [label.rule], provided that no exception rule matches a proper suffix
    of that hostname and no positive rule matches the whole of it (the
    hostname is not itself a public suffix). *)
Theorem label_before_rule
    (positive negative : list rule) (p n : gmap string Rule)
    (r : rule) (label : string) :
  suffixes positive = Some p →
  suffixes negative = Some n →
  Forall plain_rule positive →
  Forall plain_rule negative →
  r ∈ positive →
  wildcard ∉ r →
  Forall (λ l, l ≠ "" ∧ dotless l) (label :: r) →
  label ≠ accept_this_key →
  let hostname := Str.joined "." (label :: r) in
  let labels := reverse (label :: r) in
  no_exception_rule negative labels →
  no_suffix_rule positive labels →
  get_domain p n hostname = Return (Some hostname).
Proof.
  intros Hp Hn Hplain Hplain_n Hr _ Hlabel Hbang hostname labels Hex Hfinal.
  apply (no_exception_rule_walk _ _ _ Hplain_n Hn) in Hex.
  apply (no_suffix_rule_walk _ _ _ Hplain Hp) in Hfinal.
  pose proof (suffixes_sentinel_ok _ _ Hp) as Hokp.
  pose proof (suffixes_sentinel_ok _ _ Hn) as Hokn.
  pose proof (suffixes_root _ _ Hplain Hp) as Hroot.
  assert (plain_rule r) as Hplain_r by by eapply Forall_forall in Hplain.
  assert (Str.split_on "." hostname = label :: r) as Hsplit.
  { apply split_on_joined; [done|]. eapply Forall_impl; [done|]. by intros ? [_ ?]. }
  assert (accept_this_key ∉ labels) as Hnot.
  { unfold labels. rewrite elem_of_reverse.
    apply not_elem_of_cons. split; [done|]. by destruct Hplain_r. }
  assert ("" ∉ labels) as Hnonempty.
  { unfold labels. rewrite elem_of_reverse. intros Hin.
    rewrite Forall_forall in Hlabel. by destruct (Hlabel _ Hin). }
  rewrite get_domain_eq, Hsplit. fold labels. cbv zeta.
  destruct (negative_loop_total labels [] [] [subrule n] (good_root n Hokn) Hnot)
    as [[? _]|[_ [st Hneg]]]; [done|].
  unfold check_negative. rewrite Hneg. cbn [mbind Exec_bind].
  rewrite (Hex st Hneg). cbn [length]. rewrite bool_decide_eq_true_2 by done.
  cbn [negb].
  destruct (positive_part_good p labels Hokp Hnot) as (lg & tl & Hpos & ->).
  rewrite Hfinal. cbn [finish for_each mbind Exec_bind].
  apply positive_loop_Next in Hpos as (_ & _ & Hlg).
  assert (length labels = S (length r)) as Hlen
    by (unfold labels; by rewrite length_reverse).
  assert (labels = reverse r ++ [label]) as Hlabels by apply reverse_cons.
  assert (walk (take 0 labels) [subrule p] = [subrule p]) as H0 by done.
  assert (existsb terminal [subrule p] = false) as Hrootb.
  { cbn [existsb]. by rewrite terminal_subrule, Hroot. }
  assert ((2 ≤ length r)%nat →
          existsb terminal (walk (take (length r) labels) [subrule p]) = true)
    as Hrule.
  { intros H2. rewrite Hlabels, take_app_length'
      by by rewrite length_reverse.
    by eapply rule_matched. }
  assert (lg = labels ∨ (lg = [] ∧ length r = 1)) as [->|[-> Hone]].
  { destruct Hlg as [[-> Hno]|(j & Hj & -> & Hterm & Hno)].
    - right. split; [done|]. destruct (decide (2 ≤ length r)%nat) as [H2|H2].
      + rewrite Hno in Hrule by lia. by specialize (Hrule H2).
      + destruct Hplain_r as [? _]. destruct r; [done|]. simpl in *. lia.
    - left. simpl. destruct (decide (j = length r)) as [->|Hne].
      + rewrite <- Hlen. apply firstn_all.
      + destruct (decide (2 ≤ length r)%nat) as [H2|H2].
        * rewrite Hno in Hrule by lia. by specialize (Hrule H2).
        * assert (j = 0) as -> by lia. rewrite H0 in Hterm. congruence. }
  - rewrite bool_decide_eq_false_2 by (rewrite Hlen; lia). cbn [negb].
    unfold labels. by rewrite reversed_joined_reverse.
  - cbn [length]. rewrite bool_decide_eq_true_2 by done. cbn [negb].
    unfold labels, hostname. by destruct r as [|l0 [|l1 r]].
Qed.

Lemma label_before_rule_witness :
  get_domain spec_p spec_n "example.co.uk" = Return (Some "example.co.uk").
Proof.
  refine (label_before_rule spec_positive spec_negative spec_p spec_n
            ["co"; "uk"] "example" _ _ _ _ _ _ _ _ _ _).
  - vm_compute. reflexivity.
  - vm_compute. reflexivity.
  - by_decide.
  - by_decide.
  - by_decide.
  - by_decide.
  - repeat constructor; discriminate.
  - discriminate.
  - intros e i He Hi. apply list_elem_of_singleton in He as ->.
    destruct i as [|[|[|i]]]; [by_decide..|simpl in Hi; lia].
  - intros q Hq. revert q Hq. apply Forall_forall. by_decide.
Defined.

(** ** C2: the exception rule is the registrable domain *)

(** C2, counterexample.  With the rule list of the specification, which
    holds [*.ck] and [!www.ck], the hostname [foo.www.ck] resolves to
    [www.ck], not to [foo.www.ck]. *)
Lemma exception_is_not_the_hostname :
  ["*"; "ck"] ∈ (get_public_suffixes spec_text).1 ∧
  ["www"; "ck"] ∈ (get_public_suffixes spec_text).2 ∧
  resolve spec_text "foo.www.ck" = Some (Return (Some "www.ck")) ∧
  resolve spec_text "foo.www.ck" ≠ Some (Return (Some "foo.www.ck")).
Proof.
  split; [by_decide|]. split; [by_decide|]. split; by vm_compute.
Qed.

(** C2, amended.  For every rule set that contains the positive wildcard
    rule [*.ck] and the exception rule [!www.ck], resolving [foo.www.ck]
    returns [www.ck]: the exception overrides the wildcard, and the label
    sequence of the exception rule itself is the registrable domain. *)
Theorem exception_is_the_domain
    (positive negative : list rule) (p n : gmap string Rule) :
  suffixes positive = Some p →
  suffixes negative = Some n →
  ["*"; "ck"] ∈ positive →
  ["www"; "ck"] ∈ negative →
  get_domain p n "foo.www.ck" = Return (Some "www.ck").
Proof.
  intros _ Hn _ Hr.
  pose proof (suffixes_sentinel_ok _ _ Hn) as Hokn.
  assert (existsb terminal (walk ["ck"; "www"] [subrule n]) = true) as Hterm.
  { apply (rule_matched negative n ["www"; "ck"]); [done..| |simpl; lia].
    by_decide. }
  rewrite get_domain_eq.
  change (reverse (Str.split_on "." "foo.www.ck")) with ["ck"; "www"; "foo"].
  cbv zeta.
  destruct (negative_loop_total ["ck"; "www"; "foo"] [] [] [subrule n]
              (good_root n Hokn)) as [[Hin _]|[_ [[[lg tl] acc] Hneg]]].
  { by_decide. }
  { exfalso. revert Hin. by_decide. }
  unfold check_negative. rewrite Hneg. cbn [mbind Exec_bind fst].
  apply negative_loop_Next in Hneg
    as (_ & _ & _ & [[_ Hno]|(j & Hj & -> & _ & Hno)]).
  { specialize (Hno 2 ltac:(simpl; lia)). simpl take in Hno. congruence. }
  destruct (decide (j = 2)) as [->|Hne]; [done|].
  specialize (Hno 2 ltac:(simpl in *; lia)). simpl take in Hno. congruence.
Qed.

Lemma exception_is_the_domain_witness :
  get_domain spec_p spec_n "foo.www.ck" = Return (Some "www.ck").
Proof.
  apply (exception_is_the_domain spec_positive spec_negative).
  - vm_compute. reflexivity.
  - vm_compute. reflexivity.
  - by_decide.
  - by_decide.
Defined.

(** ** C3: which exception match wins *)

(** C3, counterexample.  With the exception rules [!b.c] and [!a.b.c] and
    the hostname [x.a.b.c], the scan as the claim words it stops at the
    first match, [b.c]; the generated loop goes on over every label, a
    later match overwrites [longest], and [a.b.c] is returned. *)
Lemma exception_scan_not_first :
  let text := "!b.c" +:+ nl +:+ "!a.b.c" in
  let n := default ∅ (suffixes (get_public_suffixes text).2) in
  let labels := reverse (Str.split_on "." "x.a.b.c") in
  first_exception_match labels [] [subrule n] = ["c"; "b"] ∧
  check_negative n labels
  = Next (["c"; "b"; "a"], labels, walk labels [subrule n]) ∧
  resolve text "x.a.b.c" = Some (Return (Some "a.b.c")) ∧
  resolve text "x.a.b.c" ≠ Some (Return (Some "b.c")).
Proof. cbv zeta. split_and!; by vm_compute. Qed.

(** C3, amended.  In phase 1, for the negative trie of any rule list and
    every sequence of non-empty labels without ["!"], the loop scans all
    the labels; each time some node of the matched-so-far set has a
    terminal-sentinel child, the accumulator built from the strictly
    earlier labels is recorded, a later record replacing an earlier one.
    Hence when several exception rules match, the last, longest match
    (farthest from the TLD) is the one kept. *)
Theorem exception_scan_longest
    (negative : list rule) (n : gmap string Rule) (labels : list string) :
  suffixes negative = Some n →
  accept_this_key ∉ labels →
  "" ∉ labels →
  ∃ longest,
    check_negative n labels
    = Next (longest, labels, matched n labels (length labels)) ∧
    ((longest = [] ∧
      ∀ i, i < length labels → existsb terminal (matched n labels i) = false)
     ∨ ∃ j, j < length labels ∧ longest = take j labels ∧
         existsb terminal (matched n labels j) = true ∧
         ∀ i, j < i < length labels →
              existsb terminal (matched n labels i) = false).
Proof.
  intros Hn Hbang Hempty.
  pose proof (suffixes_sentinel_ok _ _ Hn) as Hokn.
  destruct (negative_loop_total labels [] [] [subrule n] (good_root n Hokn) Hbang)
    as [[? _]|[_ [[[lg tl] acc] Hneg]]]; [done|].
  exists lg. unfold check_negative, matched. rewrite Hneg, firstn_all.
  apply negative_loop_Next in Hneg as (-> & -> & _ & Hlg).
  split; [done|]. destruct Hlg as [[-> Hno]|(j & Hj & -> & Hterm & Hno)]; eauto 10.
Qed.

Lemma exception_scan_longest_witness :
  ∃ longest,
    check_negative spec_n ["ck"; "www"; "foo"]
    = Next (longest, ["ck"; "www"; "foo"], matched spec_n ["ck"; "www"; "foo"] 3) ∧
    ((longest = [] ∧
      ∀ i, i < 3 → existsb terminal (matched spec_n ["ck"; "www"; "foo"] i) = false)
     ∨ ∃ j, j < 3 ∧ longest = take j ["ck"; "www"; "foo"] ∧
         existsb terminal (matched spec_n ["ck"; "www"; "foo"] j) = true ∧
         ∀ i, j < i < 3 →
              existsb terminal (matched spec_n ["ck"; "www"; "foo"] i) = false).
Proof.
  apply (exception_scan_longest spec_negative spec_n ["ck"; "www"; "foo"]).
  - vm_compute. reflexivity.
  - by_decide.
  - by_decide.
Defined.

(** ** C4: what a caller can tell apart *)

(** C4, counterexample.  With the rule list of the specification, a
    hostname with an empty label ([a..b]), a hostname that is a public
    suffix ([co.uk]) and a single label without rule ([localhost]) make
    [get_domain] return one and the same value, [nil]: the caller cannot
    tell the three failures apart. *)
Lemma failures_not_distinguishable :
  resolve spec_text "a..b" = Some (Return None) ∧
  resolve spec_text "co.uk" = Some (Return None) ∧
  resolve spec_text "localhost" = Some (Return None) ∧
  ¬ (resolve spec_text "a..b" ≠ resolve spec_text "co.uk" ∧
     resolve spec_text "co.uk" ≠ resolve spec_text "localhost" ∧
     resolve spec_text "a..b" ≠ resolve spec_text "localhost").
Proof.
  split_and!; [by vm_compute..|]. intros (H & _). apply H. by vm_compute.
Qed.

(** C4, amended.  For the tries built from any rule lists and every
    hostname without a label ["!"], [get_domain] returns a value of type
    [String?], never a failed assertion: either a registrable domain or
    [nil].  An empty label, a hostname that the positive walk ends on as a
    public suffix, and a hostname of fewer than two labels without sentinel
    key at the root all yield that same [nil]. *)
Theorem failures_share_nil
    (positive negative : list rule) (p n : gmap string Rule) (hostname : string) :
  suffixes positive = Some p →
  suffixes negative = Some n →
  accept_this_key ∉ Str.split_on "." hostname →
  let labels := reverse (Str.split_on "." hostname) in
  ∃ r : option string,
    get_domain p n hostname = Return r ∧
    ("" ∈ labels → r = None) ∧
    (no_exception n labels →
     existsb terminal (matched p labels (length labels)) = true → r = None) ∧
    (p !! accept_this_key = None → length labels < 2 → r = None).
Proof.
  intros Hp Hn Hbang labels.
  pose proof (suffixes_sentinel_ok _ _ Hp) as Hokp.
  pose proof (suffixes_sentinel_ok _ _ Hn) as Hokn.
  destruct (get_domain_returns p n hostname Hokp Hokn Hbang) as [r Hr].
  exists r. split; [done|]. split_and!.
  - intros Hempty. rewrite get_domain_eq in Hr. fold labels in Hr. cbv zeta in Hr.
    assert (accept_this_key ∉ labels) as Hbang'
      by (unfold labels; by rewrite elem_of_reverse).
    destruct (negative_loop_total labels [] [] [subrule n] (good_root n Hokn) Hbang')
      as [[_ Hneg]|[? _]]; [|done].
    unfold check_negative in Hr. rewrite Hneg in Hr. by injection Hr as <-.
  - intros Hex Hterm. unfold matched in Hterm. rewrite firstn_all in Hterm.
    rewrite (public_suffix_nil p n hostname) in Hr; try done.
    + by injection Hr as <-.
    + by rewrite elem_of_reverse.
  - intros Hroot Hlen.
    destruct (Str.split_on "." hostname) as [|l0 [|l1 ls]] eqn:Hsplit.
    + by apply split_on_nonempty in Hsplit.
    + rewrite (single_label_nil p n hostname l0) in Hr; try done.
      * by injection Hr as <-.
      * intros ->. apply Hbang. left.
    + unfold labels in Hlen. rewrite length_reverse in Hlen. simpl in Hlen. lia.
Qed.

Lemma failures_share_nil_witness :
  ∃ r : option string,
    get_domain spec_p spec_n "a..b" = Return r ∧
    ("" ∈ reverse (Str.split_on "." "a..b") → r = None) ∧
    (no_exception spec_n (reverse (Str.split_on "." "a..b")) →
     existsb terminal
       (matched spec_p (reverse (Str.split_on "." "a..b"))
          (length (reverse (Str.split_on "." "a..b")))) = true → r = None) ∧
    (spec_p !! accept_this_key = None →
     length (reverse (Str.split_on "." "a..b")) < 2 → r = None).
Proof.
  apply (failures_share_nil spec_positive spec_negative spec_p spec_n "a..b").
  - vm_compute. reflexivity.
  - vm_compute. reflexivity.
  - by_decide.
Defined.

(** ** C9: the shape of a returned domain *)

Lemma reverse_take_reverse {A} (l : list A) j :
  reverse (take j (reverse l)) = drop (length l - j) l.
Proof. by rewrite take_reverse, reverse_involutive. Qed.

(** C9, counterexample.  With the exception rules [!uk] and [!x.uk], the
    hostname [co.uk] resolves to the string [uk], which has one label. *)
Lemma returned_domain_of_one_label :
  resolve ("!uk" +:+ nl +:+ "!x.uk") "co.uk" = Some (Return (Some "uk")) ∧
  ¬ (2 ≤ length (Str.split_on "." "uk"))%nat.
Proof. split; [by vm_compute|]. simpl. lia. Qed.

(** C9, amended.  For all tries and every hostname, if the resolver returns
    a string, that string is the dot-joined form of a non-empty contiguous
    suffix of the label sequence of the hostname, in the original order
    (possibly the whole hostname), and no label of the hostname is empty.
    With the tries built from rules of the data model, the suffix has at
    least two labels, unless it is the single label that a single-label
    exception rule matches.  (For any tries: at least two labels whenever
    it is not an exception match of phase 1 and the root of the positive
    trie holds no sentinel key.) *)
Theorem returned_domain_shape
    (p n : gmap string Rule) (hostname s : string) :
  get_domain p n hostname = Return (Some s) →
  let labels := reverse (Str.split_on "." hostname) in
  ∃ suf : list string,
    suf `suffix_of` Str.split_on "." hostname ∧
    (1 ≤ length suf)%nat ∧
    s = Str.joined "." suf ∧
    ("" ∉ Str.split_on "." hostname) ∧
    (no_exception n labels → p !! accept_this_key = None → (2 ≤ length suf)%nat) ∧
    (∀ positive negative,
       suffixes positive = Some p → suffixes negative = Some n →
       Forall plain_rule positive → Forall plain_rule negative →
       (2 ≤ length suf)%nat ∨
       ∃ e, e ∈ negative ∧ length e = 1 ∧ rule_matches e (reverse suf)).
Proof.
  intros H labels. rewrite get_domain_eq in H. fold labels in H. cbv zeta in H.
  assert (Str.split_on "." hostname = reverse labels) as Hcs
    by (unfold labels; by rewrite reverse_involutive).
  rewrite Hcs. clearbody labels. clear Hcs.
  destruct (check_negative n labels) as [|r|[[lg tl] acc]] eqn:Hneg; [done| |].
  { apply negative_loop_Return in Hneg as ->. done. }
  cbn [mbind Exec_bind fst] in H.
  pose proof Hneg as (_ & _ & Hempty & Hlg)%negative_loop_Next.
  rewrite <- elem_of_reverse in Hempty.
  case_bool_decide as Hlen; cbn [negb] in H.
  - (* phases 2 and 3 *)
    unfold positive_part in H.
    destruct (check_positive p labels) as [|r|[[lg2 tl2] acc2]] eqn:Hpos; [done| |].
    { by apply positive_loop_Return in Hpos. }
    cbn [mbind Exec_bind finish] in H.
    destruct (for_each tld_check acc2 tt) as [|r|[]] eqn:Htld; [done| |].
    { apply tld_check_Return in Htld as ->. done. }
    cbn [mbind Exec_bind] in H.
    apply positive_loop_Next in Hpos as (_ & _ & Hlg2).
    case_bool_decide as Hlen2; cbn [negb] in H.
    + destruct labels as [|l0 [|l1 rest]]; try done. injection H as <-.
      exists [l1; l0]. split_and!; [|simpl; lia|done|done|simpl; lia|].
      * rewrite !reverse_cons, <- app_assoc. by apply suffix_app_r.
      * intros. left. simpl. lia.
    + injection H as <-.
      destruct Hlg2 as [[-> _]|(j & Hj & -> & Hterm & _)]; [done|].
      exists (reverse (take (S j) labels)). unfold reversed_joined.
      assert (length (reverse (take (S j) labels)) = S j) as Hl
        by (rewrite length_reverse, length_take; lia).
      assert (p !! accept_this_key = None → (2 ≤ S j)%nat) as Hroot2.
      { intros Hroot. destruct j; [|lia]. exfalso.
        change (walk (take 0 labels) [subrule p]) with [subrule p] in Hterm.
        cbn [existsb] in Hterm. rewrite terminal_subrule, Hroot in Hterm. done. }
      split_and!; [|lia|done|done| |].
      * rewrite <- (reverse_involutive labels) at 1.
        rewrite reverse_take_reverse. apply suffix_drop.
      * intros _ Hroot. rewrite Hl. by apply Hroot2.
      * intros positive negative Hp _ Hplain _. left. rewrite Hl.
        apply Hroot2. by eapply suffixes_root.
  - (* phase 1 *)
    injection H as <-.
    destruct Hlg as [[-> _]|(j & Hj & -> & Hterm & _)]; [done|].
    exists (reverse (take j labels)). unfold reversed_joined.
    assert (length (reverse (take j labels)) = j) as Hl
      by (rewrite length_reverse, length_take; lia).
    assert (j ≠ 0) by (intros ->; by apply Hlen).
    split_and!; [|lia|done|done| |].
    + rewrite <- (reverse_involutive labels) at 1.
      rewrite reverse_take_reverse. apply suffix_drop.
    + intros Hex _. specialize (Hex _ Hneg). simpl in Hex. by rewrite Hex in Hlen.
    + intros positive negative _ Hn _ Hplain. rewrite Hl, reverse_involutive.
      destruct (decide (2 ≤ j)%nat) as [|Hj1]; [by left|right].
      destruct (suffixes_sound _ _ _ Hplain Hn Hterm) as (e & He & Hmatch).
      exists e. split_and!; [done| |done].
      apply Forall2_length in Hmatch.
      rewrite length_reverse, length_take in Hmatch. lia.
Qed.

Lemma returned_domain_shape_witness :
  ∃ suf : list string,
    suf `suffix_of` Str.split_on "." "www.example.co.uk" ∧
    (1 ≤ length suf)%nat ∧
    "example.co.uk" = Str.joined "." suf ∧
    ("" ∉ Str.split_on "." "www.example.co.uk") ∧
    (no_exception spec_n (reverse (Str.split_on "." "www.example.co.uk")) →
     spec_p !! accept_this_key = None → (2 ≤ length suf)%nat) ∧
    (∀ positive negative,
       suffixes positive = Some spec_p → suffixes negative = Some spec_n →
       Forall plain_rule positive → Forall plain_rule negative →
       (2 ≤ length suf)%nat ∨
       ∃ e, e ∈ negative ∧ length e = 1 ∧ rule_matches e (reverse suf)).
Proof.
  apply (returned_domain_shape spec_p spec_n "www.example.co.uk" "example.co.uk").
  vm_compute. reflexivity.
Defined.

(** ** C1: where the pruning pass is applied *)

Lemma insert_rule_single_label l r t t' :
  l ≠ accept_this_key →
  (last r = Some l → r = [l]) →
  insert_rule (reverse r) t = Some t' →
  t !! l = None ∨ t !! l = Some accept_dict →
  (t' !! l = None ∨ t' !! l = Some accept_dict) ∧
  (r = [l] ∨ t !! l = Some accept_dict → t' !! l = Some accept_dict).
Proof.
  intros Hl Hlast Hins Ht. destruct (decide (last r = Some l)) as [Hr|Hr].
  - rewrite (Hlast Hr) in Hins. change (reverse [l]) with [l] in Hins.
    assert (t' !! l = Some accept_dict) as ->; [|by auto].
    simpl in Hins. destruct Ht as [Ht|Ht]; rewrite Ht in Hins.
    + injection Hins as <-. by rewrite lookup_insert_eq, insert_empty.
    + injection Hins as <-. by rewrite lookup_insert_eq, insert_singleton_eq.
  - assert (t' !! l = t !! l) as ->.
    { rewrite <- head_reverse in Hr. destruct (reverse r) as [|k ks].
      - simplify_eq/=. by rewrite lookup_insert_ne.
      - eapply insert_rule_lookup_ne; [done|]. intros ->. by apply Hr. }
    split; [done|]. intros [->|?]; [|done]. by destruct Hr.
Qed.

(** A single-label rule under which no longer rule hangs is stored as the
    bare dictionary [{'!': True}] at the root. *)
Lemma insert_rules_single_label l rules t t' :
  l ≠ accept_this_key →
  (∀ r, r ∈ rules → last r = Some l → r = [l]) →
  insert_rules rules t = Some t' →
  t !! l = None ∨ t !! l = Some accept_dict →
  (t' !! l = None ∨ t' !! l = Some accept_dict) ∧
  ([l] ∈ rules ∨ t !! l = Some accept_dict → t' !! l = Some accept_dict).
Proof.
  intros Hl. revert t. induction rules as [|r0 rs IH]; intros t Hall Hins Ht.
  - simplify_eq/=. split; [done|]. intros [Hin|?]; [|done]. by apply elem_of_nil in Hin.
  - simpl in Hins.
    destruct (insert_rule (reverse r0) t) as [t1|] eqn:E; simplify_eq/=.
    destruct (insert_rule_single_label l r0 t t1) as [Ht1 Hnew]; [done| |done..|].
    { apply Hall. left. }
    destruct (IH t1) as [Ht' Hfin]; [|done..|].
    { intros r Hr. apply Hall. by right. }
    split; [done|]. intros [[<-|Hin]%elem_of_cons|Hleaf]; auto.
Qed.

(** The defect in general.  [main] passes the tree of the exception rules
    through [filter_top_rules] as it does the tree of the positive rules:
    a single-label exception rule under which no longer exception rule
    hangs is stored as [{'!': True}] at the root and is gone from the
    negative trie that is emitted. *)
Lemma single_label_exception_dropped (text : string)
    (p n : gmap string Rule) (l : string) :
  main_tries text = Some (p, n) →
  l ≠ accept_this_key →
  [l] ∈ (get_public_suffixes text).2 →
  (∀ r, r ∈ (get_public_suffixes text).2 → last r = Some l → r = [l]) →
  n !! l = None.
Proof.
  unfold main_tries. destruct (get_public_suffixes text) as [positive negative].
  cbn [fst snd]. intros Hmain Hl Hin Hall.
  destruct (suffixes positive) as [p0|]; [|done].
  destruct (suffixes negative) as [n0|] eqn:Hn; [|done].
  cbn in Hmain. injection Hmain as -> ->.
  apply suffixes_inv in Hn as (tn & Htn & ->).
  destruct (insert_rules_single_label l negative ∅ tn Hl Hall Htn) as [_ Hleaf].
  { left. apply lookup_empty. }
  rewrite filter_top_rules_lookup, Hleaf by auto.
  unfold pruned. by rewrite (proj2 (is_accept_dict_spec accept_dict)).
Qed.

(** C1, the code at the failing input.  The claim says that the pruning
    pass is never applied to the negative trie, so that every single-label
    exception rule is still in it.  For the rule list [!foo] the tree built
    from the exception rules is [{'foo': {'!': True}}], and [main] emits an
    empty negative trie: [a.foo] then resolves to [a.foo] by the default
    rule, where the tree as built gives the exception [foo].  The comment
    of [filter_top_rules] gives the reason for removing an entry, that it
    is covered by the implicit [*] rule; this is true of a positive rule
    and not of an exception rule.  A sibling case shows what is meant: with
    [!uk] and [!x.uk] the entry [uk] has a further child, is kept, and
    [a.uk] resolves to [uk]. *)
Theorem single_label_exception_lost :
  (get_public_suffixes "!foo").2 = [["foo"]] ∧
  rules_to_tree [["foo"]] = Some {["foo" := accept_dict]} ∧
  main_tries "!foo" = Some (∅, ∅) ∧
  resolve "!foo" "a.foo" = Some (Return (Some "a.foo")) ∧
  get_domain ∅ {["foo" := accept_dict]} "a.foo" = Return (Some "foo") ∧
  resolve ("!uk" +:+ nl +:+ "!x.uk") "a.uk" = Some (Return (Some "uk")).
Proof. split_and!; by vm_compute. Qed.

(** * Further properties of the code *)

(** ** The resolver and the rules *)

Lemma rule_matched_labels rules p r labels :
  suffixes rules = Some p → r ∈ rules → plain_rule r → (2 ≤ length r)%nat →
  rule_matches r labels →
  existsb terminal (walk labels [subrule p]) = true.
Proof.
  intros (t & Ht & ->)%suffixes_inv Hr Hplain Hlen Hmatch.
  eapply terminal_at_walk; [exact Hmatch|].
  apply terminal_at_pruned; [done..|].
  eapply rules_to_tree_terminal_at; [done..|]. by destruct Hplain.
Qed.

Lemma rule_matches_length r labels :
  rule_matches r labels → length labels = length r.
Proof.
  intros H. apply Forall2_length in H. by rewrite length_reverse in H.
Qed.

Lemma last_labels_take k hostname :
  reversed_joined (take k (reverse (Str.split_on "." hostname)))
  = last_labels k hostname.
Proof. unfold reversed_joined, last_labels. by rewrite reverse_take_reverse. Qed.

Lemma no_exception_empty labels : no_exception ∅ labels.
Proof.
  intros [[lg tl] acc] Hneg. simpl.
  apply negative_loop_Next in Hneg
    as (_ & _ & _ & [[-> _]|(j & _ & _ & Hterm & _)]); [done|].
  apply terminal_walk_sound in Hterm as (ks & _ & Hterm).
  by apply terminal_at_empty in Hterm.
Qed.

(** The exception phase, when it hands over, leaves the answer to the
    positive phase alone. *)
Lemma get_domain_handed_over p n hostname :
  sentinel_ok n →
  let labels := reverse (Str.split_on "." hostname) in
  accept_this_key ∉ labels → ("" ∉ labels) → no_exception n labels →
  get_domain p n hostname = positive_part p labels.
Proof.
  intros Hn labels Hbang Hempty Hex. rewrite get_domain_eq. fold labels. cbv zeta.
  destruct (negative_loop_total labels [] [] [subrule n] (good_root n Hn) Hbang)
    as [[? _]|[_ [st Hneg]]]; [done|].
  unfold check_negative. rewrite Hneg. cbn [mbind Exec_bind].
  rewrite (Hex st Hneg). cbn [length]. by rewrite bool_decide_eq_true_2.
Qed.

(** The answer of the positive phase when the walk does not end on a
    terminal node: the default, or the accumulator after the last match. *)
Lemma positive_part_result p labels :
  sentinel_ok p → accept_this_key ∉ labels →
  existsb terminal (walk labels [subrule p]) = false →
  ((∀ i, i < length labels → existsb terminal (matched p labels i) = false) ∧
   positive_part p labels =
   match labels with
   | l0 :: l1 :: _ => Return (Some (l1 +:+ "." +:+ l0))
   | _ => Return None
   end)
  ∨ ∃ j, j < length labels ∧
      existsb terminal (matched p labels j) = true ∧
      (∀ i, j < i < length labels → existsb terminal (matched p labels i) = false) ∧
      positive_part p labels = Return (Some (reversed_joined (take (S j) labels))).
Proof.
  intros Hp Hbang Hfinal.
  destruct (positive_part_good p labels Hp Hbang) as (lg & tl & Hpos & ->).
  rewrite Hfinal. cbn [finish for_each mbind Exec_bind].
  apply positive_loop_Next in Hpos
    as (_ & _ & [[-> Hno]|(j & Hj & -> & Hterm & Hno)]).
  - left. split; [done|]. cbn [length]. by rewrite bool_decide_eq_true_2.
  - right. exists j. split_and!; [done..|]. simpl app.
    rewrite bool_decide_eq_false_2; [done|].
    rewrite length_take. lia.
Qed.

Lemma matched_all p labels :
  matched p labels (length labels) = walk labels [subrule p].
Proof. unfold matched. by rewrite firstn_all. Qed.

Lemma last_two_labels hostname l0 l1 rest :
  reverse (Str.split_on "." hostname) = l0 :: l1 :: rest →
  l1 +:+ "." +:+ l0 = last_labels 2 hostname.
Proof.
  intros H. rewrite <- last_labels_take, H. done.
Qed.

(** The rule with the most labels prevails: when a positive rule matches the
    last labels of a hostname that has more labels than the rule, and no
    positive rule matches more labels (the whole hostname included), and no
    exception rule applies, the registrable domain is the labels matched
    by the rule and the one label before them. *)
Theorem longest_rule_prevails
    (positive negative : list rule) (p n : gmap string Rule)
    (hostname : string) (r : rule) :
  suffixes positive = Some p →
  suffixes negative = Some n →
  Forall plain_rule positive →
  Forall plain_rule negative →
  let labels := reverse (Str.split_on "." hostname) in
  ("" ∉ labels) →
  accept_this_key ∉ labels →
  no_exception_rule negative labels →
  r ∈ positive →
  length r < length labels →
  rule_matches r (take (length r) labels) →
  (∀ q i, q ∈ positive → length r < i ≤ length labels →
          ¬ rule_matches q (take i labels)) →
  get_domain p n hostname = Return (Some (last_labels (S (length r)) hostname)).
Proof.
  intros Hp Hn Hplain Hplain_n labels Hempty Hbang Hex Hr Hlen Hmatch Hlonger.
  pose proof (suffixes_sentinel_ok _ _ Hp) as Hokp.
  pose proof (suffixes_sentinel_ok _ _ Hn) as Hokn.
  pose proof (suffixes_root _ _ Hplain Hp) as Hroot.
  assert (plain_rule r) as Hplain_r by by eapply Forall_forall in Hplain.
  apply (no_exception_rule_walk _ _ _ Hplain_n Hn) in Hex.
  rewrite (get_domain_handed_over p n hostname Hokn Hbang Hempty Hex). fold labels.
  assert (labels = reverse (Str.split_on "." hostname)) as Hlab by done.
  clearbody labels.
  assert (∀ i, length r < i ≤ length labels →
               existsb terminal (matched p labels i) = false) as Hlater.
  { intros i Hi. destruct (existsb terminal _) eqn:Hterm; [|done].
    destruct (suffixes_sound _ _ _ Hplain Hp Hterm) as (q & Hq & Hqm).
    by destruct (Hlonger q i Hq Hi). }
  assert (existsb terminal (matched p labels 0) = false) as Hzero.
  { change (matched p labels 0) with [subrule p]. cbn [existsb].
    by rewrite terminal_subrule, Hroot. }
  assert (length r ≠ 0) as Hr0.
  { destruct Hplain_r as [? _]. by destruct r. }
  destruct (positive_part_result p labels Hokp Hbang)
    as [[Hno ->]|(j & Hj & Hterm & Hno & ->)].
  { rewrite <- matched_all. apply Hlater. lia. }
  - destruct (decide (2 ≤ length r)%nat) as [H2|H2].
    + specialize (Hno (length r) Hlen). unfold matched in Hno.
      by rewrite (rule_matched_labels positive p r) in Hno.
    + assert (length r = 1) as -> by lia.
      destruct labels as [|l0 [|l1 rest]]; [simpl in Hlen; lia..|].
      by erewrite last_two_labels.
  - assert (j = length r) as ->; [|by rewrite Hlab, last_labels_take].
    destruct (decide (j = length r)) as [|Hne]; [done|]. exfalso.
    destruct (decide (length r < j)) as [Hgt|Hle].
    { rewrite Hlater in Hterm by lia. done. }
    destruct (decide (2 ≤ length r)%nat) as [H2|H2].
    + specialize (Hno (length r) ltac:(lia)). unfold matched in Hno.
      by rewrite (rule_matched_labels positive p r) in Hno.
    + assert (j = 0) as -> by lia. congruence.
Qed.

Lemma longest_rule_prevails_witness :
  get_domain spec_p spec_n "www.example.co.uk"
  = Return (Some (last_labels 3 "www.example.co.uk")).
Proof.
  refine (longest_rule_prevails spec_positive spec_negative spec_p spec_n
            "www.example.co.uk" ["co"; "uk"] _ _ _ _ _ _ _ _ _ _ _).
  - vm_compute. reflexivity.
  - vm_compute. reflexivity.
  - by_decide.
  - by_decide.
  - by_decide.
  - by_decide.
  - intros e i He Hi. apply list_elem_of_singleton in He as ->.
    destruct i as [|[|[|[|i]]]]; [by_decide..|simpl in Hi; lia].
  - by_decide.
  - simpl. lia.
  - by_decide.
  - intros q i Hq Hi. revert q Hq. apply Forall_forall.
    destruct i as [|[|[|[|[|i]]]]]; simpl in Hi; try lia; by_decide.
Defined.

(** An exception rule prevails over every positive rule: when an exception
    rule of two labels or more matches the last labels of a hostname that
    has more labels than the rule, and no exception rule matches more
    labels short of the whole hostname, the registrable domain is the labels
    matched by the exception rule, whatever the positive trie holds. *)
Theorem exception_prevails
    (negative : list rule) (p n : gmap string Rule)
    (hostname : string) (e : rule) :
  suffixes negative = Some n →
  Forall plain_rule negative →
  let labels := reverse (Str.split_on "." hostname) in
  ("" ∉ labels) →
  accept_this_key ∉ labels →
  e ∈ negative →
  (2 ≤ length e)%nat →
  length e < length labels →
  rule_matches e (take (length e) labels) →
  (∀ q i, q ∈ negative → length e < i < length labels →
          ¬ rule_matches q (take i labels)) →
  get_domain p n hostname = Return (Some (last_labels (length e) hostname)).
Proof.
  intros Hn Hplain labels Hempty Hbang He H2 Hlen Hmatch Hlonger.
  pose proof (suffixes_sentinel_ok _ _ Hn) as Hokn.
  assert (plain_rule e) as Hplain_e by by eapply Forall_forall in Hplain.
  rewrite get_domain_eq. fold labels. cbv zeta.
  assert (labels = reverse (Str.split_on "." hostname)) as Hlab by done.
  clearbody labels.
  destruct (negative_loop_total labels [] [] [subrule n] (good_root n Hokn) Hbang)
    as [[? _]|[_ [[[lg tl] acc] Hneg]]]; [done|].
  unfold check_negative. rewrite Hneg. cbn [mbind Exec_bind fst].
  pose proof (rule_matched_labels negative n e _ Hn He Hplain_e H2 Hmatch) as Hterm.
  apply negative_loop_Next in Hneg
    as (_ & _ & _ & [[_ Hno]|(j & Hj & -> & Hj_term & Hno)]).
  { by rewrite (Hno (length e) Hlen) in Hterm. }
  assert (j = length e) as ->.
  { destruct (decide (j = length e)) as [|Hne]; [done|]. exfalso.
    destruct (decide (length e < j)) as [Hgt|Hle].
    - destruct (suffixes_sound _ _ _ Hplain Hn Hj_term) as (q & Hq & Hqm).
      by destruct (Hlonger q j Hq ltac:(lia)).
    - by rewrite (Hno (length e) ltac:(lia)) in Hterm. }
  simpl app. rewrite bool_decide_eq_false_2 by (rewrite length_take; lia).
  cbn [negb]. by rewrite Hlab, last_labels_take.
Qed.

Lemma exception_prevails_witness :
  get_domain spec_p spec_n "a.b.www.ck" = Return (Some (last_labels 2 "a.b.www.ck")).
Proof.
  refine (exception_prevails spec_negative spec_p spec_n "a.b.www.ck"
            ["www"; "ck"] _ _ _ _ _ _ _ _ _).
  - vm_compute. reflexivity.
  - by_decide.
  - by_decide.
  - by_decide.
  - by_decide.
  - simpl. lia.
  - simpl. lia.
  - by_decide.
  - intros q i Hq Hi. revert q Hq. apply Forall_forall.
    destruct i as [|[|[|[|i]]]]; simpl in Hi; try lia; by_decide.
Defined.

(** The implicit rule: when no positive rule of two labels or more matches
    any run of last labels of the hostname and no exception rule applies, a
    hostname of two labels or more resolves to its last two labels, and a
    hostname of one label to [nil]; single-label rules, pruned or not, do
    not change this. *)
Theorem default_rule
    (positive negative : list rule) (p n : gmap string Rule) (hostname : string) :
  suffixes positive = Some p →
  suffixes negative = Some n →
  Forall plain_rule positive →
  Forall plain_rule negative →
  let labels := reverse (Str.split_on "." hostname) in
  ("" ∉ labels) →
  accept_this_key ∉ labels →
  no_exception_rule negative labels →
  (∀ q i, q ∈ positive → (2 ≤ i ≤ length labels)%nat →
          ¬ rule_matches q (take i labels)) →
  get_domain p n hostname =
  if decide (2 ≤ length labels)%nat then Return (Some (last_labels 2 hostname))
  else Return None.
Proof.
  intros Hp Hn Hplain Hplain_n labels Hempty Hbang Hex Hnone.
  pose proof (suffixes_sentinel_ok _ _ Hp) as Hokp.
  pose proof (suffixes_sentinel_ok _ _ Hn) as Hokn.
  pose proof (suffixes_root _ _ Hplain Hp) as Hroot.
  case_decide as Hlen.
  - apply (no_exception_rule_walk _ _ _ Hplain_n Hn) in Hex.
    rewrite (get_domain_handed_over p n hostname Hokn Hbang Hempty Hex). fold labels.
    assert (labels = reverse (Str.split_on "." hostname)) as Hlab by done.
    clearbody labels.
    assert (∀ i, (2 ≤ i ≤ length labels)%nat →
                 existsb terminal (matched p labels i) = false) as Hlater.
    { intros i Hi. destruct (existsb terminal _) eqn:Hterm; [|done].
      destruct (suffixes_sound _ _ _ Hplain Hp Hterm) as (q & Hq & Hqm).
      by destruct (Hnone q i Hq Hi). }
    assert (existsb terminal (matched p labels 0) = false) as Hzero.
    { change (matched p labels 0) with [subrule p]. cbn [existsb].
      by rewrite terminal_subrule, Hroot. }
    destruct (positive_part_result p labels Hokp Hbang)
      as [[Hno ->]|(j & Hj & Hterm & Hno & ->)].
    { rewrite <- matched_all. apply Hlater. lia. }
    + destruct labels as [|l0 [|l1 rest]]; [simpl in Hlen; lia..|].
      by erewrite last_two_labels.
    + assert (j = 1) as ->; [|by rewrite Hlab, last_labels_take].
      destruct j as [|[|j]]; [congruence|done|].
      rewrite Hlater in Hterm by lia. done.
  - destruct (Str.split_on "." hostname) as [|l0 [|l1 ls]] eqn:Hsplit.
    + by apply split_on_nonempty in Hsplit.
    + eapply single_label_nil; [done..|]. intros ->. apply Hbang.
      unfold labels. rewrite elem_of_reverse. left.
    + unfold labels in Hlen. rewrite length_reverse in Hlen. simpl in Hlen. lia.
Qed.

Lemma default_rule_witness :
  get_domain spec_p spec_n "www.example.com"
  = if decide (2 ≤ length (reverse (Str.split_on "." "www.example.com")))%nat
    then Return (Some (last_labels 2 "www.example.com")) else Return None.
Proof.
  refine (default_rule spec_positive spec_negative spec_p spec_n
            "www.example.com" _ _ _ _ _ _ _ _).
  - vm_compute. reflexivity.
  - vm_compute. reflexivity.
  - by_decide.
  - by_decide.
  - by_decide.
  - by_decide.
  - intros e i He Hi. apply list_elem_of_singleton in He as ->.
    destruct i as [|[|[|i]]]; [by_decide..|simpl in Hi; lia].
  - intros q i Hq Hi. revert q Hq. apply Forall_forall.
    destruct i as [|[|[|[|i]]]]; simpl in Hi; try lia; by_decide.
Defined.

(** Exception rules act through proper suffixes only: when no exception
    rule matches a proper suffix of the hostname, the answer is the one
    that the positive trie alone gives, even if an exception rule matches
    the whole hostname. *)
Theorem exceptions_need_a_proper_suffix
    (negative : list rule) (p n : gmap string Rule) (hostname : string) :
  suffixes negative = Some n →
  Forall plain_rule negative →
  let labels := reverse (Str.split_on "." hostname) in
  accept_this_key ∉ labels →
  no_exception_rule negative labels →
  get_domain p n hostname = get_domain p ∅ hostname.
Proof.
  intros Hn Hplain labels Hbang Hex.
  pose proof (suffixes_sentinel_ok _ _ Hn) as Hokn.
  apply (no_exception_rule_walk _ _ _ Hplain Hn) in Hex.
  destruct (decide ("" ∈ labels)) as [Hempty|Hempty].
  - rewrite !get_domain_eq. fold labels. cbv zeta. unfold check_negative.
    destruct (negative_loop_total labels [] [] [subrule n] (good_root n Hokn) Hbang)
      as [[_ ->]|[? _]]; [|done].
    destruct (negative_loop_total labels [] [] [subrule ∅]
                (good_root ∅ sentinel_ok_empty) Hbang) as [[_ ->]|[? _]]; done.
  - rewrite (get_domain_handed_over p n hostname Hokn Hbang Hempty Hex).
    rewrite (get_domain_handed_over p ∅ hostname sentinel_ok_empty Hbang Hempty);
      [done|apply no_exception_empty].
Qed.

Lemma exceptions_need_a_proper_suffix_witness :
  get_domain spec_p spec_n "www.ck" = get_domain spec_p ∅ "www.ck".
Proof.
  refine (exceptions_need_a_proper_suffix spec_negative spec_p spec_n "www.ck" _ _ _ _).
  - vm_compute. reflexivity.
  - by_decide.
  - by_decide.
  - intros e i He Hi. apply list_elem_of_singleton in He as ->.
    destruct i as [|[|i]]; [by_decide..|simpl in Hi; lia].
Defined.

(** ** The builder *)

Lemma tree_holds_path rules t keys :
  Forall (λ r : rule, accept_this_key ∉ r) rules →
  rules_to_tree rules = Some t →
  terminal_at keys t → reverse keys ∈ rules.
Proof.
  intros Hbang Ht Hterm.
  destruct (insert_rules_terminal_at_inv rules ∅ t keys Hbang Ht Hterm)
    as [?|Hempty]; [done|].
  by apply terminal_at_empty in Hempty.
Qed.

(** The tree holds exactly the rules: a complete rule ends at the node
    reached by a list of keys if and only if these keys, read backwards,
    are a rule of the list. *)
Theorem tree_holds_the_rules
    (rules : list rule) (t : gmap string Rule) (keys : list string) :
  Forall (λ r, accept_this_key ∉ r) rules →
  rules_to_tree rules = Some t →
  terminal_at keys t ↔ reverse keys ∈ rules.
Proof.
  intros Hbang Ht. split.
  - by apply tree_holds_path.
  - intros Hin. rewrite <- (reverse_involutive keys).
    eapply rules_to_tree_terminal_at; [done..|].
    rewrite Forall_forall in Hbang. by apply Hbang.
Qed.

Lemma tree_holds_the_rules_witness :
  terminal_at ["uk"; "co"] (default ∅ (rules_to_tree spec_positive))
  ↔ reverse ["uk"; "co"] ∈ spec_positive.
Proof.
  apply (tree_holds_the_rules spec_positive).
  - by_decide.
  - vm_compute. reflexivity.
Defined.

(** The walk of the resolver finds a terminal node exactly when a rule
    matches the labels consumed, wildcards included; in the pruned trie
    this holds for two labels or more. *)
Theorem walk_finds_the_matching_rules
    (rules : list rule) (t : gmap string Rule) (labels : list string) :
  Forall plain_rule rules →
  rules_to_tree rules = Some t →
  (existsb terminal (walk labels [subrule t]) = true
   ↔ ∃ r, r ∈ rules ∧ rule_matches r labels)
  ∧ ((2 ≤ length labels)%nat →
     (existsb terminal (walk labels [subrule (filter_top_rules t)]) = true
      ↔ ∃ r, r ∈ rules ∧ rule_matches r labels)).
Proof.
  intros Hplain Ht.
  assert (Forall (λ r : rule, accept_this_key ∉ r) rules) as Hbang.
  { eapply Forall_impl; [done|]. by intros r [_ ?]. }
  assert (suffixes rules = Some (filter_top_rules t)) as Hp
    by (unfold suffixes; by rewrite Ht).
  split; [split|intros Hlen; split].
  - intros (ks & Hks & Hterm)%terminal_walk_sound.
    exists (reverse ks). split.
    + by eapply tree_holds_path.
    + unfold rule_matches. by rewrite reverse_involutive.
  - intros (r & Hr & Hmatch). eapply terminal_at_walk; [exact Hmatch|].
    eapply rules_to_tree_terminal_at; [done..|].
    rewrite Forall_forall in Hbang. by apply Hbang.
  - by apply suffixes_sound.
  - intros (r & Hr & Hmatch).
    eapply (rule_matched_labels rules); [done..| | |done].
    + rewrite Forall_forall in Hplain. by apply Hplain.
    + by rewrite <- (rule_matches_length r labels).
Qed.

Lemma walk_finds_the_matching_rules_witness :
  (existsb terminal
     (walk ["uk"; "co"] [subrule (default ∅ (rules_to_tree spec_positive))]) = true
   ↔ ∃ r, r ∈ spec_positive ∧ rule_matches r ["uk"; "co"])
  ∧ ((2 ≤ length ["uk"; "co"])%nat →
     (existsb terminal (walk ["uk"; "co"] [subrule spec_p]) = true
      ↔ ∃ r, r ∈ spec_positive ∧ rule_matches r ["uk"; "co"])).
Proof.
  apply (walk_finds_the_matching_rules spec_positive).
  - by_decide.
  - vm_compute. reflexivity.
Defined.

(** *** The order of the rules and repeated rules *)

Lemma insert_rule_nil t :
  insert_rule [] t = Some (<[accept_this_key := accept_this]> t).
Proof. done. Qed.

Lemma insert_rule_cons l ls t :
  insert_rule (l :: ls) t =
  d ← child t l; sub ← insert_rule ls d; Some (<[l := subrule sub]> t).
Proof. unfold child. simpl. by destruct (t !! l) as [[|d]|]. Qed.

Lemma child_insert_eq l s t : child (<[l := subrule s]> t) l = Some s.
Proof. unfold child. by rewrite lookup_insert_eq. Qed.

Lemma child_insert_ne l l' v t : l' ≠ l → child (<[l' := v]> t) l = child t l.
Proof. intros. unfold child. by rewrite lookup_insert_ne. Qed.

Lemma insert_rule_comm q1 q2 t :
  accept_this_key ∉ q1 → accept_this_key ∉ q2 →
  insert_rule q1 t ≫= insert_rule q2 = insert_rule q2 t ≫= insert_rule q1.
Proof.
  revert q2 t. induction q1 as [|l1 ls1 IH]; intros q2 t H1 H2.
  - destruct q2 as [|l2 ls2]; [done|].
    apply not_elem_of_cons in H2 as [Hl2 _].
    rewrite insert_rule_nil, insert_rule_cons. cbn [mbind option_bind].
    rewrite insert_rule_cons, child_insert_ne by done.
    destruct (child t l2) as [d|]; [|done]. cbn [mbind option_bind].
    destruct (insert_rule ls2 d); [|done]. cbn [mbind option_bind].
    by rewrite insert_rule_nil, insert_insert_ne.
  - apply not_elem_of_cons in H1 as [Hl1 Hls1].
    destruct q2 as [|l2 ls2].
    + rewrite insert_rule_nil, insert_rule_cons. cbn [mbind option_bind].
      rewrite insert_rule_cons, child_insert_ne by done.
      destruct (child t l1) as [d|]; [|done]. cbn [mbind option_bind].
      destruct (insert_rule ls1 d); [|done]. cbn [mbind option_bind].
      by rewrite insert_rule_nil, insert_insert_ne.
    + apply not_elem_of_cons in H2 as [Hl2 Hls2].
      rewrite (insert_rule_cons l1 ls1 t), (insert_rule_cons l2 ls2 t).
      destruct (decide (l1 = l2)) as [->|Hne].
      * destruct (child t l2) as [d|]; [|done]. cbn [mbind option_bind].
        specialize (IH ls2 d Hls1 Hls2).
        destruct (insert_rule ls1 d) as [s1|] eqn:E1;
          destruct (insert_rule ls2 d) as [s2|] eqn:E2;
          cbn [mbind option_bind] in *;
          rewrite ?insert_rule_cons, ?child_insert_eq; cbn [mbind option_bind];
          try done.
        -- rewrite IH. destruct (insert_rule ls1 s2); cbn [mbind option_bind]; [|done].
           by rewrite !insert_insert_eq.
        -- by rewrite IH.
        -- by rewrite <- IH.
      * destruct (child t l1) as [d1|] eqn:C1; destruct (child t l2) as [d2|] eqn:C2;
          cbn [mbind option_bind]; try done.
        -- destruct (insert_rule ls1 d1) as [s1|] eqn:E1;
             destruct (insert_rule ls2 d2) as [s2|] eqn:E2;
             cbn [mbind option_bind];
             rewrite ?insert_rule_cons, ?child_insert_ne, ?C1, ?C2 by done;
             cbn [mbind option_bind]; rewrite ?E1, ?E2; cbn [mbind option_bind];
             try done.
           by rewrite insert_insert_ne.
        -- destruct (insert_rule ls1 d1) as [s1|]; cbn [mbind option_bind]; [|done].
           by rewrite insert_rule_cons, child_insert_ne, C2.
        -- destruct (insert_rule ls2 d2) as [s2|]; cbn [mbind option_bind]; [|done].
           by rewrite insert_rule_cons, child_insert_ne, C1.
Qed.

Lemma insert_rule_idem q t t' :
  insert_rule q t = Some t' → insert_rule q t' = Some t'.
Proof.
  revert t t'. induction q as [|l ls IH]; intros t t' H.
  - rewrite insert_rule_nil in *. injection H as <-. by rewrite insert_insert_eq.
  - rewrite insert_rule_cons in H.
    destruct (child t l) as [d|]; [|done]. cbn [mbind option_bind] in H.
    destruct (insert_rule ls d) as [s|] eqn:E; [|done]. injection H as <-.
    rewrite insert_rule_cons, child_insert_eq. cbn [mbind option_bind].
    rewrite (IH _ _ E). cbn [mbind option_bind]. by rewrite insert_insert_eq.
Qed.

Lemma insert_rules_cons r rs t :
  insert_rules (r :: rs) t = insert_rule (reverse r) t ≫= insert_rules rs.
Proof. done. Qed.

Lemma insert_rules_Permutation rules rules' t :
  rules ≡ₚ rules' → Forall (λ r : rule, accept_this_key ∉ r) rules →
  insert_rules rules t = insert_rules rules' t.
Proof.
  intros Hperm. revert t.
  induction Hperm as [|x l l' Hperm IH|x y l|l l' l'' H1 IH1 H2 IH2]; intros t Hbang.
  - done.
  - apply Forall_cons in Hbang as [_ Hbang]. rewrite !insert_rules_cons.
    destruct (insert_rule (reverse x) t); cbn [mbind option_bind]; auto.
  - apply Forall_cons in Hbang as [Hy Hbang]. apply Forall_cons in Hbang as [Hx _].
    rewrite !insert_rules_cons.
    pose proof (insert_rule_comm (reverse y) (reverse x) t) as Hcomm.
    rewrite !elem_of_reverse in Hcomm. specialize (Hcomm Hy Hx).
    destruct (insert_rule (reverse y) t) as [ty|];
      destruct (insert_rule (reverse x) t) as [tx|];
      cbn [mbind option_bind] in *; rewrite ?insert_rules_cons.
    + by rewrite Hcomm.
    + by rewrite Hcomm.
    + by rewrite <- Hcomm.
    + done.
  - rewrite IH1 by done. apply IH2. by rewrite <- H1.
Qed.

Lemma insert_rules_repeated x l t :
  Forall (λ r : rule, accept_this_key ∉ r) l → x ∈ l →
  insert_rules (x :: l) t = insert_rules l t.
Proof.
  intros Hbang Hx.
  assert (accept_this_key ∉ x) as Hbx by by eapply Forall_forall in Hbang.
  apply elem_of_Permutation in Hx as [l' Hl'].
  assert (insert_rules (x :: l) t = insert_rules (x :: x :: l') t) as ->.
  { apply insert_rules_Permutation; by constructor. }
  assert (insert_rules l t = insert_rules (x :: l') t) as ->
    by by apply insert_rules_Permutation.
  rewrite !insert_rules_cons.
  destruct (insert_rule (reverse x) t) as [t1|] eqn:E; [|done].
  cbn [mbind option_bind]. by rewrite insert_rules_cons, (insert_rule_idem _ _ _ E).
Qed.

Lemma insert_rules_remove_dups l t :
  Forall (λ r : rule, accept_this_key ∉ r) l →
  insert_rules (remove_dups l) t = insert_rules l t.
Proof.
  intros Hbang. revert t. induction Hbang as [|x l Hx Hl IH]; intros t; [done|].
  cbn [remove_dups]. case_decide as Hin.
  - rewrite IH. by rewrite insert_rules_repeated.
  - rewrite !insert_rules_cons.
    destruct (insert_rule (reverse x) t); cbn [mbind option_bind]; auto.
Qed.

(** In the model without the order of the keys, the tree depends on the
    set of the rules only. *)
Lemma rules_to_tree_same_elements (rules1 rules2 : list rule) :
  Forall (λ r, accept_this_key ∉ r) rules1 →
  (∀ r, r ∈ rules1 ↔ r ∈ rules2) →
  rules_to_tree rules1 = rules_to_tree rules2.
Proof.
  intros Hbang1 Hsame.
  assert (Forall (λ r : rule, accept_this_key ∉ r) rules2) as Hbang2.
  { rewrite Forall_forall in *. intros r Hr. apply Hbang1. by apply Hsame. }
  unfold rules_to_tree.
  rewrite <- (insert_rules_remove_dups rules1), <- (insert_rules_remove_dups rules2)
    by done.
  apply insert_rules_Permutation.
  - apply NoDup_Permutation; [apply NoDup_remove_dups..|].
    intros r. by rewrite !elem_of_remove_dups.
  - apply Forall_forall. intros r Hr. rewrite elem_of_remove_dups in Hr.
    rewrite Forall_forall in Hbang1. by apply Hbang1.
Qed.

(** *** The tree with and without the order of its keys *)

Lemma erase_cons kv items :
  erase (kv :: items) = <[kv.1 := erase_value kv.2]> (erase items).
Proof. done. Qed.

Lemma erase_value_dict items : erase_value (PyDict items) = subrule (erase items).
Proof. done. Qed.

Lemma erase_get k items :
  erase items !! k = erase_value <$> Ordered.dict_get k items.
Proof.
  induction items as [|kv items IH]; [done|].
  rewrite erase_cons. cbn [Ordered.dict_get].
  destruct (String.eqb_spec kv.1 k) as [->|Hne].
  - by rewrite lookup_insert_eq.
  - by rewrite lookup_insert_ne.
Qed.

Lemma erase_set k v items :
  erase (Ordered.dict_set k v items) = <[k := erase_value v]> (erase items).
Proof.
  induction items as [|kv items IH]; [done|].
  cbn [Ordered.dict_set]. destruct (String.eqb_spec kv.1 k) as [<-|Hne].
  - rewrite !erase_cons. cbn [fst snd]. by rewrite insert_insert_eq.
  - rewrite !erase_cons, IH. by apply insert_insert_ne.
Qed.

Lemma erase_insert_rule ls t :
  erase <$> Ordered.insert_rule ls t = insert_rule ls (erase t).
Proof.
  revert t. induction ls as [|l ls IH]; intros t.
  - cbn. by rewrite erase_set.
  - cbn [Ordered.insert_rule insert_rule]. rewrite erase_get.
    destruct (Ordered.dict_get l t) as [[|d]|]; cbn [fmap option_fmap option_map].
    + done.
    + rewrite erase_value_dict, <- IH.
      destruct (Ordered.insert_rule ls d) as [sub|]; [|done].
      cbn. by rewrite erase_set.
    + change (∅ : gmap string Rule) with (erase []). rewrite <- IH.
      destruct (Ordered.insert_rule ls []) as [sub|]; [|done].
      cbn. by rewrite erase_set.
Qed.

Lemma erase_insert_rules rules t :
  erase <$> Ordered.insert_rules rules t = insert_rules rules (erase t).
Proof.
  revert t. induction rules as [|r rs IH]; intros t; [done|].
  cbn [Ordered.insert_rules insert_rules]. rewrite <- erase_insert_rule.
  destruct (Ordered.insert_rule (reverse r) t) as [t'|]; [|done].
  cbn. apply IH.
Qed.

Lemma erase_rules_to_tree rules :
  erase <$> Ordered.rules_to_tree rules = rules_to_tree rules.
Proof. apply erase_insert_rules. Qed.

Lemma dict_set_keys k v items :
  (Ordered.dict_set k v items).*1
  = if decide (k ∈ items.*1) then items.*1 else items.*1 ++ [k].
Proof.
  induction items as [|kv items IH]; [done|].
  cbn [Ordered.dict_set]. destruct (String.eqb_spec kv.1 k) as [<-|Hne].
  - cbn. rewrite decide_True; [done|left].
  - cbn. rewrite IH. destruct (decide (k ∈ items.*1)) as [Hin|Hin].
    + rewrite decide_True; [done|by right].
    + rewrite decide_False; [done|]. by intros [?|?]%elem_of_cons.
Qed.

Lemma dict_set_NoDup k v items :
  NoDup items.*1 → NoDup (Ordered.dict_set k v items).*1.
Proof.
  intros H. rewrite dict_set_keys. case_decide as Hin; [done|].
  apply NoDup_app. split_and!; [done| |apply NoDup_singleton].
  intros x Hx ->%list_elem_of_singleton. done.
Qed.

Lemma dict_set_Forall (Q : PyValue → Prop) k v items :
  Forall (λ kv, Q kv.2) items → Q v →
  Forall (λ kv, Q kv.2) (Ordered.dict_set k v items).
Proof.
  intros Hall Hv. induction Hall as [|kv items Hkv Hall IH]; [by repeat constructor|].
  cbn [Ordered.dict_set]. destruct (String.eqb kv.1 k); by constructor.
Qed.

Lemma dict_get_elem_of k v items :
  Ordered.dict_get k items = Some v → (k, v) ∈ items.
Proof.
  induction items as [|kv items IH]; [done|]. cbn [Ordered.dict_get].
  destruct (String.eqb_spec kv.1 k) as [<-|Hne].
  - intros [= <-]. destruct kv. left.
  - intros ?. right. by apply IH.
Qed.

Lemma insert_rule_keys_distinct ls t t' :
  keys_distinct (PyDict t) → Ordered.insert_rule ls t = Some t' →
  keys_distinct (PyDict t').
Proof.
  revert t t'. induction ls as [|l ls IH]; intros t t' Ht H.
  - injection H as <-. inversion Ht as [|? Hnd Hall]; subst. constructor.
    + by apply dict_set_NoDup.
    + apply (dict_set_Forall keys_distinct); [done|constructor].
  - inversion Ht as [|? Hnd Hall]; subst.
    assert (∀ sub, keys_distinct (PyDict sub) →
              keys_distinct (PyDict (Ordered.dict_set l (PyDict sub) t))) as Hset.
    { intros sub Hsub. constructor; [by apply dict_set_NoDup|].
      by apply (dict_set_Forall keys_distinct). }
    cbn [Ordered.insert_rule] in H.
    destruct (Ordered.dict_get l t) as [[|d]|] eqn:Hget; [done| |].
    + destruct (Ordered.insert_rule ls d) as [sub|] eqn:Hsub; [|done].
      injection H as <-. apply Hset. eapply IH; [|done].
      apply dict_get_elem_of in Hget.
      rewrite Forall_forall in Hall. apply (Hall _ Hget).
    + destruct (Ordered.insert_rule ls []) as [sub|] eqn:Hsub; [|done].
      injection H as <-. apply Hset. eapply IH; [|done].
      constructor; constructor.
Qed.

Lemma insert_rules_keys_distinct rules t t' :
  keys_distinct (PyDict t) → Ordered.insert_rules rules t = Some t' →
  keys_distinct (PyDict t').
Proof.
  revert t. induction rules as [|r rs IH]; intros t Ht H.
  - by injection H as <-.
  - cbn [Ordered.insert_rules] in H.
    destruct (Ordered.insert_rule (reverse r) t) as [t1|] eqn:E; [|done].
    eapply IH; [|exact H]. by eapply insert_rule_keys_distinct.
Qed.

Lemma rules_to_tree_keys_distinct rules t :
  Ordered.rules_to_tree rules = Some t → keys_distinct (PyDict t).
Proof. apply insert_rules_keys_distinct. constructor; constructor. Qed.

Lemma erase_not_key k items : k ∉ items.*1 → erase items !! k = None.
Proof.
  induction items as [|kv items IH]; [done|].
  intros [Hne Hin]%not_elem_of_cons. rewrite erase_cons.
  rewrite lookup_insert_ne by done. by apply IH.
Qed.

Lemma erase_value_inj_true v : erase_value v = accept_this → v = PyTrue.
Proof. by destruct v. Qed.

Lemma is_accept_erase v :
  keys_distinct v → is_accept_dict (erase_value v) = is_accept_this_dict v.
Proof.
  intros Hv. destruct (is_accept_dict (erase_value v)) eqn:Hacc.
  - apply is_accept_dict_spec in Hacc. destruct v as [|items]; [done|].
    rewrite erase_value_dict in Hacc. injection Hacc as Hacc.
    inversion Hv as [|? Hnd _]; subst.
    destruct items as [|[k v] items].
    { exfalso. change (erase []) with (∅ : gmap string Rule) in Hacc.
      apply (f_equal (lookup accept_this_key)) in Hacc.
      by rewrite lookup_empty, lookup_singleton_eq in Hacc. }
    rewrite erase_cons in Hacc. cbn [fst snd] in Hacc.
    assert (k = accept_this_key) as ->.
    { destruct (decide (k = accept_this_key)) as [|Hne]; [done|]. exfalso.
      apply (f_equal (lookup k)) in Hacc.
      by rewrite lookup_insert_eq, lookup_singleton_ne in Hacc. }
    assert (erase_value v = accept_this) as ->%erase_value_inj_true.
    { apply (f_equal (lookup accept_this_key)) in Hacc.
      rewrite lookup_insert_eq, lookup_singleton_eq in Hacc. congruence. }
    destruct items as [|[k' v'] items]; [done|]. exfalso.
    cbn in Hnd. apply NoDup_cons in Hnd as [Hk _].
    apply (f_equal (lookup k')) in Hacc.
    rewrite erase_cons in Hacc. cbn [fst snd] in Hacc.
    rewrite lookup_insert_ne, lookup_insert_eq, lookup_singleton_ne in Hacc;
      [done|..]; intros <-; apply Hk; left.
  - symmetry. destruct (is_accept_this_dict v) eqn:Hacc'; [|done].
    destruct v as [|[|[k [|]] [|]]]; try done.
    cbn in Hacc'. apply String.eqb_eq in Hacc' as ->.
    by vm_compute in Hacc.
Qed.

Lemma erase_filter_top_rules d :
  keys_distinct (PyDict d) →
  erase (Ordered.filter_top_rules d) = filter_top_rules (erase d).
Proof.
  intros Hd. inversion Hd as [|? Hnd Hall]; subst. clear Hd.
  induction d as [|[k v] d IH]; [done|].
  cbn in Hnd. apply NoDup_cons in Hnd as [Hk Hnd].
  apply Forall_cons in Hall as [Hv Hall]. cbn [snd] in Hv.
  unfold Ordered.filter_top_rules, filter_top_rules in *.
  rewrite erase_cons. cbn [fst snd].
  destruct (is_accept_this_dict v) eqn:Hacc.
  - rewrite filter_cons_False by (cbn; congruence).
    rewrite map_filter_insert_False by (cbn; rewrite is_accept_erase by done; congruence).
    rewrite delete_id by by apply erase_not_key. by apply IH.
  - rewrite filter_cons_True by done. rewrite erase_cons. cbn [fst snd].
    rewrite map_filter_insert_True by (cbn; by rewrite is_accept_erase).
    f_equal. by apply IH.
Qed.

Lemma erase_suffixes rules :
  erase <$> Ordered.suffixes rules = suffixes rules.
Proof.
  unfold Ordered.suffixes, suffixes. rewrite <- erase_rules_to_tree.
  destruct (Ordered.rules_to_tree rules) as [t|] eqn:Ht; [|done].
  cbn. f_equal. apply erase_filter_top_rules. by eapply rules_to_tree_keys_distinct.
Qed.

(** Up to the order of the keys, the tree depends on the set of the rules
    only: for two lists with the same rules, in any order and with any
    repetitions, the dictionaries that [rules_to_tree] builds have the
    same keys and, under each key, the same subtree, at every depth (no
    label being the sentinel: with a sentinel label the order can decide
    whether the builder raises).  The order in which the keys were
    inserted, which [OrderedDict] compares and [make_swift_dict] prints,
    is not part of this: it follows the rules. *)
Theorem tree_of_a_set_of_rules (rules1 rules2 : list rule) :
  Forall (λ r, accept_this_key ∉ r) rules1 →
  (∀ r, r ∈ rules1 ↔ r ∈ rules2) →
  erase <$> Ordered.rules_to_tree rules1 = erase <$> Ordered.rules_to_tree rules2.
Proof.
  intros Hbang Hsame. rewrite !erase_rules_to_tree.
  by apply rules_to_tree_same_elements.
Qed.

Lemma tree_of_a_set_of_rules_witness :
  erase <$> Ordered.rules_to_tree [["co"; "uk"]; ["com"]; ["co"; "uk"]; ["*"; "ck"]]
  = erase <$> Ordered.rules_to_tree spec_positive.
Proof.
  apply tree_of_a_set_of_rules.
  - by_decide.
  - intros r. unfold spec_positive. rewrite !elem_of_cons, !elem_of_nil. tauto.
Defined.

(** The order of the rules does show in the dictionaries themselves and in
    the Swift text printed from them. *)
Example tree_order_follows_the_rules :
  Ordered.suffixes [["x"; "a"]; ["x"; "b"]]
    = Some [("a", PyDict [("x", PyDict [("!", PyTrue)])]);
            ("b", PyDict [("x", PyDict [("!", PyTrue)])])] ∧
  Ordered.suffixes [["x"; "b"]; ["x"; "a"]]
    = Some [("b", PyDict [("x", PyDict [("!", PyTrue)])]);
            ("a", PyDict [("x", PyDict [("!", PyTrue)])])] ∧
  make_swift_dict_top "p_suffixes"
    [("a", PyDict [("x", PyDict [("!", PyTrue)])]);
     ("b", PyDict [("x", PyDict [("!", PyTrue)])])] []
  ≠ make_swift_dict_top "p_suffixes"
      [("b", PyDict [("x", PyDict [("!", PyTrue)])]);
       ("a", PyDict [("x", PyDict [("!", PyTrue)])])] [].
Proof. split_and!; [by vm_compute..|]. by_decide. Qed.

(** The builder raises only on a sentinel label: when [rules_to_tree] fails,
    some rule of the list has ["!"] among its labels. *)
Theorem builder_fails_on_sentinel_only (rules : list rule) :
  rules_to_tree rules = None →
  ∃ r, r ∈ rules ∧ accept_this_key ∈ r.
Proof.
  intros Hnone.
  destruct (decide (Exists (λ r : rule, accept_this_key ∈ r) rules)) as [Hex|Hnex].
  - by apply Exists_exists in Hex.
  - apply not_Exists_Forall in Hnex; [|apply _].
    destruct (insert_rules_is_Some rules ∅ sentinel_ok_empty) as [t Ht].
    + eapply Forall_impl; [exact Hnex|]. simpl. by intros r ?.
    + unfold rules_to_tree in Hnone. congruence.
Qed.

Lemma builder_fails_on_sentinel_only_witness :
  ∃ r, r ∈ [["com"]; ["a"; "!"; "com"]] ∧ accept_this_key ∈ r.
Proof.
  apply builder_fails_on_sentinel_only. vm_compute. reflexivity.
Defined.

(** ** The parser *)

(** *** Line ends *)

Lemma readlines_to_crlf s :
  Str.all_chars (λ c, negb (Ascii.eqb c Str.CR)) s = true →
  Str.readlines (to_crlf s) = Str.readlines s.
Proof.
  induction s as [|c s IH]; intros H; [done|].
  simpl in H. apply andb_prop in H as [Hc Hs]. apply negb_true_iff in Hc.
  specialize (IH Hs). cbn [to_crlf].
  destruct (Ascii.eqb c Str.LF) eqn:Hlf.
  - cbn [Str.readlines]. rewrite Hlf.
    change (Ascii.eqb Str.CR Str.LF) with false.
    change (Ascii.eqb Str.CR Str.CR) with true.
    change (Ascii.eqb Str.LF Str.LF) with true. cbn match. by rewrite IH.
  - cbn [Str.readlines]. by rewrite Hlf, Hc, IH.
Qed.

(** Windows line ends: a rule list written with carriage return, line feed
    is parsed like the same list written with line feeds. *)
Theorem parser_accepts_crlf (text : string) :
  Str.all_chars (λ c, negb (Ascii.eqb c Str.CR)) text = true →
  get_public_suffixes (to_crlf text) = get_public_suffixes text.
Proof. intros H. unfold get_public_suffixes. by rewrite readlines_to_crlf. Qed.

Lemma parser_accepts_crlf_witness :
  get_public_suffixes (to_crlf spec_text) = get_public_suffixes spec_text.
Proof. apply parser_accepts_crlf. vm_compute. reflexivity. Defined.

(** *** The first token of a line *)

Lemma take_token_app tok c rest :
  Str.all_chars (λ a, negb (Str.is_space a)) tok = true →
  Str.is_space c = true →
  Str.take_token (tok +:+ String c rest) = tok.
Proof.
  intros Htok Hc. induction tok as [|a tok IH]; simpl.
  - by rewrite Hc.
  - simpl in Htok. apply andb_prop in Htok as [Ha Htok].
    apply negb_true_iff in Ha. by rewrite Ha, IH.
Qed.

Lemma take_token_whole tok :
  Str.all_chars (λ a, negb (Str.is_space a)) tok = true →
  Str.take_token tok = tok.
Proof.
  induction tok as [|a tok IH]; intros Htok; [done|].
  simpl in *. apply andb_prop in Htok as [Ha Htok].
  apply negb_true_iff in Ha. by rewrite Ha, IH.
Qed.

Lemma first_token_spaces ws line :
  Str.all_chars Str.is_space ws = true →
  Str.first_token (ws +:+ line) = Str.first_token line.
Proof.
  induction ws as [|a ws IH]; intros Hws; [done|].
  simpl in *. apply andb_prop in Hws as [Ha Hws]. by rewrite Ha, IH.
Qed.

(** Only the first token of a line counts: the white space before it, and
    whatever follows the white space after it, are ignored. *)
Theorem parser_reads_first_token
    (st : list rule * list rule) (ws tok rest : string) (c : ascii) :
  Str.all_chars Str.is_space ws = true →
  tok ≠ EmptyString →
  Str.all_chars (λ a, negb (Str.is_space a)) tok = true →
  Str.is_space c = true →
  parse_line st (ws +:+ tok +:+ String c rest) = parse_line st tok.
Proof.
  intros Hws Hne Htok Hc. unfold parse_line.
  rewrite first_token_spaces by done.
  destruct tok as [|a tok]; [done|].
  simpl in Htok. apply andb_prop in Htok as [Ha Htok].
  pose proof Ha as Ha'. apply negb_true_iff in Ha'.
  simpl. rewrite Ha'. by rewrite take_token_app, take_token_whole.
Qed.

Lemma parser_reads_first_token_witness :
  parse_line ([], []) ("  " +:+ "co.uk" +:+ String " " "// United Kingdom")
  = parse_line ([], []) "co.uk".
Proof.
  apply parser_reads_first_token.
  - vm_compute. reflexivity.
  - discriminate.
  - vm_compute. reflexivity.
  - vm_compute. reflexivity.
Defined.

(** *** Upper and lower case *)

Lemma lower_char_space c : Str.is_space (Str.lower_char c) = Str.is_space c.
Proof. by destruct c as [[] [] [] [] [] [] [] []]. Qed.

Lemma lower_char_idem c : Str.lower_char (Str.lower_char c) = Str.lower_char c.
Proof. by destruct c as [[] [] [] [] [] [] [] []]. Qed.

(** Lowering does not touch the characters that the parser looks for. *)
Lemma lower_char_eqb c x :
  x = Str.LF ∨ x = Str.CR ∨ x = "."%char ∨ x = "/"%char ∨ x = "!"%char →
  Ascii.eqb (Str.lower_char c) x = Ascii.eqb c x.
Proof.
  intros [->|[->|[->|[->| ->]]]]; by destruct c as [[] [] [] [] [] [] [] []].
Qed.

Lemma lower_idem s : Str.lower (Str.lower s) = Str.lower s.
Proof. induction s as [|c s IH]; [done|]. simpl. by rewrite lower_char_idem, IH. Qed.

Lemma lower_length s : String.length (Str.lower s) = String.length s.
Proof. induction s as [|c s IH]; [done|]. simpl. by rewrite IH. Qed.

Lemma readlines_String c s :
  Str.readlines (String c s) =
  if Ascii.eqb c Str.LF then String Str.LF EmptyString :: Str.readlines s
  else if Ascii.eqb c Str.CR then
    String Str.LF EmptyString ::
      match s with
      | String c' s'' =>
          if Ascii.eqb c' Str.LF then Str.readlines s'' else Str.readlines s
      | EmptyString => []
      end
  else match Str.readlines s with
       | w :: ws => String c w :: ws
       | [] => [String c EmptyString]
       end.
Proof. by destruct s. Qed.

Lemma readlines_lower s :
  Str.readlines (Str.lower s) = Str.lower <$> Str.readlines s.
Proof.
  cut (Str.readlines (Str.lower s) = Str.lower <$> Str.readlines s ∧
       ∀ c, Str.readlines (Str.lower (String c s))
            = Str.lower <$> Str.readlines (String c s)); [by intros [? _]|].
  induction s as [|a s [IH1 IH2]].
  - split; [done|]. intros c. cbn [Str.lower]. rewrite !readlines_String.
    rewrite !lower_char_eqb by auto.
    destruct (Ascii.eqb c Str.LF), (Ascii.eqb c Str.CR); reflexivity.
  - split; [apply IH2|]. intros c.
    change (Str.lower (String c (String a s)))
      with (String (Str.lower_char c) (Str.lower (String a s))).
    rewrite (readlines_String (Str.lower_char c)), (readlines_String c).
    rewrite !lower_char_eqb by auto.
    destruct (Ascii.eqb c Str.LF); [by rewrite IH2|].
    destruct (Ascii.eqb c Str.CR).
    { change (Str.lower (String a s))
        with (String (Str.lower_char a) (Str.lower s)) at 1.
      cbn match. rewrite lower_char_eqb by auto.
      destruct (Ascii.eqb a Str.LF); [by rewrite IH1|].
      change (String (Str.lower_char a) (Str.lower s))
        with (Str.lower (String a s)).
      by rewrite IH2. }
    rewrite IH2. by destruct (Str.readlines (String a s)).
Qed.

Lemma take_token_lower s :
  Str.take_token (Str.lower s) = Str.lower (Str.take_token s).
Proof.
  induction s as [|c s IH]; [done|]. simpl. rewrite lower_char_space.
  destruct (Str.is_space c); [done|]. simpl. by rewrite IH.
Qed.

Lemma first_token_lower s :
  Str.first_token (Str.lower s) = Str.lower <$> Str.first_token s.
Proof.
  induction s as [|c s IH]; [done|]. simpl. rewrite lower_char_space.
  destruct (Str.is_space c); [done|]. simpl. by rewrite take_token_lower.
Qed.

Lemma lower_char_dec x c :
  x = "."%char ∨ x = "/"%char ∨ x = "!"%char →
  x = Str.lower_char c ↔ x = c.
Proof.
  intros Hx. rewrite <- !Ascii.eqb_eq.
  rewrite (Ascii.eqb_sym x (Str.lower_char c)), (Ascii.eqb_sym x c).
  rewrite lower_char_eqb; [done|]. destruct Hx as [->|[->| ->]]; auto.
Qed.

Lemma prefix_lower p tok :
  Str.all_chars (λ x, Ascii.eqb x "." || Ascii.eqb x "/" || Ascii.eqb x "!") p = true →
  String.prefix p (Str.lower tok) = String.prefix p tok.
Proof.
  revert tok. induction p as [|x p IH]; intros tok Hp; [by destruct tok|].
  simpl in Hp. apply andb_prop in Hp as [Hx Hp].
  assert (x = "."%char ∨ x = "/"%char ∨ x = "!"%char) as Hx'.
  { apply orb_prop in Hx as [Hx|Hx]; [apply orb_prop in Hx as [Hx|Hx]|];
      apply Ascii.eqb_eq in Hx; auto. }
  destruct tok as [|a tok]; [done|]. simpl.
  destruct (ascii_dec x (Str.lower_char a)) as [H|H], (ascii_dec x a) as [H'|H'].
  - by apply IH.
  - destruct H'. by apply (lower_char_dec x a).
  - destruct H. by apply (lower_char_dec x a).
  - done.
Qed.

Lemma prefix_lower_comment tok :
  String.prefix "//" (Str.lower tok) = String.prefix "//" tok.
Proof. by apply prefix_lower. Qed.

Lemma prefix_lower_exception tok :
  String.prefix "!" (Str.lower tok) = String.prefix "!" tok.
Proof. by apply prefix_lower. Qed.

Lemma substring_lower n m s :
  String.substring n m (Str.lower s) = Str.lower (String.substring n m s).
Proof.
  revert n m. induction s as [|c s IH]; intros [|n] [|m]; simpl; by rewrite ?IH.
Qed.

Lemma lstrip_lower s :
  Str.lstrip "." (Str.lower s) = Str.lower (Str.lstrip "." s).
Proof.
  induction s as [|c s IH]; [done|]. simpl. rewrite lower_char_eqb by auto.
  by destruct (Ascii.eqb c ".").
Qed.

Lemma rstrip_lower s :
  Str.rstrip "." (Str.lower s) = Str.lower (Str.rstrip "." s).
Proof.
  induction s as [|c s IH]; [done|]. simpl. rewrite IH, lower_char_eqb by auto.
  destruct (Str.rstrip "." s); simpl; [|done]. by destruct (Ascii.eqb c ".").
Qed.

Lemma parse_line_lower st line :
  parse_line st (Str.lower line) = parse_line st line.
Proof.
  unfold parse_line. rewrite first_token_lower.
  destruct (Str.first_token line) as [tok|]; [|done]. simpl.
  rewrite prefix_lower_comment, prefix_lower_exception, lower_length, substring_lower.
  unfold Str.strip. by rewrite !lstrip_lower, !rstrip_lower, !lower_idem.
Qed.

(** The rule list is read without regard to case: writing the whole text in
    lower case first gives the same rules. *)
Theorem parser_ignores_case (text : string) :
  get_public_suffixes (Str.lower text) = get_public_suffixes text.
Proof.
  unfold get_public_suffixes. rewrite readlines_lower.
  generalize (([], []) : list rule * list rule).
  induction (Str.readlines text) as [|line lines IH]; intros st; [done|].
  simpl. by rewrite parse_line_lower, IH.
Qed.

(** *** The dots around a rule *)

Lemma lstrip_no_start c s : no_start c (Str.lstrip c s).
Proof.
  induction s as [|a s IH]; [done|]. simpl.
  by destruct (Ascii.eqb a c) eqn:E.
Qed.

Lemma rstrip_no_start c s : no_start c s → no_start c (Str.rstrip c s).
Proof.
  destruct s as [|a s]; [done|]. simpl. intros Ha.
  destruct (Str.rstrip c s); [by rewrite Ha|done].
Qed.

Lemma rstrip_no_end c s : no_end c (Str.rstrip c s).
Proof.
  induction s as [|a s IH]; [done|]. simpl.
  destruct (Str.rstrip c s) as [|b r]; [by destruct (Ascii.eqb a c) eqn:E|done].
Qed.

Lemma lower_no_start s : no_start "." s → no_start "." (Str.lower s).
Proof. destruct s as [|a s]; [done|]. simpl. by rewrite lower_char_eqb by auto. Qed.

Lemma lower_no_end s : no_end "." s → no_end "." (Str.lower s).
Proof.
  induction s as [|a s IH]; [done|]. destruct s as [|b s].
  - simpl. by rewrite lower_char_eqb by auto.
  - intros H. apply IH, H.
Qed.

Lemma split_on_head sep s :
  no_start sep s → s ≠ EmptyString → head (Str.split_on sep s) ≠ Some EmptyString.
Proof.
  destruct s as [|a s]; [done|]. simpl. intros -> _.
  by destruct (Str.split_on sep s).
Qed.

Lemma split_on_last sep s :
  no_end sep s → s ≠ EmptyString → last (Str.split_on sep s) ≠ Some EmptyString.
Proof.
  induction s as [|a s IH]; [done|]. intros Hend _.
  destruct s as [|b s].
  - simpl in *. by rewrite Hend.
  - specialize (IH Hend ltac:(done)).
    change (Str.split_on sep (String a (String b s)))
      with (if Ascii.eqb a sep then EmptyString :: Str.split_on sep (String b s)
            else match Str.split_on sep (String b s) with
                 | w :: ws => String a w :: ws
                 | [] => [String a EmptyString]
                 end).
    pose proof (split_on_nonempty sep (String b s)) as Hne.
    destruct (Str.split_on sep (String b s)) as [|w ws]; [done|].
    destruct (Ascii.eqb a sep).
    + by rewrite last_cons_cons.
    + destruct ws as [|w' ws]; [done|]. by rewrite !last_cons_cons in *.
Qed.

(** Leading and trailing dots are stripped: the first and the last label
    of a parsed rule are never empty, except in the rule with the single
    empty label that a token made of dots (or a lone [!]) gives. *)
Theorem parsed_rules_outer_labels (text : string) :
  let ok (r : rule) :=
    r = [EmptyString] ∨
    (head r ≠ Some EmptyString ∧ last r ≠ Some EmptyString) in
  Forall ok (get_public_suffixes text).1 ∧ Forall ok (get_public_suffixes text).2.
Proof.
  intros ok. apply get_public_suffixes_rules. intros s. unfold ok.
  set (s1 := Str.lower (Str.strip "." s)).
  assert (no_start "." s1) as Hstart.
  { apply lower_no_start, rstrip_no_start, lstrip_no_start. }
  assert (no_end "." s1) as Hend.
  { apply lower_no_end, rstrip_no_end. }
  destruct (decide (s1 = EmptyString)) as [->|Hne]; [by left|].
  right. split; [by apply split_on_head|by apply split_on_last].
Qed.

(** ** The freshness of the list *)

(** *** Decimal numbers *)

Lemma digit_value_pretty d : (d < 10)%N → Bytes.digit_value (pretty_N_char d) = d.
Proof.
  intros H.
  assert (d = 0 ∨ d = 1 ∨ d = 2 ∨ d = 3 ∨ d = 4 ∨ d = 5 ∨ d = 6 ∨ d = 7 ∨ d = 8
          ∨ d = 9)%N as Hd by lia.
  by repeat (destruct Hd as [->|Hd]); try subst d.
Qed.

Lemma is_digit_pretty d : Bytes.is_digit (pretty_N_char d) = true.
Proof. unfold pretty_N_char. by repeat case_match. Qed.

Lemma int_go_pretty x s : Bytes.int_go 0 (pretty_N_go x s) = Bytes.int_go x s.
Proof.
  revert s. induction (N.lt_wf_0 x) as [x _ IH]; intros s.
  destruct (decide (x = 0)%N) as [->|Hx]; [by rewrite pretty_N_go_0|].
  rewrite pretty_N_go_step by lia. rewrite IH by (apply N.div_lt; lia).
  simpl. rewrite digit_value_pretty by (by apply N.mod_lt).
  f_equal. rewrite N.mul_comm. symmetry. apply N.div_mod. done.
Qed.

Lemma int_pretty (x : N) : Bytes.int (pretty x) = x.
Proof.
  unfold pretty, pretty_N. case_decide as Hx; [by subst|].
  unfold Bytes.int. by rewrite int_go_pretty.
Qed.

Lemma digits_pretty_go x s :
  Str.all_chars Bytes.is_digit s = true →
  Str.all_chars Bytes.is_digit (pretty_N_go x s) = true.
Proof.
  revert s. induction (N.lt_wf_0 x) as [x _ IH]; intros s Hs.
  destruct (decide (x = 0)%N) as [->|Hx]; [by rewrite pretty_N_go_0|].
  rewrite pretty_N_go_step by lia. apply IH; [apply N.div_lt; lia|].
  simpl. by rewrite is_digit_pretty.
Qed.

Lemma digits_pretty (x : N) : Str.all_chars Bytes.is_digit (pretty x) = true.
Proof.
  unfold pretty, pretty_N. case_decide; [done|]. by apply digits_pretty_go.
Qed.

Lemma length_pretty_go_upper k x s :
  (x < 10 ^ N.of_nat k)%N →
  (String.length (pretty_N_go x s) ≤ k + String.length s)%nat.
Proof.
  revert x s. induction k as [|k IH]; intros x s Hx.
  - assert (x = 0)%N as -> by (simpl in Hx; lia). by rewrite pretty_N_go_0.
  - destruct (decide (x = 0)%N) as [->|Hx0]; [rewrite pretty_N_go_0; lia|].
    rewrite pretty_N_go_step by lia.
    etrans; [apply IH|simpl; lia].
    apply N.Div0.div_lt_upper_bound.
    rewrite Nat2N.inj_succ, N.pow_succ_r' in Hx. lia.
Qed.

Lemma length_pretty_go_ge x s :
  (String.length s ≤ String.length (pretty_N_go x s))%nat.
Proof.
  revert s. induction (N.lt_wf_0 x) as [x _ IH]; intros s.
  destruct (decide (x = 0)%N) as [->|Hx]; [by rewrite pretty_N_go_0|].
  rewrite pretty_N_go_step by lia.
  etrans; [|apply IH; apply N.div_lt; lia]. simpl. lia.
Qed.

Lemma length_pretty_go_lower k x s :
  (10 ^ N.of_nat k ≤ x)%N →
  (S k + String.length s ≤ String.length (pretty_N_go x s))%nat.
Proof.
  revert x s. induction k as [|k IH]; intros x s Hx.
  - simpl in Hx. rewrite pretty_N_go_step by lia.
    etrans; [|apply length_pretty_go_ge]. simpl. lia.
  - rewrite Nat2N.inj_succ, N.pow_succ_r' in Hx.
    assert (0 < 10 ^ N.of_nat k)%N by (apply N.neq_0_lt_0, N.pow_nonzero; lia).
    rewrite pretty_N_go_step by lia.
    etrans; [|apply IH]; [simpl; lia|].
    apply N.div_le_lower_bound; lia.
Qed.

Lemma pretty_Z_nonneg (t : Z) : (0 ≤ t)%Z → pretty t = pretty (Z.to_N t).
Proof. intros H. destruct t; [done|done|lia]. Qed.

Lemma length_pretty_upper k (x : N) :
  (x < 10 ^ N.of_nat (S k))%N → (String.length (pretty x) ≤ S k)%nat.
Proof.
  intros Hx. unfold pretty, pretty_N. case_decide; [simpl; lia|].
  etrans; [by apply length_pretty_go_upper|]. simpl. lia.
Qed.

Lemma length_pretty_lower k (x : N) :
  (10 ^ N.of_nat k ≤ x)%N → (S k ≤ String.length (pretty x))%nat.
Proof.
  intros Hx. unfold pretty, pretty_N.
  assert (0 < 10 ^ N.of_nat k)%N by (apply N.neq_0_lt_0, N.pow_nonzero; lia).
  case_decide; [lia|].
  etrans; [|by apply length_pretty_go_lower]. simpl. lia.
Qed.

Lemma pretty_N_nonempty (x : N) : pretty x ≠ EmptyString.
Proof.
  intros Hx. pose proof (length_pretty_go_ge (x `div` 10)
    (String (pretty_N_char (x `mod` 10)) EmptyString)) as Hl.
  revert Hx. unfold pretty, pretty_N. case_decide; [done|].
  rewrite pretty_N_go_step by lia. intros Hx. rewrite Hx in Hl. simpl in Hl. lia.
Qed.

(** *** Reading the head of a file *)

Lemma digit_not_LF c : Bytes.is_digit c = true → Ascii.eqb c Str.LF = false.
Proof. destruct (Ascii.eqb_spec c Str.LF) as [->|]; [by vm_compute|done]. Qed.

Lemma app_String c (s t : string) : String c s +:+ t = String c (s +:+ t).
Proof. done. Qed.

Lemma find_digits_stamp d rest n :
  Str.all_chars Bytes.is_digit d = true → (String.length d < n)%nat →
  Bytes.find Str.LF (Bytes.take n (d +:+ String Str.LF rest))
  = Some (String.length d).
Proof.
  revert n. induction d as [|c d IH]; intros n Hd Hn.
  - destruct n; [simpl in Hn; lia|]. done.
  - destruct n as [|n]; [simpl in Hn; lia|].
    simpl in Hd, Hn. apply andb_true_iff in Hd as [Hc Hd].
    rewrite app_String. cbn [Bytes.take Bytes.find String.length].
    rewrite (digit_not_LF _ Hc).
    rewrite IH by (done || lia). done.
Qed.

Lemma find_digits d : Str.all_chars Bytes.is_digit d = true → Bytes.find Str.LF d = None.
Proof.
  induction d as [|c d IH]; [done|].
  cbn [Str.all_chars Bytes.find]. intros [Hc Hd]%andb_true_iff.
  rewrite (digit_not_LF _ Hc), IH by done. done.
Qed.

Lemma take_take_app d rest n :
  (String.length d < n)%nat →
  Bytes.take (String.length d) (Bytes.take n (d +:+ rest)) = d.
Proof.
  revert n. induction d as [|c d IH]; intros n Hn; [by destruct n|].
  destruct n as [|n]; [simpl in Hn; lia|].
  simpl in *. f_equal. apply IH. lia.
Qed.

Lemma take_app_long d rest n :
  (n ≤ String.length d)%nat → Bytes.take n (d +:+ rest) = Bytes.take n d.
Proof.
  revert n. induction d as [|c d IH]; intros n Hn.
  - by assert (n = 0)%nat as -> by (simpl in Hn; lia).
  - destruct n as [|n]; [done|]. simpl in *. f_equal. apply IH. lia.
Qed.

Lemma all_chars_take P n s :
  Str.all_chars P s = true → Str.all_chars P (Bytes.take n s) = true.
Proof.
  revert n. induction s as [|c s IH]; intros [|n]; try done.
  simpl. intros [Hc Hs]%andb_true_iff. by rewrite Hc, IH.
Qed.

Lemma bytes_take_drop s n : s = Bytes.take n s +:+ Bytes.drop n s.
Proof.
  revert s. induction n as [|n IH]; intros [|c s]; try done.
  cbn [Bytes.take Bytes.drop]. rewrite app_String. f_equal. apply IH.
Qed.

Lemma bytes_length_take_le s n : (String.length (Bytes.take n s) ≤ n)%nat.
Proof.
  revert s. induction n as [|n IH]; intros [|c s]; simpl; try lia.
  specialize (IH s). lia.
Qed.

Lemma find_split c s k :
  Bytes.find c s = Some k →
  s = Bytes.take k s +:+ String c (Bytes.drop (S k) s) ∧
  String.length (Bytes.take k s) = k.
Proof.
  revert k. induction s as [|a s IH]; intros k; [done|].
  simpl. destruct (Ascii.eqb_spec a c) as [->|Hne].
  - intros [= <-]. done.
  - destruct (Bytes.find c s) as [k'|] eqn:Hf; [|done].
    intros [= <-]. destruct (IH k' eq_refl) as [Hs Hl].
    cbn [Bytes.take String.length]. rewrite app_String, Hl.
    split; [|done].
    f_equal. exact Hs.
Qed.

Lemma string_app_assoc (a b c : string) : (a +:+ b) +:+ c = a +:+ (b +:+ c).
Proof. induction a as [|x a IH]; [done|]. rewrite !app_String. by rewrite IH. Qed.

Lemma redownload_psl_eq reads t :
  redownload_psl reads t
  = "// " +:+ pretty t +:+ String Str.LF (copy_chunks reads).
Proof.
  unfold redownload_psl, psl_header, nl.
  rewrite !string_app_assoc. done.
Qed.

(** The verdict on a file that starts with a well-formed stamp. *)
Lemma need_to_redownload_stamp d rest now :
  Bytes.isdigit d = true → (String.length d < 20)%nat →
  need_to_redownload_psl (Some ("// " +:+ d +:+ String Str.LF rest)) now
  = (now + 60 * 60 <? Z.of_N (Bytes.int d))%Z
    || (REDOWNLOAD_INTERVAL <? now - Z.of_N (Bytes.int d))%Z.
Proof.
  intros Hd Hl. unfold need_to_redownload_psl.
  change (Bytes.take 3 ("// " +:+ d +:+ String Str.LF rest)) with "// ".
  change (Bytes.drop 3 ("// " +:+ d +:+ String Str.LF rest))
    with (d +:+ String Str.LF rest).
  cbn [String.eqb Ascii.eqb negb]. 
  pose proof Hd as [_ Hall]%andb_true_iff.
  rewrite find_digits_stamp by done. rewrite take_take_app by done.
  rewrite Hd. done.
Qed.

Lemma string_length_app (a b : string) :
  String.length (a +:+ b) = (String.length a + String.length b)%nat.
Proof. induction a as [|x a IH]; [done|]. rewrite app_String. simpl. by rewrite IH. Qed.

Lemma isdigit_pretty (x : N) : Bytes.isdigit (pretty x) = true.
Proof.
  unfold Bytes.isdigit. rewrite digits_pretty, andb_true_r.
  apply negb_true_iff, String.eqb_neq, pretty_N_nonempty.
Qed.

Lemma download_stamp reads t now :
  (0 ≤ t < 10 ^ 19)%Z →
  need_to_redownload_psl (Some (redownload_psl reads t)) now
  = (now + 60 * 60 <? t)%Z || (REDOWNLOAD_INTERVAL <? now - t)%Z.
Proof.
  intros Ht. rewrite redownload_psl_eq, pretty_Z_nonneg by lia.
  rewrite need_to_redownload_stamp.
  - rewrite int_pretty, Z2N.id by lia. done.
  - apply isdigit_pretty.
  - apply Nat.lt_succ_r, (length_pretty_upper 18).
    change (10 ^ N.of_nat 19)%N with (Z.to_N (10 ^ 19)). lia.
Qed.

(** *** The stamp survives the round trip *)

(** The header that [redownload_psl] writes at time [t] is read back
    by [need_to_redownload_psl] as [t]: a later check at time [now] asks
    for a new download exactly when [t] is more than an hour ahead of [now]
    or more than [REDOWNLOAD_INTERVAL] behind it, whatever the server sent.
    The clock must be non-negative and fit in 19 digits. *)
Theorem download_stamp_round_trip (reads : list string) (t now : Z) :
  (0 ≤ t < 10 ^ 19)%Z →
  need_to_redownload_psl (Some (redownload_psl reads t)) now
  = (now + 60 * 60 <? t)%Z || (REDOWNLOAD_INTERVAL <? now - t)%Z.
Proof. apply download_stamp. Qed.

Lemma download_stamp_round_trip_witness :
  need_to_redownload_psl (Some (redownload_psl [spec_text] 1700000000)) 1700040000
  = (1700040000 + 60 * 60 <? 1700000000)%Z
    || (REDOWNLOAD_INTERVAL <? 1700040000 - 1700000000)%Z.
Proof. apply download_stamp_round_trip. lia. Defined.

(** A list file passes the freshness check exactly when it starts
    with the three bytes [// ], then between 1 and 19 decimal digits, then
    a line feed, and the number the digits spell lies between
    [now - REDOWNLOAD_INTERVAL] and [now + 3600]. *)
Theorem fresh_list_stamp (f : string) (now : Z) :
  need_to_redownload_psl (Some f) now = false ↔
  ∃ digits rest,
    f = "// " +:+ digits +:+ String Str.LF rest ∧
    Bytes.isdigit digits = true ∧ (String.length digits < 20)%nat ∧
    (now - REDOWNLOAD_INTERVAL ≤ Z.of_N (Bytes.int digits) ≤ now + 60 * 60)%Z.
Proof.
  split.
  - unfold need_to_redownload_psl.
    destruct (String.eqb (Bytes.take 3 f) "// ") eqn:Hhead; [|done].
    apply String.eqb_eq in Hhead. cbn [negb].
    destruct (Bytes.find Str.LF (Bytes.take 20 (Bytes.drop 3 f)))
      as [k|] eqn:Hfind; [|done].
    destruct (Bytes.isdigit (Bytes.take k (Bytes.take 20 (Bytes.drop 3 f))))
      eqn:Hdig; [|done].
    cbn [negb]. intros [Hfut Hold]%orb_false_iff.
    apply Z.ltb_ge in Hfut, Hold.
    destruct (find_split _ _ _ Hfind) as [Hsplit Hlen].
    pose proof (bytes_length_take_le (Bytes.drop 3 f) 20) as Hle.
    rewrite Hsplit, string_length_app, Hlen in Hle. simpl in Hle.
    eexists _, (Bytes.drop (S k) (Bytes.take 20 (Bytes.drop 3 f))
                +:+ Bytes.drop 20 (Bytes.drop 3 f)).
    split_and!; [|exact Hdig|rewrite Hlen; lia|lia|lia].
    rewrite (bytes_take_drop f 3) at 1. rewrite Hhead. f_equal.
    rewrite (bytes_take_drop (Bytes.drop 3 f) 20) at 1.
    rewrite Hsplit at 1. by rewrite string_app_assoc, app_String.
  - intros (digits & rest & -> & Hdig & Hlen & Hlo & Hhi).
    rewrite need_to_redownload_stamp by done.
    apply orb_false_iff. split; apply Z.ltb_ge; lia.
Qed.

(** A clock outside the range never yields a list that passes the
    check: the stamp of a negative time starts with a minus sign, and a
    stamp of 20 digits or more has no line feed in the 20 bytes read. *)
Theorem stamp_out_of_range (reads : list string) (t now : Z) :
  (t < 0 ∨ 10 ^ 19 ≤ t)%Z →
  need_to_redownload_psl (Some (redownload_psl reads t)) now = true.
Proof.
  intros Ht. rewrite redownload_psl_eq. unfold need_to_redownload_psl.
  change (Bytes.take 3 ("// " +:+ ?s)) with "// ".
  change (Bytes.drop 3 ("// " +:+ pretty t +:+ String Str.LF (copy_chunks reads)))
    with (pretty t +:+ String Str.LF (copy_chunks reads)).
  cbn [String.eqb Ascii.eqb negb].
  destruct Ht as [Hneg|Hbig].
  - destruct t as [|p|p]; [lia|lia|].
    change (pretty (Z.neg p)) with (String "-" (pretty (N.pos p))).
    rewrite app_String. cbn [Bytes.take Bytes.find].
    change (Ascii.eqb "-" Str.LF) with false. cbn iota.
    destruct (Bytes.find Str.LF _) as [k|]; [|done].
    by cbn [fmap option_fmap option_map Bytes.take Bytes.isdigit Str.all_chars].
  - rewrite pretty_Z_nonneg by lia.
    rewrite take_app_long.
    + rewrite find_digits; [done|]. apply all_chars_take, digits_pretty.
    + apply (length_pretty_lower 19).
      change (10 ^ N.of_nat 19)%N with (Z.to_N (10 ^ 19)). lia.
Qed.

Lemma stamp_out_of_range_witness :
  need_to_redownload_psl (Some (redownload_psl [spec_text] (-1))) 0 = true.
Proof. apply stamp_out_of_range. lia. Defined.

(** *** The stamp line and the parser *)

Lemma all_chars_impl (P Q : ascii → bool) s :
  (∀ c, P c = true → Q c = true) →
  Str.all_chars P s = true → Str.all_chars Q s = true.
Proof.
  intros HPQ. induction s as [|c s IH]; [done|].
  simpl. intros [Hc Hs]%andb_true_iff. by rewrite (HPQ _ Hc), IH.
Qed.

Lemma digit_line_char c : Bytes.is_digit c = true → line_char c = true.
Proof.
  intros Hc. unfold line_char. rewrite (digit_not_LF _ Hc).
  destruct (Ascii.eqb_spec c Str.CR) as [->|]; [by vm_compute in Hc|done].
Qed.

Lemma line_chars_pretty (t : Z) : Str.all_chars line_char (pretty t) = true.
Proof.
  destruct t as [|p|p].
  - done.
  - apply (all_chars_impl Bytes.is_digit); [apply digit_line_char|].
    apply (digits_pretty (N.pos p)).
  - change (pretty (Z.neg p)) with (String "-" (pretty (N.pos p))).
    cbn [Str.all_chars]. apply andb_true_iff. split; [done|].
    apply (all_chars_impl Bytes.is_digit); [apply digit_line_char|].
    apply (digits_pretty (N.pos p)).
Qed.

Lemma readlines_line line body :
  Str.all_chars line_char line = true →
  Str.readlines (line +:+ String Str.LF body)
  = (line +:+ nl) :: Str.readlines body.
Proof.
  induction line as [|c line IH]; intros Hline.
  - simpl. done.
  - cbn [Str.all_chars] in Hline. apply andb_true_iff in Hline as [Hc Hline].
    apply andb_true_iff in Hc as [Hlf Hcr]. apply negb_true_iff in Hlf, Hcr.
    rewrite !app_String. cbn [Str.readlines]. rewrite Hlf, Hcr, IH by done. done.
Qed.

Lemma parse_line_comment st rest :
  parse_line st ("// " +:+ rest) = st.
Proof. done. Qed.

Lemma get_public_suffixes_download reads t :
  get_public_suffixes (redownload_psl reads t)
  = get_public_suffixes (copy_chunks reads).
Proof.
  rewrite redownload_psl_eq. unfold get_public_suffixes.
  change ("// " +:+ pretty t +:+ String Str.LF (copy_chunks reads))
    with (String "/" (String "/" (String " "
            (pretty t +:+ String Str.LF (copy_chunks reads))))).
  rewrite <- !app_String.
  rewrite readlines_line.
  - cbn [foldl]. by rewrite !app_String.
  - cbn [Str.all_chars]. rewrite line_chars_pretty. done.
Qed.

(** The stamp line adds no rule: the rules read from a downloaded file are
    the rules of what the server sent, whatever the clock said. *)
Theorem stamp_line_is_a_comment (reads : list string) (t : Z) :
  get_public_suffixes (redownload_psl reads t)
  = get_public_suffixes (copy_chunks reads).
Proof. apply get_public_suffixes_download. Qed.

(** ** A run of [main] *)

Lemma main_tries_download reads t :
  main_tries (redownload_psl reads t) = main_tries (copy_chunks reads).
Proof. unfold main_tries. by rewrite get_public_suffixes_download. Qed.

(** Whenever [main] regenerates the Swift file, the list file it leaves
    passes the freshness check at the time of the run, and the tries are
    built from that file.  The file is the one that was there, untouched,
    when it was fresh and there was no Swift file; otherwise it is a new
    download, and the tries are those of what the server sent. *)
Theorem main_leaves_a_fresh_list
    (psl_file : option string) (swift_file_exists : bool)
    (reads : list string) (now : Z) (psl : string)
    (tries : option (gmap string Rule * gmap string Rule)) :
  (0 ≤ now < 10 ^ 19)%Z →
  main psl_file swift_file_exists reads now = Regenerated psl tries →
  need_to_redownload_psl (Some psl) now = false ∧
  tries = main_tries psl ∧
  (psl_file = Some psl ∧ swift_file_exists = false ∨
   need_to_redownload_psl psl_file now = true ∧
   psl = redownload_psl reads now ∧
   tries = main_tries (copy_chunks reads)).
Proof.
  intros Hnow. unfold main.
  destruct (need_to_redownload_psl psl_file now) eqn:Hneed.
  - intros [= <- <-]. split_and!; [|done|].
    + rewrite download_stamp by done. unfold REDOWNLOAD_INTERVAL.
      apply orb_false_iff. split; apply Z.ltb_ge; lia.
    + right. split_and!; [done|done|apply main_tries_download].
  - destruct swift_file_exists; [done|].
    destruct psl_file as [f|]; [|done].
    intros [= <- <-]. split_and!; [done|done|]. by left.
Qed.

Lemma main_leaves_a_fresh_list_witness :
  need_to_redownload_psl (Some (redownload_psl [spec_text] 1700000000)) 1700000000
    = false ∧
  main_tries (redownload_psl [spec_text] 1700000000)
    = main_tries (redownload_psl [spec_text] 1700000000) ∧
  (None = Some (redownload_psl [spec_text] 1700000000) ∧ true = false ∨
   need_to_redownload_psl None 1700000000 = true ∧
   redownload_psl [spec_text] 1700000000 = redownload_psl [spec_text] 1700000000 ∧
   main_tries (redownload_psl [spec_text] 1700000000)
     = main_tries (copy_chunks [spec_text])).
Proof.
  apply (main_leaves_a_fresh_list None true [spec_text] 1700000000).
  - lia.
  - reflexivity.
Defined.

(** ** The names of the generated constants *)

Lemma autogen_name_inj prefix (i j : nat) :
  "__AUTOGEN_" +:+ prefix +:+ "_" +:+ pretty i
  = "__AUTOGEN_" +:+ prefix +:+ "_" +:+ pretty j → i = j.
Proof.
  intros H. apply (inj (String.app "__AUTOGEN_")) in H.
  apply (inj (String.app prefix)) in H.
  apply (inj (String.app "_")) in H. by apply (inj pretty) in H.
Qed.

Lemma cache_of_names prefix cache :
  cache_of prefix cache →
  (∀ s name, cache !! s = Some name →
     ∃ i, (i < size cache)%nat ∧
          name = "__AUTOGEN_" +:+ prefix +:+ "_" +:+ pretty i) ∧
  (∀ s1 s2 name,
     cache !! s1 = Some name → cache !! s2 = Some name → s1 = s2).
Proof.
  induction 1 as [|s cache Hcache [IHname IHinj]].
  - split; intros *; by rewrite lookup_empty.
  - unfold get_name. destruct (cache !! s) as [name0|] eqn:Hs; [done|].
    cbn [snd]. split.
    + intros s' name. rewrite map_size_insert_None by done.
      destruct (decide (s' = s)) as [->|Hne].
      * rewrite lookup_insert_eq. intros [= <-]. exists (size cache).
        split; [lia|done].
      * rewrite lookup_insert_ne by done. intros (i & Hi & ->)%IHname.
        exists i. split; [lia|done].
    + intros s1 s2 name.
      destruct (decide (s1 = s)) as [->|Hne1], (decide (s2 = s)) as [->|Hne2];
        [done|..].
      * rewrite lookup_insert_eq, lookup_insert_ne by done.
        intros [= <-] (i & Hi & Heq)%IHname.
        apply autogen_name_inj in Heq. lia.
      * rewrite lookup_insert_eq, lookup_insert_ne by done.
        intros (i & Hi & Heq)%IHname [= <-].
        apply autogen_name_inj in Heq. lia.
      * rewrite !lookup_insert_ne by done. apply IHinj.
Qed.

(** The names handed out by [get_name] are distinct: in a cache that starts
    empty and is filled by [get_name] only, two keys never share a name. *)
Theorem generated_names_distinct
    (prefix : string) (cache : gmap string string) (s1 s2 name1 name2 : string) :
  cache_of prefix cache → s1 ≠ s2 →
  cache !! s1 = Some name1 → cache !! s2 = Some name2 → name1 ≠ name2.
Proof.
  intros Hcache Hne H1 H2 <-. apply cache_of_names in Hcache as [_ Hinj].
  by apply Hne, (Hinj s1 s2 name1).
Qed.

Lemma generated_names_distinct_witness :
  "__AUTOGEN_p_suffixes_0" ≠ "__AUTOGEN_p_suffixes_1".
Proof.
  apply (generated_names_distinct "p_suffixes"
           (get_name "p_suffixes" "p_suffixesuk"
              (get_name "p_suffixes" "p_suffixesck" ∅).2).2
           "p_suffixesck" "p_suffixesuk").
  - repeat constructor.
  - done.
  - vm_compute. reflexivity.
  - vm_compute. reflexivity.
Defined.

(** ** The domain of a domain *)

Lemma no_exception_take n labels k :
  sentinel_ok n → accept_this_key ∉ labels → ("" ∉ labels) →
  no_exception n labels → no_exception n (take k labels).
Proof.
  intros Hn Hbang Hempty Hex [[lg tl] acc] Hneg. simpl.
  apply negative_loop_Next in Hneg
    as (_ & _ & _ & [[-> _]|(j' & Hj' & -> & Hterm & _)]); [done|].
  rewrite take_take in Hterm |- *. rewrite length_take in Hj'.
  replace (j' `min` k) with j' in * by lia.
  destruct (negative_loop_total labels [] [] [subrule n] (good_root n Hn) Hbang)
    as [[? _]|[_ [[[lg0 tl0] acc0] Hneg0]]]; [done|].
  pose proof (Hex _ Hneg0) as Hlg0. simpl in Hlg0. subst lg0.
  apply negative_loop_Next in Hneg0
    as (_ & _ & _ & [[_ Hno]|(j & Hj & Hlg & _ & Hno)]).
  - rewrite Hno in Hterm by lia. done.
  - destruct (decide (j' = 0)) as [->|Hne]; [done|].
    rewrite Hno in Hterm; [done|].
    split; [|lia]. destruct j; [lia|].
    destruct labels; [simpl in Hj; lia|done].
Qed.

Lemma split_on_reversed_joined hostname k :
  (0 < k)%nat →
  let labels := reverse (Str.split_on "." hostname) in
  reverse (Str.split_on "." (reversed_joined (take k labels))) = take k labels.
Proof.
  intros Hk labels. unfold reversed_joined.
  rewrite split_on_joined; [by rewrite reverse_involutive| |].
  - assert (labels ≠ []) as Hne.
    { unfold labels. destruct hostname; simpl; [done|].
      intros Hnil%(f_equal length). rewrite length_reverse in Hnil.
      by repeat case_match. }
    destruct k; [lia|]. destruct labels; [done|].
    intros Hnil%(f_equal length). rewrite length_reverse in Hnil. done.
  - apply Forall_reverse, Forall_take, Forall_reverse, Forall_forall.
    intros l Hl. by apply split_on_no_sep in Hl.
Qed.

Lemma matched_take p labels k i :
  (i ≤ k)%nat → matched p (take k labels) i = matched p labels i.
Proof.
  intros Hi. unfold matched. rewrite take_take. by replace (i `min` k) with i by lia.
Qed.

(** The registrable domain of a registrable domain is itself: when no
    exception rule applies to a hostname, asking again for the domain that
    [get_domain] returned for it returns the same domain. *)
Theorem domain_of_a_domain
    (positive negative : list rule) (p n : gmap string Rule)
    (hostname domain : string) :
  suffixes positive = Some p →
  suffixes negative = Some n →
  Forall plain_rule negative →
  let labels := reverse (Str.split_on "." hostname) in
  accept_this_key ∉ labels →
  no_exception_rule negative labels →
  get_domain p n hostname = Return (Some domain) →
  get_domain p n domain = Return (Some domain).
Proof.
  intros Hp Hn Hplain_n labels Hbang Hex Hres.
  pose proof (suffixes_sentinel_ok _ _ Hp) as Hokp.
  pose proof (suffixes_sentinel_ok _ _ Hn) as Hokn.
  apply (no_exception_rule_walk _ _ _ Hplain_n Hn) in Hex.
  assert ("" ∉ labels) as Hempty.
  { destruct (negative_loop_total labels [] [] [subrule n] (good_root n Hokn) Hbang)
      as [[_ Hneg]|[? _]]; [|done].
    rewrite get_domain_eq in Hres. fold labels in Hres. cbv zeta in Hres.
    unfold check_negative in Hres. by rewrite Hneg in Hres. }
  rewrite (get_domain_handed_over p n hostname Hokn Hbang Hempty Hex) in Hres.
  fold labels in Hres.
  pose proof (split_on_reversed_joined hostname) as Hsplit.
  fold labels in Hsplit. cbv zeta in Hsplit. clearbody labels.
  assert (existsb terminal (walk labels [subrule p]) = false) as Hfinal.
  { destruct (positive_part_good p labels Hokp Hbang) as (lg & tl & _ & Hpart).
    destruct (existsb terminal _); [congruence|done]. }
  (* the domain is the last [k] labels *)
  assert (∃ k, (0 < k ≤ length labels)%nat ∧
            domain = reversed_joined (take k labels) ∧
            match k with
            | 2 => (∀ i, i < length labels →
                      existsb terminal (matched p labels i) = false)
                   ∨ existsb terminal (matched p labels 1) = true
            | S j => existsb terminal (matched p labels j) = true
            | 0 => False
            end ∧
            ∀ i, (k ≤ i < length labels)%nat →
                 existsb terminal (matched p labels i) = false)
    as (k & Hk & -> & Hlast & Hafter).
  { destruct (positive_part_result p labels Hokp Hbang Hfinal)
      as [[Hno Hpart]|(j & Hj & Hterm & Hno & Hpart)]; rewrite Hpart in Hres.
    - destruct labels as [|l0 [|l1 rest]]; [done..|]. injection Hres as <-.
      exists 2. split_and!; [lia|simpl; lia|done|by left|].
      intros i Hi. apply Hno. lia.
    - injection Hres as <-. exists (S j). split_and!; [lia|lia|done| |].
      + destruct j as [|[|j]]; [done|by right|done].
      + intros i Hi. apply Hno. lia. }
  assert (existsb terminal (walk (take k labels) [subrule p]) = false) as Hfinal_d.
  { destruct (decide (k = length labels)) as [->|Hne].
    - by rewrite firstn_all.
    - apply (Hafter k). lia. }
  assert (accept_this_key ∉ take k labels) as Hbang_d.
  { intros H%elem_of_take. by destruct H as (? & ?%list_elem_of_lookup_2 & _). }
  assert ("" ∉ take k labels) as Hempty_d.
  { intros H%elem_of_take. by destruct H as (? & ?%list_elem_of_lookup_2 & _). }
  pose proof (no_exception_take n labels k Hokn Hbang Hempty Hex) as Hex_d.
  pose proof (get_domain_handed_over p n (reversed_joined (take k labels)) Hokn)
    as Hover. cbv zeta in Hover. rewrite Hsplit in Hover by lia.
  rewrite (Hover Hbang_d Hempty_d Hex_d).
  assert (length (take k labels) = k) as Hlen by (rewrite length_take; lia).
  destruct (positive_part_result p (take k labels) Hokp Hbang_d Hfinal_d)
    as [[Hno ->]|(j & Hj & Hterm & Hno & ->)].
  - rewrite Hlen in Hno.
    destruct k as [|[|[|k]]].
    + lia.
    + rewrite <- (matched_take p labels 1 0), Hno in Hlast by lia. done.
    + destruct labels as [|l0 [|l1 rest]]; [simpl in Hk; lia..|]. done.
    + rewrite <- (matched_take p labels (S (S (S k))) (S (S k))), Hno in Hlast
        by lia. done.
  - rewrite Hlen in Hj, Hno. rewrite matched_take in Hterm by lia.
    assert (S j = k) as <-; [|by rewrite take_take, Nat.min_id].
    destruct (decide (S j = k)) as [|Hne]; [done|]. exfalso.
    assert (existsb terminal (matched p labels (k - 1)) = false) as Hk1.
    { rewrite <- (matched_take p labels k (k - 1)) by lia. apply Hno. lia. }
    destruct k as [|[|[|k]]]; [lia|lia| |].
    + destruct Hlast as [Hnone|Hone].
      * rewrite Hnone in Hterm by lia. done.
      * simpl in Hk1. congruence.
    + replace (S (S (S k)) - 1) with (S (S k)) in Hk1 by lia. congruence.
Qed.

Lemma domain_of_a_domain_witness :
  get_domain spec_p spec_n "example.co.uk" = Return (Some "example.co.uk").
Proof.
  refine (domain_of_a_domain spec_positive spec_negative spec_p spec_n
            "www.example.co.uk" "example.co.uk" _ _ _ _ _ _).
  - vm_compute. reflexivity.
  - vm_compute. reflexivity.
  - by_decide.
  - by_decide.
  - intros e i He Hi. apply list_elem_of_singleton in He as ->.
    destruct i as [|[|[|[|i]]]]; [by_decide..|simpl in Hi; lia].
  - vm_compute. reflexivity.
Defined.

(** ** A hostname with a sentinel label *)

Lemma bang_ok_empty : bang_ok ∅.
Proof. constructor; intros k; by rewrite lookup_empty. Qed.

Lemma insert_rule_bang_ok ks t t' :
  accept_this_key ∉ ks → bang_ok t → insert_rule ks t = Some t' → bang_ok t'.
Proof.
  revert t t'. induction ks as [|l ls IH]; intros t t' Hks Ht H.
  - simplify_eq/=. destruct Ht as [t Hb Hs]. constructor.
    + intros d'. by rewrite lookup_insert_eq.
    + intros k d'. rewrite lookup_insert. case_decide; [done|]. apply Hs.
  - apply not_elem_of_cons in Hks as [Hl Hks].
    assert (∀ sub, bang_ok sub → bang_ok (<[l := subrule sub]> t)) as Hins.
    { intros sub Hsub. destruct Ht as [t Hb Hs]. constructor.
      - intros d'. rewrite lookup_insert_ne by done. apply Hb.
      - intros k d'. rewrite lookup_insert. case_decide; [|apply Hs].
        by intros [= <-]. }
    simpl in H. destruct (t !! l) as [[|d]|] eqn:E; [done| |].
    + destruct (insert_rule ls d) as [sub|] eqn:E2; simplify_eq/=.
      apply Hins. eapply IH; [done| |done]. destruct Ht as [t Hb Hs]. eauto.
    + destruct (insert_rule ls ∅) as [sub|] eqn:E2; simplify_eq/=.
      apply Hins. eapply IH; [done| |done]. apply bang_ok_empty.
Qed.

Lemma insert_rules_bang_ok rules t t' :
  Forall (λ r, accept_this_key ∉ r) rules →
  bang_ok t → insert_rules rules t = Some t' → bang_ok t'.
Proof.
  revert t. induction rules as [|r rs IH]; intros t Hrules Ht H; simplify_eq/=; [done|].
  apply Forall_cons in Hrules as [Hr Hrules].
  destruct (insert_rule (reverse r) t) as [t1|] eqn:E; simplify_eq/=.
  eapply IH; [done| |done]. eapply insert_rule_bang_ok; [|done..].
  by rewrite elem_of_reverse.
Qed.

Lemma suffixes_bang_ok rules p :
  Forall plain_rule rules → suffixes rules = Some p → bang_ok p.
Proof.
  intros Hplain (t & Ht & ->)%suffixes_inv.
  assert (bang_ok t) as [t0 Hb Hs].
  { eapply insert_rules_bang_ok; [|apply bang_ok_empty|exact Ht].
    eapply Forall_impl; [done|]. by intros r [_ ?]. }
  constructor.
  - intros d'. rewrite filter_top_rules_lookup.
    destruct (t0 !! accept_this_key) as [v|] eqn:E; [|done].
    simpl. destruct (is_accept_dict v); [done|]. intros [= ->]. by eapply Hb.
  - intros k d'. rewrite filter_top_rules_lookup.
    destruct (t0 !! k) as [v|] eqn:E; [|done].
    simpl. destruct (is_accept_dict v); [done|]. intros [= ->]. by eapply Hs.
Qed.

Lemma bang_ok_node_at ks d d' :
  bang_ok d → node_at ks d = Some (subrule d') → bang_ok d'.
Proof.
  revert d. induction ks as [|k ks IH]; intros d Hd H.
  - by simplify_eq/=.
  - simpl in H. destruct (d !! k) as [[|d1]|] eqn:E; [by destruct ks| |done].
    eapply IH; [|done]. destruct Hd as [d Hb Hs]. eauto.
Qed.

Lemma for_each_app {A S} (body : S → A → Exec S) xs ys s :
  for_each body (xs ++ ys) s = s' ← for_each body xs s; for_each body ys s'.
Proof.
  revert s. induction xs as [|x xs IH]; intros s; [done|].
  cbn [app for_each]. destruct (body s x) as [| |s1]; [done..|].
  cbn [mbind Exec_bind]. apply IH.
Qed.

Lemma negative_loop_dead labels lg tl :
  ("" ∉ labels) →
  for_each negative_step labels (lg, tl, []) = Next (lg, tl ++ labels, []).
Proof.
  revert tl. induction labels as [|l ls IH]; intros tl Hne.
  - by rewrite app_nil_r.
  - apply not_elem_of_cons in Hne as [Hl Hls].
    cbn [for_each]. rewrite negative_step_eq.
    rewrite bool_decide_eq_false_2 by (rewrite length_0_empty; congruence).
    cbn [for_each mbind Exec_bind]. rewrite IH by done.
    by rewrite <- app_assoc.
Qed.

(** A hostname can reach the assertion of [Rule.subrule]: when a positive
    rule of two labels or more matches the last labels of the hostname, the
    label before them is the sentinel ["!"], at least one more label comes
    before it, and the exception trie has nothing for the last label, the
    second loop looks the sentinel up as if it were a label, takes
    [Rule.accept_this] for a matched node, and asks for its dictionary at
    the next label. *)
Theorem sentinel_label_reaches_the_assertion
    (positive : list rule) (p n : gmap string Rule) (hostname : string) (r : rule) :
  suffixes positive = Some p →
  Forall plain_rule positive →
  r ∈ positive → (2 ≤ length r)%nat →
  let labels := reverse (Str.split_on "." hostname) in
  ("" ∉ labels) →
  accept_this_key ∉ take (length r) labels →
  rule_matches r (take (length r) labels) →
  labels !! length r = Some accept_this_key →
  (S (length r) < length labels)%nat →
  matched n labels 1 = [] →
  get_domain p n hostname = Trap.
Proof.
  intros Hp Hplain Hr Hlen labels Hempty Hbang Hmatch Hat Hmore Hdead.
  pose proof (suffixes_sentinel_ok _ _ Hp) as Hokp.
  assert (plain_rule r) as Hplain_r by by eapply Forall_forall in Hplain.
  rewrite get_domain_eq. fold labels. cbv zeta. clearbody labels.
  (* the exception phase dies out at the first label *)
  assert (check_negative n labels = Next ([], labels, [])) as ->.
  { unfold check_negative. destruct labels as [|l0 rest]; [simpl in Hmore; lia|].
    apply not_elem_of_cons in Hempty as [Hl0 Hrest].
    cbn [for_each]. rewrite negative_step_eq.
    rewrite bool_decide_eq_false_2 by (rewrite length_0_empty; congruence).
    rewrite scan_rules_Next by (by repeat constructor).
    cbn [mbind Exec_bind app].
    change (advance l0 [subrule n]) with (matched n (l0 :: rest) 1).
    rewrite Hdead, negative_loop_dead by done.
    by destruct (existsb terminal _). }
  cbn [mbind Exec_bind fst snd length]. rewrite bool_decide_eq_true_2 by done.
  cbn [negb].
  (* the positive phase: the labels of the rule, the sentinel, one more *)
  destruct (drop (S (length r)) labels) as [|l l2] eqn:Hdrop.
  { apply (f_equal length) in Hdrop. rewrite length_drop in Hdrop.
    simpl in Hdrop. lia. }
  assert (labels = take (length r) labels ++ accept_this_key :: l :: l2) as Hsplit.
  { rewrite <- Hdrop. rewrite <- (take_drop (length r) labels) at 1.
    f_equal. by apply drop_S. }
  set (l1 := take (length r) labels) in *. clearbody l1.
  unfold positive_part, check_positive. rewrite Hsplit, for_each_app.
  destruct (positive_loop_total l1 [] [] [subrule p] (good_root p Hokp) Hbang)
    as [[[lg tl] acc] Hpos].
  rewrite Hpos. cbn [mbind Exec_bind].
  apply positive_loop_Next in Hpos as (_ & -> & _).
  assert (Forall good (walk l1 [subrule p])) as Hgood
    by by apply walk_good; [apply good_root|].
  cbn [for_each]. rewrite positive_step_eq.
  rewrite scan_rules_Next by by apply Forall_good_subrule.
  cbn [mbind Exec_bind app]. rewrite positive_step_eq.
  rewrite scan_rules_Trap; [done|].
  intros Hall. 
  assert (accept_this ∈ advance accept_this_key (walk l1 [subrule p])) as Hin.
  { destruct (suffixes_inv _ _ Hp) as (t & Ht & ->).
    destruct (terminal_at_pruned r t Hplain_r Hlen) as (d' & Hnode & [v Hv]).
    { eapply rules_to_tree_terminal_at; [done..|]. by destruct Hplain_r. }
    assert (v = accept_this) as ->.
    { destruct v as [|d'']; [done|]. exfalso.
      assert (bang_ok d') as Hbok.
      { eapply bang_ok_node_at; [|exact Hnode].
        by eapply suffixes_bang_ok; [|exact Hp]. }
      inversion Hbok as [d0 Hb _ Heq]. by eapply Hb. }
    unfold advance. apply list_elem_of_bind. exists (subrule d'). split.
    - cbn [children]. apply elem_of_app. right. rewrite Hv. left.
    - eapply walk_complete; [exact Hmatch|left|done]. }
  eapply Forall_forall in Hall; [|exact Hin]. done.
Qed.

Lemma sentinel_label_reaches_the_assertion_witness :
  get_domain spec_p spec_n "www.!.co.uk" = Trap.
Proof.
  refine (sentinel_label_reaches_the_assertion spec_positive spec_p spec_n
            "www.!.co.uk" ["co"; "uk"] _ _ _ _ _ _ _ _ _ _).
  - vm_compute. reflexivity.
  - by_decide.
  - by_decide.
  - simpl. lia.
  - by_decide.
  - by_decide.
  - by_decide.
  - reflexivity.
  - simpl. lia.
  - vm_compute. reflexivity.
Defined.

(** ** The emitter *)

Lemma PyValue_ind' (P : PyValue → Prop) :
  P PyTrue →
  (∀ items, Forall (λ kv, P kv.2) items → P (PyDict items)) →
  ∀ v, P v.
Proof.
  intros HT HD. fix IH 1. intros [|items]; [done|].
  apply HD. induction items as [|[k v] items IHi]; constructor; [apply IH|done].
Qed.

Lemma digits_app_inj d1 d2 k1 k2 :
  Str.all_chars Bytes.is_digit d1 = true →
  Str.all_chars Bytes.is_digit d2 = true →
  good_key k1 = true → good_key k2 = true →
  d1 +:+ k1 = d2 +:+ k2 → d1 = d2 ∧ k1 = k2.
Proof.
  revert d2. induction d1 as [|c d1 IH]; intros [|c2 d2] H1 H2 Hk1 Hk2 Heq.
  - done.
  - exfalso. rewrite app_String in Heq. change ("" +:+ k1) with k1 in Heq. subst k1.
    simpl in H2, Hk1. apply andb_true_iff in H2 as [H2 _]. by rewrite H2 in Hk1.
  - exfalso. rewrite app_String in Heq. change ("" +:+ k2) with k2 in Heq. subst k2.
    simpl in H1, Hk2. apply andb_true_iff in H1 as [H1 _]. by rewrite H1 in Hk2.
  - rewrite !app_String in Heq. injection Heq as -> Heq.
    simpl in H1, H2. apply andb_true_iff in H1 as [_ H1], H2 as [_ H2].
    destruct (IH d2 H1 H2 Hk1 Hk2 Heq) as [-> ->]. done.
Qed.

Lemma digits_pretty_nat (i : nat) : Str.all_chars Bytes.is_digit (pretty i) = true.
Proof. apply (digits_pretty (N.of_nat i)). Qed.

Lemma autogen_app_inj prefix i j k1 k2 :
  good_key k1 = true → good_key k2 = true →
  autogen prefix i +:+ k1 = autogen prefix j +:+ k2 → i = j ∧ k1 = k2.
Proof.
  intros Hk1 Hk2 H. unfold autogen in H. rewrite !string_app_assoc in H.
  apply (inj (String.app "__AUTOGEN_")) in H.
  apply (inj (String.app prefix)) in H.
  apply (inj (String.app "_")) in H.
  apply digits_app_inj in H as [H ->]; [|apply digits_pretty_nat..|done|done].
  by apply (inj pretty) in H.
Qed.

Lemma autogen_inj prefix i j : autogen prefix i = autogen prefix j → i = j.
Proof. apply autogen_name_inj. Qed.

Lemma string_app_inv_tail (a b s : string) : a +:+ s = b +:+ s → a = b.
Proof.
  revert b. induction a as [|x a IH]; intros [|y b] H; [done| | |].
  - exfalso. apply (f_equal String.length) in H.
    rewrite !string_length_app in H. simpl in H. lia.
  - exfalso. apply (f_equal String.length) in H.
    rewrite !string_length_app in H. simpl in H. lia.
  - rewrite !app_String in H. injection H as -> H. f_equal. by apply IH.
Qed.

Lemma decl_header_inj n1 n2 : decl_header n1 = decl_header n2 → n1 = n2.
Proof.
  unfold decl_header. intros H. apply (inj (String.app "fileprivate let ")) in H.
  by apply string_app_inv_tail in H.
Qed.

Lemma string_prefix_app p s : String.prefix p (p +:+ s) = true.
Proof.
  induction p as [|a p IH]; [by destruct s|].
  rewrite app_String. simpl. by destruct (ascii_dec a a).
Qed.

Lemma is_decl_header n : is_decl (decl_header n).
Proof. apply string_prefix_app. Qed.

Lemma not_decl_entry k sub : ¬ is_decl (to_swift_string k +:+ ": " +:+ sub).
Proof.
  unfold is_decl, to_swift_string, CONSTANT_NAMES.
  destruct (String.eqb k "!"); [by cbv|]. destruct (String.eqb k "*"); by cbv.
Qed.

Lemma top_not_autogen top prefix i : name_ok top = true → top ≠ autogen prefix i.
Proof. intros Htop H. rewrite H in Htop. done. Qed.

Lemma below_not_fresh top prefix m m' n :
  name_ok top = true → below top prefix m n → ¬ fresh_between prefix m m' n.
Proof.
  intros Htop [->|(i & Hi & ->)] (j & Hj & Heq).
  - by apply top_not_autogen in Heq.
  - apply autogen_inj in Heq. lia.
Qed.

Lemma below_mono top prefix m m' n :
  (m ≤ m')%nat → below top prefix m n → below top prefix m' n.
Proof. intros ? [->|(i & ? & ->)]; [by left|right; exists i; split; [lia|done]]. Qed.

Lemma entry_inj top prefix n1 k1 n2 k2 :
  name_ok top = true →
  entry_ok top prefix n1 k1 → entry_ok top prefix n2 k2 →
  n1 +:+ k1 = n2 +:+ k2 → n1 = n2 ∧ k1 = k2.
Proof.
  intros Htop [->|[[i ->] Hk1]] [->|[[j ->] Hk2]] Heq.
  - by apply (inj (String.app top)) in Heq.
  - exfalso. destruct top as [|c t]; [done|].
    unfold autogen in Heq. rewrite !app_String in Heq.
    injection Heq as -> _. done.
  - exfalso. destruct top as [|c t]; [done|].
    unfold autogen in Heq. rewrite !app_String in Heq.
    injection Heq as <- _. done.
  - apply autogen_app_inj in Heq as [-> ->]; done.
Qed.

Lemma get_name_hit prefix s cache :
  is_Some (cache !! s) → (get_name prefix s cache).2 = cache.
Proof. intros [name H]. unfold get_name. by rewrite H. Qed.

Lemma get_name_miss prefix s cache :
  cache !! s = None →
  get_name prefix s cache
  = (autogen prefix (size cache), <[s := autogen prefix (size cache)]> cache).
Proof. intros H. unfold get_name. by rewrite H. Qed.

Lemma sub_name_of_cache name prefix k v cache :
  (nonleaf v = true → is_Some (cache !! (name +:+ k))) →
  (sub_name_of name prefix k v cache).2 = cache.
Proof.
  intros Hhit. unfold sub_name_of. destruct v as [|d]; [done|].
  destruct (is_accept_this_dict (PyDict d)) eqn:Hacc; [done|].
  apply get_name_hit, Hhit. unfold nonleaf. by rewrite Hacc.
Qed.

Lemma second_loop_spec name prefix d (st : emit_state) first :
  (∀ k v, (k, v) ∈ d → nonleaf v = true → is_Some (st.2 !! (name +:+ k))) →
  ∃ extra, Forall (λ w, ¬ is_decl w) extra ∧
    (foldl (second_loop_step name prefix) (st, first) d).1
    = (st.1 ++ extra, st.2).
Proof.
  revert st first. induction d as [|[k v] d IH]; intros st first Hhits.
  - exists []. split; [done|]. destruct st. simpl. by rewrite app_nil_r.
  - cbn [foldl]. unfold second_loop_step at 2. cbn [fst snd].
    rewrite sub_name_of_cache by (intros ?; apply (Hhits k v); [left|done]).
    unfold callback. cbn [fst snd].
    edestruct IH as (extra & Hextra & ->).
    { cbn [fst snd]. intros k' v' Hin. apply Hhits. by right. }
    cbn [fst snd]. eexists. split; last first.
    { rewrite <- !app_assoc. reflexivity. }
    apply Forall_app. split; [|apply Forall_app; split; [|done]].
    + apply Forall_singleton. unfold is_decl. destruct first; by cbv.
    + apply Forall_singleton, not_decl_entry.
Qed.

Lemma entry_ok_child top prefix name m k :
  below top prefix m name → (name = top ∨ good_key k = true) →
  entry_ok top prefix name k.
Proof.
  intros [->|(i & _ & ->)] [Hn|Hk]; [by left|by left| |].
  - by left.
  - right. split; [by exists i|done].
Qed.

Lemma first_loop_miss top prefix name st0 processed st k :
  name_ok top = true →
  pre top prefix name st0 →
  loop_inv top prefix name st0 processed st →
  (name = top ∨ good_key k = true) →
  k ∉ processed.*1 →
  st.2 !! (name +:+ k) = None.
Proof.
  intros Htop Hpre Hinv Hk Hnew.
  pose proof (entry_ok_child _ _ _ _ k (pre_name _ _ _ _ Hpre) Hk) as Hok.
  destruct (st.2 !! (name +:+ k)) as [x|] eqn:Hlook; [exfalso|done].
  destruct (loop_keys _ _ _ _ _ _ Hinv (name +:+ k)) as [Hold|Hnew'];
    [by rewrite Hlook| |].
  - destruct (pre_keys _ _ _ _ Hpre _ Hold) as (n & k' & Heq & Hok' & _ & Hne).
    by destruct (entry_inj _ _ _ _ _ _ Htop Hok Hok' Heq) as [<- _].
  - destruct Hnew' as (n & k' & Heq & Hok' & [[-> Hin]|Hfresh]).
    + by destruct (entry_inj _ _ _ _ _ _ Htop Hok Hok' Heq) as [_ <-].
    + destruct (entry_inj _ _ _ _ _ _ Htop Hok Hok' Heq) as [<- _].
      by eapply below_not_fresh; [done|apply (pre_name _ _ _ _ Hpre)|].
Qed.

Lemma fresh_between_mono prefix a b a' b' n :
  (a' ≤ a)%nat → (b ≤ b')%nat →
  fresh_between prefix a b n → fresh_between prefix a' b' n.
Proof. intros ?? (i & ? & ->). exists i. split; [lia|done]. Qed.

Lemma first_loop_pre top prefix name st0 processed st k :
  name_ok top = true →
  pre top prefix name st0 →
  loop_inv top prefix name st0 processed st →
  (name = top ∨ good_key k = true) →
  st.2 !! (name +:+ k) = None →
  pre top prefix (autogen prefix (size st.2))
    (st.1, <[name +:+ k := autogen prefix (size st.2)]> st.2).
Proof.
  intros Htop Hpre Hinv Hk Hmiss.
  pose proof (pre_name _ _ _ _ Hpre) as Hname.
  pose proof (loop_size _ _ _ _ _ _ Hinv) as Hsize.
  assert (name ≠ autogen prefix (size st.2)) as Hne.
  { destruct Hname as [->|(i & Hi & ->)]; [by apply top_not_autogen|].
    intros ?%autogen_inj. lia. }
  constructor; cbn [fst snd]; rewrite ?map_size_insert_None by done.
  - intros key Hkey. destruct (decide (key = name +:+ k)) as [->|Hkne].
    + exists name, k. split_and!; [done| |by eapply below_mono; [|done]; lia|done].
      by eapply entry_ok_child.
    + rewrite lookup_insert_ne in Hkey by done.
      destruct (loop_keys _ _ _ _ _ _ Hinv key Hkey) as [Hold|Hnew].
      * destruct (pre_keys _ _ _ _ Hpre _ Hold) as (n & k' & Heq & Hok & Hb & _).
        exists n, k'. split_and!; [done|done|by eapply below_mono; [|done]; lia|].
        destruct Hb as [->|(i & Hi & ->)]; [by apply top_not_autogen|].
        intros ?%autogen_inj. lia.
      * destruct Hnew as (n & k' & Heq & Hok & [[-> _]|(i & Hi & ->)]).
        -- exists name, k'. split_and!; [done|done| |done].
           by eapply below_mono; [|done]; lia.
        -- exists (autogen prefix i), k'. split_and!; [done|done| |].
           ++ right. exists i. split; [lia|done].
           ++ intros ?%autogen_inj. lia.
  - right. exists (size st.2). split; [lia|done].
  - intros n Hn. destruct (loop_decl _ _ _ _ _ _ Hinv n Hn) as [Hold|(i & Hi & ->)].
    + destruct (pre_decl _ _ _ _ Hpre n Hold) as (Hnt & _ & Hidx).
      split_and!; [done| |].
      * intros ->. specialize (Hidx _ eq_refl). lia.
      * intros i Hi. specialize (Hidx i Hi). lia.
    + split_and!.
      * intros H. symmetry in H. by apply top_not_autogen in H.
      * intros ?%autogen_inj. lia.
      * intros j ?%autogen_inj. lia.
  - apply (loop_nodup _ _ _ _ _ _ Hinv).
Qed.

Lemma first_loop_after top prefix name st0 processed st k v st2 :
  loop_inv top prefix name st0 processed st →
  entry_ok top prefix name k →
  st.2 !! (name +:+ k) = None →
  post top prefix (autogen prefix (size st.2))
    (st.1, <[name +:+ k := autogen prefix (size st.2)]> st.2) st2 →
  loop_inv top prefix name st0 (processed ++ [(k, v)]) st2.
Proof.
  intros Hinv Hentry Hmiss Hpost.
  pose proof (loop_size _ _ _ _ _ _ Hinv) as Hsize.
  pose proof (post_size _ _ _ _ _ Hpost) as Hsize2.
  cbn [fst snd] in Hsize2. rewrite map_size_insert_None in Hsize2 by done.
  constructor.
  - lia.
  - etrans; [apply (loop_cache _ _ _ _ _ _ Hinv)|].
    etrans; [|apply (post_cache _ _ _ _ _ Hpost)].
    cbn [fst snd]. by apply insert_subseteq.
  - intros key Hkey. rewrite fmap_app.
    destruct (post_keys _ _ _ _ _ Hpost key Hkey) as [Hold|Hnew];
      cbn [fst snd] in *; rewrite ?map_size_insert_None in * by done.
    + destruct (decide (key = name +:+ k)) as [->|Hkne].
      * right. exists name, k. split_and!; [done..|]. left. split; [done|].
        apply elem_of_app. right. cbn. left.
      * rewrite lookup_insert_ne in Hold by done.
        destruct (loop_keys _ _ _ _ _ _ Hinv key Hold)
          as [?|(n & k' & Heq & Hok & [[-> Hin]|Hfresh])]; [by left|right..].
        -- exists name, k'. split_and!; [done..|]. left. split; [done|].
           apply elem_of_app. by left.
        -- exists n, k'. split_and!; [done..|]. right.
           by eapply fresh_between_mono; [| |done]; lia.
    + destruct Hnew as (n & k' & Heq & Hok & [->|Hfresh]); right.
      * exists (autogen prefix (size st.2)), k'. split_and!; [done..|]. right.
        exists (size st.2). split; [lia|done].
      * exists n, k'. split_and!; [done..|]. right.
        by eapply fresh_between_mono; [| |done]; lia.
  - intros n Hn.
    destruct (post_decl _ _ _ _ _ Hpost n Hn) as [Hold|[->|Hfresh]];
      cbn [fst snd] in *; rewrite ?map_size_insert_None in * by done.
    + destruct (loop_decl _ _ _ _ _ _ Hinv n Hold) as [?|Hfresh]; [by left|right].
      by eapply fresh_between_mono; [| |done]; lia.
    + right. exists (size st.2). split; [lia|done].
    + right. by eapply fresh_between_mono; [| |done]; lia.
  - apply (post_nodup _ _ _ _ _ Hpost).
  - intros k0 v0 [Hin|Heq%list_elem_of_singleton]%elem_of_app Hnl.
    + destruct (loop_hits _ _ _ _ _ _ Hinv k0 v0 Hin Hnl) as [x Hx].
      exists x. eapply lookup_weaken; [|apply (post_cache _ _ _ _ _ Hpost)].
      cbn [fst snd]. eapply lookup_weaken; [done|]. by apply insert_subseteq.
    + injection Heq as -> ->. eexists.
      eapply lookup_weaken; [|apply (post_cache _ _ _ _ _ Hpost)].
      cbn [fst snd]. apply lookup_insert_eq.
  - intros w Hw. apply (post_written _ _ _ _ _ Hpost). cbn [fst].
    by apply (loop_written _ _ _ _ _ _ Hinv).
Qed.

Lemma loop_inv_skip top prefix name st0 processed st k v :
  loop_inv top prefix name st0 processed st →
  nonleaf v = false →
  loop_inv top prefix name st0 (processed ++ [(k, v)]) st.
Proof.
  intros Hinv Hnl. destruct Hinv as [Hsize Hcache Hkeys Hdecl Hnodup Hhits Hwr].
  constructor; [done|done| |done|done| |done].
  - intros key Hkey.
    destruct (Hkeys key Hkey) as [?|(n & k' & Heq & Hok & [[-> Hin]|Hfresh])];
      [by left|right..].
    + exists name, k'. split_and!; [done..|]. left. split; [done|].
      rewrite fmap_app. apply elem_of_app. by left.
    + exists n, k'. split_and!; [done..|]. by right.
  - intros k0 v0 [Hin|Heq%list_elem_of_singleton]%elem_of_app Hnl0.
    + by apply (Hhits k0 v0).
    + injection Heq as -> ->. congruence.
Qed.

Lemma loop_inv_start top prefix name st0 :
  pre top prefix name st0 → loop_inv top prefix name st0 [] st0.
Proof.
  intros Hpre. constructor; [done|done|by left|by left|apply Hpre| |done].
  intros k v Hin. by apply elem_of_nil in Hin.
Qed.

Lemma first_loop_spec top prefix name st0 :
  name_ok top = true →
  pre top prefix name st0 →
  ∀ rest processed st,
  NoDup (processed ++ rest).*1 →
  (name = top ∨ Forall (λ kv, nonleaf kv.2 = true → good_key kv.1 = true) rest) →
  Forall (λ kv, tree_ok kv.2) rest →
  Forall (λ kv, dict_spec top prefix kv.2) rest →
  loop_inv top prefix name st0 processed st →
  loop_inv top prefix name st0 (processed ++ rest)
    (foldl (first_loop_step
              (λ sub v' st', make_swift_dict sub v' prefix st') name prefix)
       st rest).
Proof.
  intros Htop Hpre. induction rest as [|[k v] rest IH];
    intros processed st Hnodup Hkeys Htree Hspec Hinv.
  - by rewrite app_nil_r.
  - cbn [foldl].
    replace (processed ++ (k, v) :: rest) with ((processed ++ [(k, v)]) ++ rest)
      in * by (by rewrite <- app_assoc).
    apply Forall_cons in Htree as [Hv Htree], Hspec as [Hspec_v Hspec].
    assert (nonleaf v = true → name = top ∨ good_key k = true) as Hk.
    { intros Hnl. destruct Hkeys as [?|[Hg _]%Forall_cons]; [by left|right].
      by apply Hg. }
    apply IH; [done| |done|done|].
    { destruct Hkeys as [?|[_ ?]%Forall_cons]; [by left|by right]. }
    unfold first_loop_step. cbn [fst snd]. fold (nonleaf v).
    destruct (nonleaf v) eqn:Hnl; [|by apply loop_inv_skip].
    specialize (Hk eq_refl).
    assert (k ∉ processed.*1) as Hnew.
    { rewrite !fmap_app in Hnodup. apply NoDup_app in Hnodup as [Hnodup _].
      apply NoDup_app in Hnodup as (_ & Hdisj & _).
      intros Hin. apply (Hdisj k Hin). cbn. left. }
    pose proof (first_loop_miss _ _ _ _ _ _ k Htop Hpre Hinv Hk Hnew) as Hmiss.
    rewrite get_name_miss by done. cbn [fst snd].
    eapply first_loop_after; [done| |done|].
    { by eapply entry_ok_child; [apply Hpre|]. }
    destruct v as [|d]; [done|]. inversion Hv as [|? Hnd Hall]; subst.
    eapply (Hspec_v _ _ d); [done|done| | |].
    + right. eapply Forall_impl; [done|]. by intros ? [? _].
    + eapply Forall_impl; [done|]. by intros ? [_ ?].
    + by eapply first_loop_pre.
Qed.

Lemma make_swift_dict_eq name d prefix st :
  make_swift_dict name (PyDict d) prefix st =
  callback
    (foldl (second_loop_step name prefix)
       (callback
          (foldl (first_loop_step
                    (λ sub v' st', make_swift_dict sub v' prefix st') name prefix)
             st d)
          (decl_header name), true) d).1
    (nl +:+ "])" +:+ nl).
Proof. done. Qed.

Lemma declarations_app l1 l2 :
  declarations (l1 ++ l2) = declarations l1 ++ declarations l2.
Proof. apply filter_app. Qed.

Lemma declarations_none l : Forall (λ w, ¬ is_decl w) l → declarations l = [].
Proof.
  induction 1 as [|w l Hw _ IH]; [done|].
  unfold declarations. rewrite filter_cons_False by done. exact IH.
Qed.

Lemma make_swift_dict_post top prefix v :
  name_ok top = true → dict_spec top prefix v.
Proof.
  intros Htop. induction v as [|items IH] using PyValue_ind'; [by intros ???|].
  intros name st0 d [= <-] Hnodup Hkeys Htree Hpre.
  rewrite make_swift_dict_eq.
  pose proof (first_loop_spec top prefix name st0 Htop Hpre items [] st0
                Hnodup Hkeys Htree IH (loop_inv_start _ _ _ _ Hpre)) as Hloop.
  cbn [app] in Hloop.
  set (st1 := foldl _ st0 items) in *. clearbody st1.
  destruct (second_loop_spec name prefix items (callback st1 (decl_header name)) true)
    as (extra & Hextra & ->).
  { intros k v Hin Hnl. apply (loop_hits _ _ _ _ _ _ Hloop k v Hin Hnl). }
  unfold callback. cbn [fst snd].
  assert (¬ is_decl (nl +:+ "])" +:+ nl)) as Hclose by by cbv.
  constructor; cbn [fst snd].
  - apply Hloop.
  - apply Hloop.
  - intros key Hkey.
    destruct (loop_keys _ _ _ _ _ _ Hloop key Hkey)
      as [?|(n & k & Heq & Hok & [[-> _]|Hfresh])]; [by left|right..].
    + exists name, k. split_and!; [done..|by left].
    + exists n, k. split_and!; [done..|by right].
  - intros n Hn. rewrite !elem_of_app, !list_elem_of_singleton in Hn.
    destruct Hn as [[[Hn|Hn]|Hn]|Hn].
    + destruct (loop_decl _ _ _ _ _ _ Hloop n Hn) as [?|?]; [by left|by right; right].
    + right. left. by apply decl_header_inj.
    + exfalso. eapply Forall_forall in Hextra; [|done].
      apply Hextra, is_decl_header.
    + exfalso. apply Hclose. rewrite <- Hn. apply is_decl_header.
  - rewrite !declarations_app, (declarations_none extra) by done.
    rewrite (declarations_none [nl +:+ "])" +:+ nl]) by by apply Forall_singleton.
    rewrite !app_nil_r.
    replace (declarations [decl_header name]) with [decl_header name]
      by (unfold declarations; by rewrite filter_cons_True by apply is_decl_header).
    apply NoDup_app. split_and!.
    + apply Hloop.
    + intros w Hw ->%list_elem_of_singleton.
      apply list_elem_of_filter in Hw as [_ Hw].
      destruct (loop_decl _ _ _ _ _ _ Hloop name Hw) as [Hold|Hfresh].
      * by destruct (pre_decl _ _ _ _ Hpre name Hold) as (_ & ? & _).
      * by eapply below_not_fresh; [done|apply (pre_name _ _ _ _ Hpre)|].
    + apply NoDup_singleton.
  - rewrite !elem_of_app, !list_elem_of_singleton. by left; left; right.
  - intros w Hw. rewrite !elem_of_app. do 3 left.
    by apply (loop_written _ _ _ _ _ _ Hloop).
Qed.

Lemma make_swift_dict_top_spec name d written :
  name_ok name = true → inner_keys_ok d →
  NoDup (declarations written) →
  (∀ n, decl_header n ∈ written → n ≠ name ∧ ∀ i, n ≠ autogen name i) →
  NoDup (declarations (make_swift_dict_top name d written)) ∧
  decl_header name ∈ make_swift_dict_top name d written ∧
  (∀ w, w ∈ written → w ∈ make_swift_dict_top name d written) ∧
  ∀ n, decl_header n ∈ make_swift_dict_top name d written →
       decl_header n ∈ written ∨ n = name ∨ ∃ i, n = autogen name i.
Proof.
  intros Hname [Hnodup Htree] Hwritten Hforeign.
  destruct (make_swift_dict_post name name (PyDict d) Hname name (written, ∅) d)
    as [_ _ _ Hdecl Hnd Hdeclared Hwr]; [done|done|by left|done| |].
  { constructor; cbn [fst snd].
    - intros key [? Hkey]. by rewrite lookup_empty in Hkey.
    - by left.
    - intros n Hn. destruct (Hforeign n Hn) as [Hne Hauto].
      split_and!; [done..|]. intros i ->. by destruct (Hauto i).
    - done. }
  split_and!; [done..|].
  intros n Hn. destruct (Hdecl n Hn) as [?|[?|(i & _ & ?)]]; eauto.
Qed.

(** No constant is declared twice, and the constant asked for is declared:
    when the name does not start with an underscore, the keys of each
    dictionary are distinct, and below the root no key of a child that gets
    a constant of its own starts with a digit, the declarations that
    [make_swift_dict] writes are pairwise different strings, and the
    declaration of [name] is among them. *)
Theorem constants_declared_once
    (name : string) (d : list (string * PyValue)) :
  name_ok name = true → inner_keys_ok d →
  NoDup (declarations (make_swift_dict_top name d [])) ∧
  decl_header name ∈ make_swift_dict_top name d [].
Proof.
  intros Hname Hd.
  destruct (make_swift_dict_top_spec name d [] Hname Hd) as (? & ? & _ & _);
    [constructor|by intros n ?%elem_of_nil|done].
Qed.

(** The same for the two tries that [main] prints one after the other, each
    with a cache of its own: no constant is declared twice in the section,
    across the two tries either, and [p_suffixes] and [n_suffixes], the
    constants that [get_domain] starts from, are declared. *)
Theorem tries_declared_once (p_tree n_tree : list (string * PyValue)) :
  inner_keys_ok p_tree → inner_keys_ok n_tree →
  NoDup (declarations (write_tries p_tree n_tree)) ∧
  decl_header "p_suffixes" ∈ write_tries p_tree n_tree ∧
  decl_header "n_suffixes" ∈ write_tries p_tree n_tree.
Proof.
  intros Hp Hn. unfold write_tries.
  destruct (make_swift_dict_top_spec "p_suffixes" p_tree [] eq_refl Hp)
    as (Hnd1 & Hin1 & _ & Hnames1); [constructor|by intros n ?%elem_of_nil|].
  set (w1 := make_swift_dict_top "p_suffixes" p_tree []) in *. clearbody w1.
  assert (¬ is_decl (nl +:+ nl)) as Hsep by by cbv.
  destruct (make_swift_dict_top_spec "n_suffixes" n_tree (w1 ++ [nl +:+ nl]) eq_refl Hn)
    as (Hnd2 & Hin2 & Hwr2 & _).
  { rewrite declarations_app, (declarations_none [_]), app_nil_r; [done|].
    by apply Forall_singleton. }
  { intros n [Hn1|Hn1%list_elem_of_singleton]%elem_of_app.
    - destruct (Hnames1 n Hn1) as [[]%elem_of_nil|[->|[j ->]]]; [done|].
      split; [done|]. intros i Heq. unfold autogen in Heq.
      by apply (inj (String.app "__AUTOGEN_")) in Heq.
    - exfalso. apply Hsep. rewrite <- Hn1. apply is_decl_header. }
  set (w2 := make_swift_dict_top "n_suffixes" n_tree _) in *.
  split_and!.
  - rewrite declarations_app, (declarations_none [_]), app_nil_r; [done|].
    by apply Forall_singleton.
  - apply elem_of_app. left. apply Hwr2, elem_of_app. by left.
  - apply elem_of_app. by left.
Qed.

Lemma to_swift_string_eq k1 k2 : to_swift_string k1 = to_swift_string k2 → k1 = k2.
Proof.
  unfold to_swift_string, CONSTANT_NAMES.
  destruct (String.eqb_spec k1 "!") as [->|_], (String.eqb_spec k2 "!") as [->|_];
    [done|..].
  - destruct (String.eqb_spec k2 "*") as [->|_]; by cbv.
  - destruct (String.eqb_spec k1 "*") as [->|_]; by cbv.
  - destruct (String.eqb_spec k1 "*") as [->|_], (String.eqb_spec k2 "*") as [->|_];
      [done|by cbv|by cbv|].
    intros [= H]. by apply string_app_inv_tail in H.
Qed.

(** Different keys are printed as different Swift expressions: the two
    constants stand for the sentinel and the wildcard only, and every other
    key is printed between quotes. *)
Theorem to_swift_string_inj (k1 k2 : string) :
  k1 ≠ k2 → to_swift_string k1 ≠ to_swift_string k2.
Proof. intros Hne Heq. by apply Hne, to_swift_string_eq. Qed.

Lemma to_swift_string_inj_witness :
  to_swift_string "!" ≠ to_swift_string "accept_this".
Proof. apply to_swift_string_inj. done. Defined.

(** Closed instances of [tree_ok]. *)
Ltac tree_ok_tac :=
  repeat first
    [ by_decide
    | apply tree_ok_true
    | apply tree_ok_dict
    | apply Forall_nil
    | apply Forall_cons
    | split
    | done ].

Lemma constants_declared_once_witness :
  NoDup (declarations (make_swift_dict_top "p_suffixes" spec_p_tree [])) ∧
  decl_header "p_suffixes" ∈ make_swift_dict_top "p_suffixes" spec_p_tree [].
Proof.
  apply constants_declared_once; [reflexivity|].
  split; [by_decide|]. tree_ok_tac.
Defined.

Lemma tries_declared_once_witness :
  NoDup (declarations (write_tries spec_p_tree spec_n_tree)) ∧
  decl_header "p_suffixes" ∈ write_tries spec_p_tree spec_n_tree ∧
  decl_header "n_suffixes" ∈ write_tries spec_p_tree spec_n_tree.
Proof.
  apply tries_declared_once; (split; [by_decide|tree_ok_tac]).
Defined.

Lemma get_name_cases prefix s cache :
  cache ⊆ (get_name prefix s cache).2 ∧
  (get_name prefix s cache).2 !! s = Some (get_name prefix s cache).1 ∧
  ∀ key nm, (get_name prefix s cache).2 !! key = Some nm →
    cache !! key = Some nm ∨ nm = (get_name prefix s cache).1.
Proof.
  unfold get_name. destruct (cache !! s) as [x|] eqn:Hs; cbn [fst snd].
  - split_and!; [done|done|]. intros key nm ?. by left.
  - split_and!; [by apply insert_subseteq|by apply lookup_insert_eq|].
    intros key nm. destruct (decide (key = s)) as [->|Hne].
    + rewrite lookup_insert_eq. intros [= <-]. by right.
    + rewrite lookup_insert_ne by done. by left.
Qed.

Lemma declared_first_loop prefix name st0 :
  ∀ rest processed st,
  Forall (λ kv, ∀ name st, is_dict kv.2 = true →
            declared_post name st (make_swift_dict name kv.2 prefix st)) rest →
  declared_loop name st0 processed st →
  declared_loop name st0 (processed ++ rest)
    (foldl (first_loop_step
              (λ sub v' st', make_swift_dict sub v' prefix st') name prefix)
       st rest).
Proof.
  induction rest as [|[k v] rest IH]; intros processed st Hspec Hinv.
  - by rewrite app_nil_r.
  - cbn [foldl].
    replace (processed ++ (k, v) :: rest) with ((processed ++ [(k, v)]) ++ rest)
      by (by rewrite <- app_assoc).
    apply Forall_cons in Hspec as [Hv Hspec].
    apply IH; [done|].
    destruct Hinv as [Hcache Hwr Hnames Hhits].
    unfold first_loop_step. cbn [fst snd]. fold (nonleaf v).
    destruct (nonleaf v) eqn:Hnl.
    + destruct (get_name_cases prefix (name +:+ k) st.2) as (Hsub & Hlook & Hcases).
      set (r := get_name prefix (name +:+ k) st.2) in *. clearbody r.
      assert (is_dict v = true) as Hdict.
      { unfold nonleaf in Hnl. by apply andb_true_iff in Hnl as [? _]. }
      destruct (Hv r.1 (st.1, r.2) Hdict) as [Hc2 Hw2 Hd2 Hn2].
      cbn [fst snd] in *. constructor.
      * by do 2 (etrans; [|done]).
      * intros w Hw. by apply Hw2, Hwr.
      * intros key nm Hkey. destruct (Hn2 key nm Hkey) as [Hold|?]; [|by right].
        destruct (Hcases key nm Hold) as [Hold'| ->]; [|by right].
        destruct (Hnames key nm Hold') as [?|?]; [by left|right]. by apply Hw2.
      * intros k0 v0 [Hin|Heq%list_elem_of_singleton]%elem_of_app Hnl0.
        -- destruct (Hhits k0 v0 Hin Hnl0) as [x Hx]. exists x.
           eapply lookup_weaken; [|done]. by eapply lookup_weaken.
        -- injection Heq as -> ->. eexists. by eapply lookup_weaken.
    + constructor; [done..|].
      intros k0 v0 [Hin|Heq%list_elem_of_singleton]%elem_of_app Hnl0.
      * by apply (Hhits k0 v0).
      * injection Heq as -> ->. congruence.
Qed.

Lemma make_swift_dict_declared prefix v name st :
  is_dict v = true → declared_post name st (make_swift_dict name v prefix st).
Proof.
  revert name st. induction v as [|items IH] using PyValue_ind'; [done|].
  intros name st0 _. rewrite make_swift_dict_eq.
  pose proof (declared_first_loop prefix name st0 items [] st0 IH) as Hloop.
  cbn [app] in Hloop.
  set (st1 := foldl _ st0 items) in *. clearbody st1.
  destruct Hloop as [Hcache Hwr Hnames Hhits].
  { constructor; [done|done|by left|]. intros k v Hin. by apply elem_of_nil in Hin. }
  destruct (second_loop_spec name prefix items (callback st1 (decl_header name)) true)
    as (extra & _ & ->); [done|].
  unfold callback. cbn [fst snd]. constructor; cbn [fst snd].
  - done.
  - intros w Hw. rewrite !elem_of_app. do 3 left. by apply Hwr.
  - rewrite !elem_of_app, !list_elem_of_singleton. by left; left; right.
  - intros key nm Hkey. destruct (Hnames key nm Hkey) as [?|?]; [by left|right].
    rewrite !elem_of_app. by do 3 left.
Qed.

(** No name dangles: every name that [get_name] hands out while a
    dictionary is printed, that is every value of the cache at the end, is
    the name of a constant that has been declared.  This needs no condition
    on the tree. *)
Theorem names_are_declared
    (name : string) (d : list (string * PyValue)) (written : list string)
    (key nm : string) :
  (make_swift_dict name (PyDict d) name (written, ∅)).2 !! key = Some nm →
  decl_header nm ∈ make_swift_dict_top name d written.
Proof.
  intros Hkey.
  destruct (make_swift_dict_declared name (PyDict d) name (written, ∅) eq_refl)
    as [_ _ _ Hnames].
  destruct (Hnames key nm Hkey) as [Hold|?]; [|done].
  cbn [snd] in Hold. by rewrite lookup_empty in Hold.
Qed.

Lemma names_are_declared_witness :
  decl_header "__AUTOGEN_p_suffixes_1"
  ∈ make_swift_dict_top "p_suffixes" spec_p_tree [].
Proof.
  apply (names_are_declared "p_suffixes" spec_p_tree [] "p_suffixesck").
  vm_compute. reflexivity.
Defined.

(** The condition on the digits is needed: the cache is keyed by the name
    followed by the key, and the name [..._1] followed by the key [0x] is
    the name [..._10] followed by the key [x].  The second subtree then
    gets the constant of the first, and that constant is declared twice. *)
Example constants_declared_twice :
  NoDup colliding_tree.*1 ∧
  ¬ NoDup (declarations (make_swift_dict_top "p_suffixes" colliding_tree [])).
Proof. split; by_decide. Qed.
